(** * Quix Streams: state store manager, file source and tutorial generator

    A shallow embedding of three Python modules of the repository,

    - [docs/tutorials/anomaly-detection/tutorial_app.py]
      (class [TemperatureGenerator]),
    - [quixstreams/sources/community/file/file.py]
      (class [FileSource] and [_file_finder]),
    - [quixstreams/state/manager.py] (class [StateStoreManager]),

    followed by the properties of the specification that concern them.

    Python objects become records, methods become functions that thread the
    object (and the part of the outside world they touch) explicitly, and a
    raised exception becomes the [Raise] outcome of a result type.
    Dictionaries whose iteration order can be observed are insertion-ordered
    association lists ([PyDict]); dictionaries that are only read by key are
    [gmap]s. *)

From Stdlib Require Import ZArith QArith Lqa String Ascii List OrderedTypeEx.
From stdpp Require Import base tactics option list sorting gmap strings pretty.

Local Open Scope string_scope.
Local Open Scope Z_scope.
Local Open Scope list_scope.

(** ** Python runtime: exceptions and results *)

Inductive Exception : Type :=
  | KeyError
  | IndexError
  | ValueError
  | NotADirectoryError
  | PartitionStoreIsUsed
  | StoreNotRegisteredError
  | WindowedStoreAlreadyRegisteredError
  | OverflowError.

Inductive Result (A : Type) : Type :=
  | Ok (a : A)
  | Raise (e : Exception).
Arguments Ok {A} a.
Arguments Raise {A} e.

Definition is_ok {A} (r : Result A) : bool :=
  match r with Ok _ => true | Raise _ => false end.

(** ** Floats made by dividing integers

    On integers, Python's [n / 1000] rounds the exact quotient once, to the
    double nearest to it, and raises [OverflowError] when the quotient lies
    at or beyond the middle between the largest double and 2^1024.  Such a
    float is kept here as the quotient it is the rounding of.  Rounding to
    the nearest double is monotone and leaves zero alone, and no quotient
    of 1/1000 or more in size rounds to zero, so the float is [> 0] exactly
    when the quotient is.  Floats are never added here, nor compared with
    one another. *)
Module float.
Record t : Type := nearest { quotient : Q }.

(** The quotients from here on are too large for a double. *)
Definition beyond : Z := 2 ^ 1024 - 2 ^ 970.

(** [n / 1000] *)
Definition div_1000 (n : Z) : Result t :=
  if Z.abs n <? 1000 * beyond then Ok (nearest (n # 1000))
  else Raise OverflowError.

(** [x > 0] *)
Definition gt_zero (x : t) : bool :=
  if Qlt_le_dec 0 (quotient x) then true else false.
End float.

(** ** [random.choices] of the Python standard library

    [random.choices(population, weights)] accumulates the weights, draws
    [random() * total] and looks the draw up with [bisect_right] between
    [lo = 0] and [hi = n - 1].  The uniform draw [random()] is the argument
    [u]; it is a rational in the half-open unit interval (floats are
    rationals; the rounding of the product is not modelled). *)

Module random.

Fixpoint accumulate_from (acc : Z) (ws : list Z) : list Z :=
  match ws with
  | [] => []
  | w :: ws' => (acc + w) :: accumulate_from (acc + w) ws'
  end.

Definition accumulate (ws : list Z) : list Z := accumulate_from 0 ws.

(** [x < a] on a rational draw and an integer cumulative weight. *)
Definition draw_lt (x : Q) (a : Z) : bool := negb (Qle_bool (inject_Z a) x).

(** [bisect.bisect_right(a, x, lo, hi)]: the loop
    [while lo < hi: mid = (lo + hi) // 2; if x < a[mid]: hi = mid
     else: lo = mid + 1], run for at most [fuel] rounds ([hi - lo] shrinks
    in every round, so [hi - lo] rounds are enough). *)
Fixpoint bisect_loop (fuel : nat) (a : list Z) (x : Q) (lo hi : nat)
  : Result nat :=
  match fuel with
  | O => Ok lo
  | S fuel' =>
      if (lo <? hi)%nat then
        let mid := ((lo + hi) / 2)%nat in
        match a !! mid with
        | None => Raise IndexError
        | Some am =>
            if draw_lt x am then bisect_loop fuel' a x lo mid
            else bisect_loop fuel' a x (mid + 1)%nat hi
        end
      else Ok lo
  end.

Definition bisect_right (a : list Z) (x : Q) (lo hi : nat) : Result nat :=
  bisect_loop (hi - lo) a x lo hi.

(** [random.choices(population, weights)[0]] with [k = 1]. *)
Definition choices {A} (population : list A) (weights : list Z) (u : Q)
  : Result A :=
  let n := length population in
  let cum_weights := accumulate weights in
  if negb (length cum_weights =? n)%nat then Raise ValueError
  else
    match last cum_weights with
    | None => Raise IndexError
    | Some total =>
        if total <=? 0 then Raise ValueError
        else
          match bisect_right cum_weights (u * inject_Z total)%Q 0 (n - 1) with
          | Raise e => Raise e
          | Ok i =>
              match population !! i with
              | Some v => Ok v
              | None => Raise IndexError
              end
          end
    end.

(** [random()] returns a float in the half-open interval from 0 to 1. *)
Definition unit_draw (u : Q) : Prop := (0 <= u)%Q /\ (u < 1)%Q.

End random.

(** ** [TemperatureGenerator] (tutorial_app.py) *)

Module TemperatureGenerator.

Definition probabilities_normal : gmap Z (list Z) :=
  list_to_map
    [ (40, [0; 0; 100]);
      (50, [20; 30; 50]);
      (60, [30; 40; 30]);
      (70, [40; 50; 10]);
      (80, [80; 10; 10]);
      (90, [100; 0; 0]) ].

Definition probabilities_issue : gmap Z (list Z) :=
  list_to_map
    [ (40, [0; 0; 100]);
      (50, [0; 10; 90]);
      (60, [5; 15; 80]);
      (70, [5; 20; 75]);
      (80, [5; 20; 75]);
      (90, [10; 20; 70]) ].

(** The object.  [running] is the flag of the [Source] base class that
    [stop()] clears and the [running] property reads. *)
Record t : Type := mk {
  event_count : Z;
  machine_temps : gmap Z Z;
  machine_types : gmap Z (gmap Z (list Z));
  running : bool
}.

Definition __init__ : t :=
  {| event_count := 0;
     machine_temps := list_to_map [(0, 66); (1, 58); (2, 62)];
     machine_types :=
       list_to_map
         [ (0, probabilities_normal);
           (1, probabilities_normal);
           (2, probabilities_issue) ];
     running := true |}.

Definition set_machine_temp (machine_id temp : Z) (self : t) : t :=
  {| event_count := event_count self;
     machine_temps := <[machine_id := temp]> (machine_temps self);
     machine_types := machine_types self;
     running := running self |}.

(** Modelled from the spec: [Source.stop], of the base class that is not
    among the sources; "[run()] emits records until [running] is cleared",
    and [stop()] is what clears it. *)
Definition stop (self : t) : t :=
  {| event_count := event_count self;
     machine_temps := machine_temps self;
     machine_types := machine_types self;
     running := false |}.

Definition incr_event_count (self : t) : t :=
  {| event_count := event_count self + 1;
     machine_temps := machine_temps self;
     machine_types := machine_types self;
     running := running self |}.

(** [self.machine_temps[machine_id] += random.choices([-1, 0, 1],
      self.machine_types[machine_id][(temp // 10) * 10])[0]].
    Every subscript is a dictionary lookup that raises [KeyError] on a
    missing key. *)
Definition update_machine_temp (u : Q) (machine_id : Z) (self : t)
  : Result t :=
  match machine_temps self !! machine_id with
  | None => Raise KeyError
  | Some temp =>
      match machine_types self !! machine_id with
      | None => Raise KeyError
      | Some table =>
          match table !! ((temp / 10) * 10) with
          | None => Raise KeyError
          | Some weights =>
              match random.choices [-1; 0; 1] weights u with
              | Raise e => Raise e
              | Ok change => Ok (set_machine_temp machine_id (temp + change) self)
              end
          end
      end
  end.

(** The event handed to [serialize]: key [str(machine_id)], the
    temperature and the [time.time_ns()] reading [now]. *)
Record event : Type := mk_event {
  key : string;
  Temperature_C : Z;
  Timestamp : Z
}.

Definition generate_event (u : Q) (now : Z) (self : t) : Result (event * t) :=
  let machine_id := event_count self mod 3 in
  match update_machine_temp u machine_id self with
  | Raise e => Raise e
  | Ok self1 =>
      match machine_temps self1 !! machine_id with
      | None => Raise KeyError
      | Some temp =>
          let event_out :=
            {| key := pretty machine_id; Temperature_C := temp; Timestamp := now |} in
          let self2 := incr_event_count self1 in
          let self3 := if temp =? 100 then stop self2 else self2 in
          Ok (event_out, self3)
      end
  end.

(** [run]: [while self.running: produce(generate_event()); sleep(0.2)].
    The loop need not end, so an execution is given by the finite list of
    the (draw, clock) pairs consumed so far; the result is the list of
    events produced and the object after them. *)
Fixpoint run (inputs : list (Q * Z)) (self : t) : Result (list event * t) :=
  match inputs with
  | [] => Ok ([], self)
  | (u, now) :: rest =>
      if running self then
        match generate_event u now self with
        | Raise e => Raise e
        | Ok (ev, self') =>
            match run rest self' with
            | Raise e => Raise e
            | Ok (evs, self'') => Ok (ev :: evs, self'')
            end
        end
      else Ok ([], self)
  end.

(** Every temperature of the object lies between [lo] and [hi]. *)
Definition temps_within (lo hi : Z) (self : t) : Prop :=
  forall machine_id temp,
    machine_temps self !! machine_id = Some temp -> lo <= temp <= hi.

(** What holds of the object between two rounds of [run]. *)
Record invariant (self : t) : Prop := mk_invariant {
  inv_types : machine_types self = machine_types __init__;
  inv_ids : forall machine_id,
    0 <= machine_id < 3 -> is_Some (machine_temps self !! machine_id);
  inv_range : temps_within 40 100 self;
  inv_running : running self = true -> temps_within 40 99 self;
  inv_stopped : running self = false ->
    exists machine_id, machine_temps self !! machine_id = Some 100
}.

(** The object after a round that left [temp] on the machine
    [machine_id]: the count has moved on, and [stop()] was called at 100. *)
Definition after_round (machine_id temp : Z) (self : t) : t :=
  let self2 := incr_event_count (set_machine_temp machine_id temp self) in
  if temp =? 100 then stop self2 else self2.

(** The weight a row of a probability table gives to a change of -1, 0
    or 1. *)
Definition weight_of (change : Z) (weights : list Z) : Z :=
  default 0 (weights !! Z.to_nat (change + 1)).

(** The range each machine keeps: the two machines of the normal table
    stay between 49 and 90, the one of the issue table between 59 and 100. *)
Definition machine_range (machine_id : Z) : Z * Z :=
  if machine_id =? 2 then (59, 100) else (49, 90).

Definition temps_in_machine_ranges (self : t) : Prop :=
  forall machine_id temp,
    machine_temps self !! machine_id = Some temp ->
    fst (machine_range machine_id) <= temp <= snd (machine_range machine_id).

(** Draws that always fall on the upper seven tenths of the weights. *)
Definition high_draw (u : Q) : Prop := (3 # 10 <= u)%Q /\ (u < 1)%Q.

(** The generator under steady heating: it is running, fewer than 114
    rounds have been made, and machine 2 has gained one degree in each of
    its turns. *)
Definition heating (self : t) : Prop :=
  invariant self /\ temps_in_machine_ranges self /\ running self = true /\
  0 <= event_count self <= 113 /\
  machine_temps self !! 2 = Some (62 + event_count self / 3).

End TemperatureGenerator.


(** ** Methods with effects

    A method reads and updates its object (the state [S]), emits calls to
    its collaborators (the effects [E], in the order they are made) and
    either returns or raises.  When it raises, the state reached and the
    effects emitted so far remain. *)

Record Outcome (S E A : Type) : Type := mkOutcome {
  out : Result A;
  st : S;
  ev : list E
}.
Arguments mkOutcome {S E A} out st ev.
Arguments out {S E A} o.
Arguments st {S E A} o.
Arguments ev {S E A} o.

Definition M (S E A : Type) : Type := S -> Outcome S E A.

Section Methods.
Context {S E : Type}.

Definition ret {A} (a : A) : M S E A := fun s => mkOutcome (Ok a) s [].

Definition raise {A} (e : Exception) : M S E A :=
  fun s => mkOutcome (Raise e) s [].

Definition bind {A B} (m : M S E A) (f : A -> M S E B) : M S E B :=
  fun s =>
    let r := m s in
    match out r with
    | Ok a => let r' := f a (st r) in mkOutcome (out r') (st r') (ev r ++ ev r')
    | Raise e => mkOutcome (Raise e) (st r) (ev r)
    end.

Definition gets {A} (f : S -> A) : M S E A := fun s => mkOutcome (Ok (f s)) s [].
Definition modify (f : S -> S) : M S E unit := fun s => mkOutcome (Ok tt) (f s) [].
Definition emit (e : E) : M S E unit := fun s => mkOutcome (Ok tt) s [e].

Definition lift {A} (r : Result A) : M S E A := fun s => mkOutcome r s [].

(** [for x in l: body(x)] *)
Fixpoint for_each {X} (l : list X) (body : X -> M S E unit) : M S E unit :=
  match l with
  | [] => ret tt
  | x :: l' => bind (body x) (fun _ => for_each l' body)
  end.

(** How the body of a [while] ends a round: by falling through to the
    next test of the condition, or with [return]. *)
Inductive Flow : Type := Next | Return.

(** [while cond: body], run for at most [fuel] rounds; [None] when the
    loop has not ended within them. *)
Fixpoint while (fuel : nat) (cond : S -> bool) (body : M S E Flow)
  : M S E (option unit) :=
  match fuel with
  | O => ret None
  | Datatypes.S fuel' =>
      bind (gets cond) (fun c =>
        if c : bool then
          bind body (fun flow =>
            match flow with
            | Return => ret (Some tt)
            | Next => while fuel' cond body
            end)
        else ret (Some tt))
  end.

End Methods.

Notation "'let*' x ':=' m 'in' k" := (bind m (fun x => k))
  (at level 10, x name, m at level 100, k at level 200, only parsing).
Notation "m ';;' k" := (bind m (fun _ => k))
  (at level 100, k at level 200, right associativity, only parsing).

(** ** Topics ([quixstreams.models]) *)

Record TopicConfig : Type := mk_config {
  num_partitions : Z;
  replication_factor : Z
}.

(** Modelled from the spec: the [Topic] of [quixstreams.models], which is
    not among the sources; a Source's "declared topic and partition count":
    a topic has a name and a configuration. *)
Record Topic : Type := mk_topic {
  topic_name : string;
  config : option TopicConfig
}.

(** ** [FileSource] (sources/community/file/file.py) *)

(** A path is the list of its components; [name] is the last of them and
    [parent] drops it, as [Path.name] and [Path.parent] do. *)
Abbreviation Path := (list string).

Module PurePath.
Definition name (p : Path) : string := List.last p "".
Definition parent (p : Path) : Path := removelast p.
Definition joinpath (p : Path) (child : string) : Path := p ++ [child].
End PurePath.

(** What the file system holds at a path: a file, or a directory with its
    entries in the order [iterdir()] lists them (an order the operating
    system chooses). *)
#[local] Unset Elimination Schemes.
Inductive Node : Type :=
  | File
  | Dir (entries : list (string * Node)).
#[local] Set Elimination Schemes.

(** [sorted(iterable, key=...)]: a stable sort that compares keys with [<]
    only; the keys here are names, compared as Python compares strings. *)
Section Sorted.
Context {A : Type} (key : A -> string).

Fixpoint insert_sorted (x : A) (l : list A) : list A :=
  match l with
  | [] => [x]
  | y :: l' =>
      if String.ltb (key y) (key x) then y :: insert_sorted x l'
      else x :: y :: l'
  end.

Fixpoint sorted (l : list A) : list A :=
  match l with
  | [] => []
  | x :: l' => insert_sorted x (sorted l')
  end.

(** The order of two elements by their keys: not after, and before. *)
Definition key_le (x y : A) : Prop := String.ltb (key y) (key x) = false.
Definition key_lt (x y : A) : Prop := String.ltb (key x) (key y) = true.
End Sorted.

(** [_file_finder(filepath)], with [tree] what the file system holds at
    [filepath].  The generator is read off as the list of the paths it
    yields.  The recursive calls are made on the entries before the entries
    are sorted, which sorts the same keys ([_file_finder_Dir] below gives the
    equation of the source). *)
Fixpoint _file_finder (filepath : Path) (tree : Node) : list Path :=
  match tree with
  | Dir entries =>
      concat (map snd (sorted fst
        (map (fun i => (fst i, _file_finder (PurePath.joinpath filepath (fst i)) (snd i)))
             entries)))
  | File => [filepath]
  end.

(** Induction on a tree, with the hypothesis for every entry of a
    directory. *)
Fixpoint Node_induction (P : Node -> Prop)
    (HFile : P File)
    (HDir : forall entries, Forall (fun i => P (snd i)) entries -> P (Dir entries))
    (tree : Node) : P tree :=
  match tree with
  | File => HFile
  | Dir entries =>
      HDir entries
        ((fix go (l : list (string * Node)) : Forall (fun i => P (snd i)) l :=
            match l with
            | [] => List.Forall_nil _
            | i :: l' =>
                List.Forall_cons _ i l' (Node_induction P HFile HDir (snd i)) (go l')
            end) entries)
  end.

Definition finder_entry (filepath : Path) (i : string * Node) : list Path :=
  _file_finder (PurePath.joinpath filepath (fst i)) (snd i).

(** The non-directory files below [filepath], in the order the file system
    lists them. *)
Fixpoint files_of (filepath : Path) (tree : Node) : list Path :=
  match tree with
  | Dir entries =>
      flat_map (fun i => files_of (PurePath.joinpath filepath (fst i)) (snd i)) entries
  | File => [filepath]
  end.

(** No directory of the tree has two entries of the same name. *)
Fixpoint unique_names (tree : Node) : Prop :=
  match tree with
  | Dir entries =>
      NoDup (map fst entries) /\
      fold_right (fun i P => unique_names (snd i) /\ P) True entries
  | File => True
  end.

(** The same tree with the entries of every directory listed in another
    order, [reorder] being any rearrangement of a listing. *)
Fixpoint relisted (reorder : list (string * Node) -> list (string * Node))
    (tree : Node) : Node :=
  match tree with
  | Dir entries => Dir (reorder (map (fun i => (fst i, relisted reorder (snd i))) entries))
  | File => File
  end.

(** Lexicographic order on paths, component by component. *)
Inductive path_lt : Path -> Path -> Prop :=
  | path_lt_nil b q : path_lt [] (b :: q)
  | path_lt_head a b p q : String.ltb a b = true -> path_lt (a :: p) (b :: q)
  | path_lt_tail a p q : path_lt p q -> path_lt (a :: p) (a :: q).

Module FileSource.

(** A record as [Format.file_read] yields it. *)
Record record : Type := mk_record {
  _key : string;
  _value : string;
  _timestamp : Z
}.

(** The calls the source makes on the outside: [time.sleep(seconds)],
    [self.produce(...)] of the serialized record, and [self.flush()]. *)
Inductive Effect : Type :=
  | Sleep (seconds : float.t)
  | Produce (r : record)
  | Flush.

Record t : Type := mk {
  _filepath : Path;
  _as_replay : bool;
  _previous_timestamp : option Z;
  _previous_partition : option Z;
  name : string;
  shutdown_timeout : Q;
  _running : bool
}.

Definition set_previous_timestamp (v : option Z) (self : t) : t :=
  {| _filepath := _filepath self; _as_replay := _as_replay self;
     _previous_timestamp := v;
     _previous_partition := _previous_partition self;
     name := name self; shutdown_timeout := shutdown_timeout self;
     _running := _running self |}.

Definition set_previous_partition (v : option Z) (self : t) : t :=
  {| _filepath := _filepath self; _as_replay := _as_replay self;
     _previous_timestamp := _previous_timestamp self;
     _previous_partition := v;
     name := name self; shutdown_timeout := shutdown_timeout self;
     _running := _running self |}.

(** [__init__]; [name or self._filepath.name]: an empty name is falsy.
    The flag [_running] belongs to the [Source] base class, which leaves it
    clear. *)
Definition __init__ (filepath : Path) (as_replay : bool)
    (name : option string) (shutdown_timeout : Q) : t :=
  {| _filepath := filepath;
     _as_replay := as_replay;
     _previous_timestamp := None;
     _previous_partition := None;
     name := match name with
             | Some n => if String.eqb n "" then PurePath.name filepath else n
             | None => PurePath.name filepath
             end;
     shutdown_timeout := shutdown_timeout;
     _running := false |}.

(** Modelled from the spec: the [Source] base class, which is not among
    the sources; "[run()] emits records until [running] is cleared": a
    source that is started has the flag set when [run] is entered. *)
Definition start (self : t) : t :=
  {| _filepath := _filepath self; _as_replay := _as_replay self;
     _previous_timestamp := _previous_timestamp self;
     _previous_partition := _previous_partition self;
     name := name self; shutdown_timeout := shutdown_timeout self;
     _running := true |}.

Section Methods.
(** [int(str)], the parser of the language, and the parts of the
    package that are not among the sources: what the formatter reads
    from a file, and the default topic of the base class. *)
Variable int : string -> Result Z.
Variable file_read : Path -> list record.
Variable super_default_topic : t -> Topic.

(** [_replay_delay]: [time_diff = (current - previous) / 1000], a float,
    slept when positive. *)
Definition _replay_delay (current_timestamp : Z) : M t Effect unit :=
  let* previous := gets _previous_timestamp in
  (match previous with
   | Some previous_timestamp =>
       let* time_diff :=
         lift (float.div_1000 (current_timestamp - previous_timestamp)) in
       if float.gt_zero time_diff then emit (Sleep time_diff) else ret tt
   | None => ret tt
   end);;
  modify (set_previous_timestamp (Some current_timestamp)).

Definition _get_partition_count (tree : Node) : M t Effect Z :=
  match tree with
  | Dir entries => ret (Z.of_nat (length entries))
  | File => raise NotADirectoryError
  end.

Definition default_topic (tree : Node) : M t Effect Topic :=
  let* topic := gets super_default_topic in
  let* count := _get_partition_count tree in
  ret {| topic_name := topic_name topic;
         config := Some {| num_partitions := count; replication_factor := 1 |} |}.

Definition _check_file_partition_number (file : Path) : M t Effect unit :=
  let* partition := lift (int (PurePath.name (PurePath.parent file))) in
  let* previous := gets _previous_partition in
  if decide (previous = Some partition) then ret tt
  else
    modify (set_previous_timestamp None);;
    modify (set_previous_partition (Some partition)).

Definition _produce (r : record) : M t Effect unit := emit (Produce r).

(** The body of the [for record in ...] loop of [run]. *)
Definition produce_record (r : record) : M t Effect unit :=
  (let* as_replay := gets _as_replay in
   if as_replay : bool then _replay_delay (_timestamp r) else ret tt);;
  _produce r.

(** The body of the [for file in ...] loop of [run]. *)
Definition run_file (file : Path) : M t Effect unit :=
  _check_file_partition_number file;;
  for_each (file_read file) produce_record;;
  emit Flush.

(** [run]: the [while self._running] loop whose body ends in [return]. *)
Definition run (fuel : nat) (tree : Node) : M t Effect (option unit) :=
  while fuel _running
    (let* filepath := gets _filepath in
     for_each (_file_finder filepath tree) run_file;;
     ret Return).

End Methods.

(** *** The pacing the replay is meant to show, stated on its own *)

(** The sleep between two records [diff] milliseconds apart: the float
    [diff / 1000] seconds when the difference is positive, none
    otherwise. *)
Definition pause (diff : Z) : list Effect :=
  if 0 <? diff then [Sleep (float.nearest (diff # 1000))] else [].

(** Records produced one after another, each after the pause that
    separates it from the one before. *)
Fixpoint paced_after (previous : Z) (rs : list record) : list Effect :=
  match rs with
  | [] => []
  | r :: rs' =>
      pause (_timestamp r - previous) ++ Produce r :: paced_after (_timestamp r) rs'
  end.

(** The records of one partition: the first is produced at once. *)
Definition paced (rs : list record) : list Effect :=
  match rs with
  | [] => []
  | r :: rs' => Produce r :: paced_after (_timestamp r) rs'
  end.

(** Files that follow one another with the same partition number form one
    stretch of that partition. *)
Fixpoint stretches (files : list (Z * list record)) : list (Z * list record) :=
  match files with
  | [] => []
  | (partition, rs) :: rest =>
      match stretches rest with
      | (partition', rs') :: more =>
          if decide (partition = partition') then (partition, rs ++ rs') :: more
          else (partition, rs) :: (partition', rs') :: more
      | [] => [(partition, rs)]
      end
  end.

Definition is_flush (e : Effect) : bool :=
  match e with Flush => true | _ => false end.

(** The sleeps and records of a trace, without the flushes. *)
Definition pacing (evs : list Effect) : list Effect :=
  List.filter (fun e => negb (is_flush e)) evs.

(** The records of a trace, in the order they were produced. *)
Definition produced (evs : list Effect) : list record :=
  omap (fun e => match e with Produce r => Some r | _ => None end) evs.

Definition flushes (evs : list Effect) : nat :=
  length (List.filter is_flush evs).

(** The tracker after [_check_file_partition_number] has met a file of
    the partition [partition]. *)
Definition tracked (partition : Z) (self : t) : t :=
  if decide (_previous_partition self = Some partition) then self
  else set_previous_partition (Some partition) (set_previous_timestamp None self).

(** Records produced after a tracker that holds [previous]. *)
Definition paced_from (previous : option Z) (rs : list record) : list Effect :=
  match previous with
  | Some previous_timestamp => paced_after previous_timestamp rs
  | None => paced rs
  end.

(** The tracker after the records [rs]. *)
Definition last_timestamp (previous : option Z) (rs : list record) : option Z :=
  match rs with
  | [] => previous
  | r :: rs' => Some (_timestamp (List.last rs' r))
  end.

(** The pacing of stretches that follow a tracker holding the partition
    [partition] and the timestamp [previous]. *)
Definition resumed (partition previous : option Z)
    (groups : list (Z * list record)) : list Effect :=
  match groups with
  | [] => []
  | (p, rs) :: more =>
      (if decide (partition = Some p) then paced_from previous rs else paced rs)
      ++ flat_map (fun g => paced (snd g)) more
  end.

(** The folder of the file has a name that [int] accepts. *)
Definition parses (int : string -> Result Z) (file : Path) : Prop :=
  is_ok (int (PurePath.name (PurePath.parent file))) = true.

(** The partition number of a file whose folder name parses. *)
Definition partition_number (int : string -> Result Z) (file : Path) : Z :=
  match int (PurePath.name (PurePath.parent file)) with
  | Ok partition => partition
  | Raise _ => 0
  end.

(** The files of a pass as the pacing sees them: each with its partition
    number and its records. *)
Definition tagged (int : string -> Result Z) (file_read : Path -> list record)
    (files : list Path) : list (Z * list record) :=
  map (fun file => (partition_number int file, file_read file)) files.

(** A sleep the source may make: in replay mode only, and for a positive
    time. *)
Definition sleep_allowed (self : t) (e : Effect) : Prop :=
  match e with
  | Sleep seconds => (0 < float.quotient seconds)%Q /\ _as_replay self = true
  | _ => True
  end.

(** The seconds asked of [sleep] in a trace, before the rounding of each
    quotient to its float: the sum of the quotients. *)
Definition seconds_asked (evs : list Effect) : Q :=
  fold_right (fun e acc =>
                match e with
                | Sleep seconds => float.quotient seconds + acc
                | _ => acc
                end)%Q
    0%Q evs.

(** A trace without its sleeps: the records and the flushes, in the order
    they were made. *)
Definition is_sleep (e : Effect) : bool :=
  match e with Sleep _ => true | _ => false end.

Definition unslept (evs : list Effect) : list Effect :=
  List.filter (fun e => negb (is_sleep e)) evs.

(** Timestamps as the broker has them, 64-bit integers: the difference of
    two of them is far from the quotients that overflow. *)
Definition timely (timestamp : Z) : Prop :=
  - 9223372036854775808 <= timestamp < 9223372036854775808.

Definition timely_records (rs : list record) : Prop :=
  Forall (fun r => timely (_timestamp r)) rs.

Definition timely_tracker (self : t) : Prop :=
  match _previous_timestamp self with
  | Some previous => timely previous
  | None => True
  end.

(** What a pass in replay mode divides is timely: the timestamp the
    tracker holds and those of the records of the files.  Without replay
    nothing is divided. *)
Definition timed (file_read : Path -> list record) (self : t)
    (files : list Path) : Prop :=
  _as_replay self = true ->
  timely_tracker self /\
  Forall (fun file => timely_records (file_read file)) files.

(** The time between the first and the last record of a list, and from a
    timestamp to the last record, in milliseconds. *)
Definition span_after (previous : Z) (rs : list record) : Z :=
  match rs with
  | [] => 0
  | r :: rs' => _timestamp (List.last rs' r) - previous
  end.

Definition span (rs : list record) : Z :=
  match rs with
  | [] => 0
  | r :: rs' => span_after (_timestamp r) rs'
  end.

(** The milliseconds paused while replaying records after a timestamp: the
    positive differences. *)
Fixpoint paused_after (previous : Z) (rs : list record) : Z :=
  match rs with
  | [] => 0
  | r :: rs' =>
      Z.max 0 (_timestamp r - previous) + paused_after (_timestamp r) rs'
  end.

Definition paused (rs : list record) : Z :=
  match rs with
  | [] => 0
  | r :: rs' => paused_after (_timestamp r) rs'
  end.

(** The timestamps of a list of records never go back. *)
Definition ascending (rs : list record) : Prop :=
  Sorted (fun a b => _timestamp a <= _timestamp b) rs.

(** Over the stretches of a pass: the time the records span, and the
    milliseconds paused. *)
Definition stretch_spans (groups : list (Z * list record)) : Z :=
  fold_right (fun g acc => span (snd g) + acc) 0 groups.

Definition stretch_pauses (groups : list (Z * list record)) : Z :=
  fold_right (fun g acc => paused (snd g) + acc) 0 groups.

(** What a file gives without pacing: its records, then a flush. *)
Definition unpaced (file_read : Path -> list record) (file : Path) : list Effect :=
  map Produce (file_read file) ++ [Flush].

End FileSource.

(** [int] on the plain decimal names a partition folder has: an optional
    sign and ASCII digits; anything else is refused.  (Python's [int] also
    accepts surrounding blanks and underscores; the properties below hold
    for any parser, this one serves the examples.) *)
Module Decimal.
Definition digit (c : ascii) : option Z :=
  let n := Z.of_nat (nat_of_ascii c) in
  if (48 <=? n) && (n <=? 57) then Some (n - 48) else None.

Fixpoint digits (acc : Z) (s : string) : Result Z :=
  match s with
  | EmptyString => Ok acc
  | String c s' =>
      match digit c with
      | Some d => digits (10 * acc + d) s'
      | None => Raise ValueError
      end
  end.

Definition int (s : string) : Result Z :=
  match s with
  | EmptyString => Raise ValueError
  | String "-" (String c s') =>
      match digits 0 (String c s') with Ok n => Ok (- n) | Raise e => Raise e end
  | String "+" (String c s') => digits 0 (String c s')
  | _ => digits 0 s
  end.
End Decimal.

(** ** Insertion-ordered dictionaries

    A Python [dict] keeps its keys in the order they were first inserted,
    and loops over a dictionary see that order.  [get] is [d.get(k)], [set]
    is [d[k] = v] (in place for a key that is present, at the end for a new
    one), [delete] is [del d[k]]. *)
Module PyDict.
Section Dict.
Context {K V : Type} `{EqDecision K}.

Definition t : Type := list (K * V).

Fixpoint get (k : K) (d : t) : option V :=
  match d with
  | [] => None
  | (k', v) :: d' => if decide (k = k') then Some v else get k d'
  end.

Fixpoint set (k : K) (v : V) (d : t) : t :=
  match d with
  | [] => [(k, v)]
  | (k', v') :: d' =>
      if decide (k = k') then (k, v) :: d' else (k', v') :: set k v d'
  end.

Fixpoint delete (k : K) (d : t) : t :=
  match d with
  | [] => []
  | (k', v') :: d' => if decide (k = k') then d' else (k', v') :: delete k d'
  end.

Definition keys (d : t) : list K := map fst d.
Definition values (d : t) : list V := map snd d.

(** Every key occurs once: what holds of any dictionary. *)
Definition wf (d : t) : Prop := NoDup (keys d).
End Dict.
Arguments t K V : clear implicits.
End PyDict.

(** What a tree holds at a path relative to its root, if anything: the walk
    through the directories by the names of the path. *)
Fixpoint resolve (relative : Path) (tree : Node) : option Node :=
  match relative with
  | [] => Some tree
  | name :: relative' =>
      match tree with
      | File => None
      | Dir entries =>
          match PyDict.get name entries with
          | Some child => resolve relative' child
          | None => None
          end
      end
  end.

(** ** The file system under the state directory

    Which paths exist, and whether as a file or as a directory. *)
Inductive NodeKind : Type := IsFile | IsDir.

Abbreviation FileSystem := (gmap (list string) NodeKind).

(** [path.exists()] and [path.is_dir()] look at what the path holds; the
    root is a directory and is not kept in the map. *)
Definition stat (path : Path) (fs : FileSystem) : option NodeKind :=
  match path with
  | [] => Some IsDir
  | _ :: _ => fs !! path
  end.

(** What the operating system lets [rmtree] do, which the program cannot
    see: the directories it can open to list them (a symbolic link to a
    directory cannot be opened that way, nor can a directory that may not be
    read), and the entries it may remove from their directory. *)
Record OS : Type := mk_os {
  can_open : Path -> bool;
  can_remove : Path -> bool
}.

(** Every directory on the way from [path] down to [p], [p] itself left
    out, can be opened. *)
Definition opens_down (system : OS) (path p : Path) : bool :=
  forallb (fun k => can_open system (take k p))
    (seq (length path) (length p - length path)).

(** An entry that the walk reaches can go: it may be removed and, when it
    is a directory, it can be opened to be emptied first. *)
Definition can_go (system : OS) (p : Path) (kind : NodeKind) : bool :=
  can_remove system p && match kind with IsDir => can_open system p | IsFile => true end.

(** [rmtree(path)] removes the entry [p]: it lies at or below [path], the
    walk reaches it, and it can go with all that the disk holds below it (a
    directory that keeps an entry stays). *)
Definition removed_by_rmtree (system : OS) (path : Path) (fs : FileSystem)
    (p : Path) : Prop :=
  path `prefix_of` p /\
  opens_down system path p = true /\
  map_Forall (fun q kind => p `prefix_of` q -> can_go system q kind = true) fs.

#[global] Instance removed_by_rmtree_dec system path fs p :
  Decision (removed_by_rmtree system path fs p).
Proof. unfold removed_by_rmtree. apply _. Defined.

(** [shutil.rmtree(path, ignore_errors=True)]: the walk through a
    directory removes what the operating system lets it remove and goes on
    after every failure, so that a part of the tree, or all of it, may be
    left; on a path that is missing or that is not a directory the call
    fails at once.  No failure is reported. *)
Definition rmtree_ignore_errors (system : OS) (path : Path) (fs : FileSystem)
  : FileSystem :=
  match stat path fs with
  | Some IsDir => filter (fun entry => ~ removed_by_rmtree system path fs (fst entry)) fs
  | Some IsFile | None => fs
  end.

(** A path as the caller writes it; [Path(p).absolute()] puts the working
    directory in front of a relative one. *)
Inductive PathLike : Type :=
  | AbsolutePath (parts : Path)
  | RelativePath (parts : Path).

Definition absolute (cwd : Path) (p : PathLike) : Path :=
  match p with
  | AbsolutePath parts => parts
  | RelativePath parts => cwd ++ parts
  end.

(** [str(path)] of an absolute path. *)
Definition Path_str (p : Path) : string := "/" ++ String.concat "/" p.

(** The errors of the operating system that making a directory can
    meet. *)
Module os.
Inductive error : Type := FileExistsError | NotADirectoryError.

Inductive result (A : Type) : Type :=
  | Done (a : A)
  | Failed (e : error).
Arguments Done {A} a.
Arguments Failed {A} e.
End os.

(** [path.mkdir(parents=True)] of the standard library, for the path
    [above ++ below] with the walk at [above]: the directories missing on
    the way are made, a regular file on the way makes the call fail with
    [NotADirectoryError], and a path that exists makes it fail with
    [FileExistsError]. *)
Fixpoint mkdir_parents (above : Path) (below : list string) (fs : FileSystem)
  : os.result FileSystem :=
  match below with
  | [] => os.Failed os.FileExistsError
  | name :: below' =>
      let path := above ++ [name] in
      match below' with
      | [] =>
          match fs !! path with
          | Some _ => os.Failed os.FileExistsError
          | None => os.Done (<[path := IsDir]> fs)
          end
      | _ :: _ =>
          match fs !! path with
          | Some IsFile => os.Failed os.NotADirectoryError
          | Some IsDir => mkdir_parents path below' fs
          | None => mkdir_parents path below' (<[path := IsDir]> fs)
          end
      end
  end.

(** ** Stores ([quixstreams.state.base]) *)

Inductive StoreClass : Type := RocksDBStore | MemoryStore | WindowedRocksDBStore.

(** What a caller may pass as [store_type]: one of the two supported
    classes, or anything else. *)
Inductive StoreType : Type :=
  | SupportedStore (c : StoreClass)
  | OtherStoreType (description : string).

(** [ChangelogProducerFactory(changelog_name=..., producer=...)], as the
    manager builds it. *)
Record ChangelogProducerFactory : Type := mk_factory {
  changelog_name : string;
  factory_producer : string
}.

(** Modelled from the spec: the [StorePartition] of
    [quixstreams.state.base], which is not among the sources: the unit of one
    partition of a store, with "at most one open transaction at a time". *)
Record StorePartition : Type := mk_partition {
  partition_number : Z;
  open_transaction : bool
}.

(** Modelled from the spec: the [Store] of [quixstreams.state.base] and its
    subclasses, which are not among the sources.  A store is "identified by
    (topic | null, store_name)" and "holds a mapping partition_id ->
    StorePartition"; [assign_partition] is "idempotent; returns the existing
    one if already assigned"; [revoke_partition] "closes the partition; fails
    with PartitionStoreIsUsed if an open transaction exists"; [partitions] is
    "the current set". *)
Module Store.
Record t : Type := mk {
  class : StoreClass;
  name : string;
  topic : option string;
  base_dir : option string;
  changelog_producer_factory : option ChangelogProducerFactory;
  options : option (list (string * string));
  partitions : PyDict.t Z StorePartition
}.

(** The constructors of the three classes, as the manager calls them. *)
Definition new_RocksDBStore (name : string) (topic : option string)
    (base_dir : string)
    (changelog_producer_factory : option ChangelogProducerFactory)
    (options : option (list (string * string))) : t :=
  {| class := RocksDBStore; name := name; topic := topic;
     base_dir := Some base_dir;
     changelog_producer_factory := changelog_producer_factory;
     options := options; partitions := [] |}.

Definition new_MemoryStore (name : string) (topic : option string)
    (changelog_producer_factory : option ChangelogProducerFactory) : t :=
  {| class := MemoryStore; name := name; topic := topic;
     base_dir := None;
     changelog_producer_factory := changelog_producer_factory;
     options := None; partitions := [] |}.

Definition new_WindowedRocksDBStore (name : string) (topic : option string)
    (base_dir : string)
    (changelog_producer_factory : option ChangelogProducerFactory)
    (options : option (list (string * string))) : t :=
  {| class := WindowedRocksDBStore; name := name; topic := topic;
     base_dir := Some base_dir;
     changelog_producer_factory := changelog_producer_factory;
     options := options; partitions := [] |}.

Definition set_partitions (ps : PyDict.t Z StorePartition) (self : t) : t :=
  {| class := class self; name := name self; topic := topic self;
     base_dir := base_dir self;
     changelog_producer_factory := changelog_producer_factory self;
     options := options self; partitions := ps |}.

(** What [assign_partition] does to the store and what it returns.  What
    the call leaves on the disk (a durable store keeps its partitions
    there) is not given here: the manager's model takes it as the
    parameter [opens] and applies it at every call. *)
Definition assign_partition (partition : Z) (self : t) : StorePartition * t :=
  match PyDict.get partition (partitions self) with
  | Some store_partition => (store_partition, self)
  | None =>
      let store_partition :=
        {| partition_number := partition; open_transaction := false |} in
      (store_partition,
       set_partitions (PyDict.set partition store_partition (partitions self)) self)
  end.

Definition revoke_partition (partition : Z) (self : t) : Result t :=
  match PyDict.get partition (partitions self) with
  | None => Ok self
  | Some store_partition =>
      if open_transaction store_partition then Raise PartitionStoreIsUsed
      else Ok (set_partitions (PyDict.delete partition (partitions self)) self)
  end.

(** Modelled from the spec: the truth value of a store object in
    [if store:]; [register_windowed_store] "rejects ... if a store by that
    name already exists on the topic", so a store that exists is true (a
    class that defines neither [__bool__] nor [__len__]). *)
Definition truth (self : t) : bool := true.
End Store.

(** ** [StateStoreManager] (state/manager.py) *)

Module StateStoreManager.

Definition DEFAULT_STATE_STORE_NAME : string := "default".

Record t : Type := mk {
  _state_dir : option Path;
  _rocksdb_options : option (list (string * string));
  _stores : PyDict.t (option string) (PyDict.t string Store.t);
  _producer : option string;
  _recovery_manager : option string;
  _default_store_type : StoreType
}.

(** The manager and the file system it works on. *)
Record World : Type := mk_world {
  self : t;
  fs : FileSystem
}.

(** Calls on the collaborators: the recovery manager and the stores. *)
Inductive Effect : Type :=
  | RegisterChangelog (topic_name : option string) (store_name : string)
      (topic_config : option TopicConfig)
  | StoreAssignPartition (topic : option string) (store_name : string)
      (partition : Z)
  | RecoveryAssignPartition (topic : option string) (partition : Z)
      (committed_offsets : PyDict.t string Z)
      (store_partitions : PyDict.t string StorePartition)
  | RecoveryRevokePartition (partition_num : Z)
  | StoreRevokePartition (topic : option string) (store_name : string)
      (partition : Z).

(** [__init__]: the state directory is made absolute and the group id, if
    given, becomes its last component (a group id is taken to be a single
    path component). *)
Definition __init__ (cwd : Path) (group_id : option string)
    (state_dir : option PathLike)
    (rocksdb_options : option (list (string * string)))
    (producer recovery_manager : option string)
    (default_store_type : StoreType) : t :=
  {| _state_dir :=
       match state_dir with
       | Some dir =>
           let dir := absolute cwd dir in
           match group_id with
           | Some group => Some (PurePath.joinpath dir group)
           | None => Some dir
           end
       | None => None
       end;
     _rocksdb_options := rocksdb_options;
     _stores := [];
     _producer := producer;
     _recovery_manager := recovery_manager;
     _default_store_type := default_store_type |}.

Definition set_stores
    (stores : PyDict.t (option string) (PyDict.t string Store.t)) (m : t) : t :=
  {| _state_dir := _state_dir m; _rocksdb_options := _rocksdb_options m;
     _stores := stores; _producer := _producer m;
     _recovery_manager := _recovery_manager m;
     _default_store_type := _default_store_type m |}.

(** [self._stores.get(topic, {})] *)
Definition topic_stores (topic : option string) (m : t) : PyDict.t string Store.t :=
  default [] (PyDict.get topic (_stores m)).

(** [self._stores.get(topic, {}).get(store_name)] *)
Definition lookup (topic : option string) (store_name : string) (m : t)
  : option Store.t :=
  PyDict.get store_name (topic_stores topic m).

(** [self._stores.setdefault(topic, {})[store_name] = store] *)
Definition put_store (topic : option string) (store_name : string)
    (store : Store.t) (m : t) : t :=
  set_stores
    (PyDict.set topic (PyDict.set store_name store (topic_stores topic m)) (_stores m))
    m.

Definition on_self (f : t -> t) (w : World) : World :=
  {| self := f (self w); fs := fs w |}.

Definition on_disk (f : FileSystem -> FileSystem) (w : World) : World :=
  {| self := self w; fs := f (fs w) |}.

(** [str(self._state_dir)]; [str(None)] is the string [None]. *)
Definition state_dir_str (m : t) : string :=
  match _state_dir m with
  | Some dir => Path_str dir
  | None => "None"
  end.

Section Methods.
(** The name the recovery manager gives the changelog topic of a store:
    "named deterministically from (group_id, store_name,
    source_topic)"; the recovery manager is not among the sources. *)
Variable changelog_topic_name : option string -> string -> string.

(** The operating system under [clear_stores]. *)
Variable system : OS.

(** What [assign_partition] of a store leaves on the disk.  The stores are
    not among the sources and the specification gives the place only,
    "on-disk state lives at <state_dir>/<group_id>/<store_name>/<partition>/"
    with files that are "backend-defined": the disk after the call is
    [opens store partition disk], for the store and the disk before it. *)
Variable opens : Store.t -> Z -> FileSystem -> FileSystem.

Definition get_store (topic : option string) (store_name : string)
  : M World Effect Store.t :=
  let* m := gets self in
  match lookup topic store_name m with
  | None => raise StoreNotRegisteredError
  | Some store => ret store
  end.

Definition _setup_changelogs (topic_name : option string) (store_name : string)
    (topic_config : option TopicConfig)
  : M World Effect (option ChangelogProducerFactory) :=
  let* m := gets self in
  match _recovery_manager m, _producer m with
  | Some _, Some producer =>
      emit (RegisterChangelog topic_name store_name topic_config);;
      ret (Some {| changelog_name := changelog_topic_name topic_name store_name;
                   factory_producer := producer |})
  | _, _ => ret None
  end.

Definition register_store (topic_name : option string) (store_name : string)
    (store_type : option StoreType) (topic_config : option TopicConfig)
  : M World Effect unit :=
  let* m := gets self in
  match lookup topic_name store_name m with
  | Some _ => ret tt
  | None =>
      let* changelog_producer_factory :=
        _setup_changelogs topic_name store_name topic_config in
      let store_type := default (_default_store_type m) store_type in
      match store_type with
      | SupportedStore RocksDBStore =>
          modify (on_self (put_store topic_name store_name
            (Store.new_RocksDBStore store_name topic_name (state_dir_str m)
               changelog_producer_factory (_rocksdb_options m))))
      | SupportedStore MemoryStore =>
          modify (on_self (put_store topic_name store_name
            (Store.new_MemoryStore store_name topic_name
               changelog_producer_factory)))
      | _ => raise ValueError
      end
  end.

Definition register_windowed_store (topic_name : option string)
    (store_name : string) : M World Effect unit :=
  let* m := gets self in
  match lookup topic_name store_name m with
  | Some store =>
      if Store.truth store then raise WindowedStoreAlreadyRegisteredError
      else ret tt
  | None => ret tt
  end;;
  let* changelog_producer_factory :=
    _setup_changelogs topic_name store_name None in
  modify (on_self (put_store topic_name store_name
    (Store.new_WindowedRocksDBStore store_name topic_name (state_dir_str m)
       changelog_producer_factory (_rocksdb_options m)))).

(** [any(store.partitions for topic_stores in ... for store in ...)] *)
Definition any_partitions (m : t) : bool :=
  existsb (fun topic_stores =>
             existsb (fun store =>
                        match Store.partitions store with [] => false | _ => true end)
               (PyDict.values topic_stores))
    (PyDict.values (_stores m)).

Definition clear_stores : M World Effect unit :=
  let* m := gets self in
  if any_partitions m then raise PartitionStoreIsUsed
  else
    match _state_dir m with
    | Some dir => modify (on_disk (rmtree_ignore_errors system dir))
    | None => ret tt
    end.

(** The loop of [on_partition_assign] over the items of the topic's
    dictionary; [store_partitions] is the dictionary being filled. *)
Fixpoint assign_each (topic : option string) (partition : Z)
    (items : list (string * Store.t))
    (store_partitions : PyDict.t string StorePartition)
  : M World Effect (PyDict.t string StorePartition) :=
  match items with
  | [] => ret store_partitions
  | (name, store) :: rest =>
      emit (StoreAssignPartition topic name partition);;
      let assigned := Store.assign_partition partition store in
      modify (on_disk (opens store partition));;
      modify (on_self (put_store topic name (snd assigned)));;
      assign_each topic partition rest
        (PyDict.set name (fst assigned) store_partitions)
  end.

Definition on_partition_assign (topic : option string) (partition : Z)
    (committed_offsets : PyDict.t string Z)
  : M World Effect (PyDict.t string StorePartition) :=
  let* m := gets self in
  let* store_partitions := assign_each topic partition (topic_stores topic m) [] in
  match _recovery_manager m, store_partitions with
  | Some _, _ :: _ =>
      emit (RecoveryAssignPartition topic partition committed_offsets store_partitions)
  | _, _ => ret tt
  end;;
  ret store_partitions.

(** The loop of [on_partition_revoke] over the stores of the topic. *)
Definition revoke_one (topic : option string) (partition : Z)
    (item : string * Store.t) : M World Effect unit :=
  emit (StoreRevokePartition topic (fst item) partition);;
  let* store := lift (Store.revoke_partition partition (snd item)) in
  modify (on_self (put_store topic (fst item) store)).

Definition on_partition_revoke (topic : option string) (partition : Z)
  : M World Effect unit :=
  let* m := gets self in
  match topic_stores topic m with
  | [] => ret tt
  | stores =>
      match _recovery_manager m with
      | Some _ => emit (RecoveryRevokePartition partition)
      | None => ret tt
      end;;
      for_each stores (revoke_one topic partition)
  end.

End Methods.

(** What [_setup_changelogs] returns and what it calls, read off the
    manager. *)
Definition changelog_factory (changelog_topic_name : option string -> string -> string)
    (topic_name : option string) (store_name : string) (m : t)
  : option ChangelogProducerFactory :=
  match _recovery_manager m, _producer m with
  | Some _, Some producer =>
      Some {| changelog_name := changelog_topic_name topic_name store_name;
              factory_producer := producer |}
  | _, _ => None
  end.

Definition changelog_calls (topic_name : option string) (store_name : string)
    (topic_config : option TopicConfig) (m : t) : list Effect :=
  match _recovery_manager m, _producer m with
  | Some _, Some _ => [RegisterChangelog topic_name store_name topic_config]
  | _, _ => []
  end.

(** Every dictionary of the registry has each of its keys once. *)
Definition wf (m : t) : Prop :=
  PyDict.wf (_stores m) /\
  Forall (fun entry => PyDict.wf (snd entry)) (_stores m).

(** Some registered store has a partition assigned. *)
Definition store_in_use (m : t) : Prop :=
  exists topic stores store_name store,
    (topic, stores) ∈ _stores m /\ (store_name, store) ∈ stores /\
    Store.partitions store <> [].

(** The dictionary [on_partition_assign] returns for the stores [stores]:
    under each name, the partition the store of that name returns. *)
Definition assigned (partition : Z) (stores : PyDict.t string Store.t)
  : PyDict.t string StorePartition :=
  map (fun item => (fst item, fst (Store.assign_partition partition (snd item))))
    stores.

Definition is_store_assign (e : Effect) : bool :=
  match e with StoreAssignPartition _ _ _ => true | _ => false end.

Definition is_store_revoke (e : Effect) : bool :=
  match e with StoreRevokePartition _ _ _ => true | _ => false end.

(** [_init_state_dir]: nothing without a state directory; a path taken by
    something that is not a directory is refused; a directory is left as it
    is; a missing one is made with its parents. *)
Definition _init_state_dir (w : World) : os.result World :=
  match _state_dir (self w) with
  | None => os.Done w
  | Some dir =>
      match stat dir (fs w) with
      | Some IsFile => os.Failed os.FileExistsError
      | Some IsDir => os.Done w
      | None =>
          match mkdir_parents [] dir (fs w) with
          | os.Done disk => os.Done {| self := self w; fs := disk |}
          | os.Failed e => os.Failed e
          end
      end
  end.

Definition init (w : World) : os.result World := _init_state_dir w.

(** [__enter__] returns the manager itself, initialised. *)
Definition __enter__ (w : World) : os.result World := init w.





End StateStoreManager.

(** ** A sample topic folder

    The folder of the class docstring, with a partition 10 added, listed by
    the file system in no particular order. *)
Module Sample.
Definition topic_a : Node :=
  Dir [ ("2", Dir [ ("0016.ext", File); ("0003.ext", File) ]);
        ("10", Dir [ ("0020.ext", File) ]);
        ("0", Dir [ ("0000.ext", File); ("0011.ext", File) ]) ].

Definition message (key : string) (timestamp : Z) : FileSource.record :=
  {| FileSource._key := key; FileSource._value := "{}";
     FileSource._timestamp := timestamp |}.

(** What the formatter reads from each file. *)
Definition file_read (file : Path) : list FileSource.record :=
  if decide (file = ["topic_a"; "0"; "0000.ext"]) then
    [message "a" 1000; message "b" 1500]
  else if decide (file = ["topic_a"; "0"; "0011.ext"]) then
    [message "c" 1400; message "d" 4000]
  else if decide (file = ["topic_a"; "10"; "0020.ext"]) then
    [message "e" 9000]
  else if decide (file = ["topic_a"; "2"; "0003.ext"]) then
    [message "f" 200; message "g" 450]
  else [].

Definition default_topic (self : FileSource.t) : Topic :=
  {| topic_name := FileSource.name self; config := None |}.

Definition source : FileSource.t :=
  FileSource.start (FileSource.__init__ ["topic_a"] true None 10).

(** The same source producing as fast as possible. *)
Definition plain_source : FileSource.t :=
  FileSource.start (FileSource.__init__ ["topic_a"] false None 10).

(** A topic folder that holds, beside partition 0, a folder that is not a
    partition. *)
Definition topic_with_stray_folder : Node :=
  Dir [ ("latest", Dir [ ("0020.ext", File) ]);
        ("0", Dir [ ("0000.ext", File); ("0011.ext", File) ]) ].

(** A folder of two topics, as in the class docstring, each with its
    partition 0, and what the formatter reads there. *)
Definition my_topics : Node :=
  Dir [ ("topic_a", Dir [ ("0", Dir [ ("0000.ext", File) ]) ]);
        ("topic_b", Dir [ ("0", Dir [ ("0000.ext", File) ]) ]) ].

Definition topics_file_read (file : Path) : list FileSource.record :=
  if decide (file = ["my_topics"; "topic_a"; "0"; "0000.ext"]) then
    [message "a" 1000]
  else if decide (file = ["my_topics"; "topic_b"; "0"; "0000.ext"]) then
    [message "b" 61000]
  else [].

Definition topics_source : FileSource.t :=
  FileSource.start (FileSource.__init__ ["my_topics"] true None 10).

(** A topic folder with the partition folders [01] and [1]. *)
Definition topic_01_1 : Node :=
  Dir [ ("01", Dir [ ("0000.ext", File) ]);
        ("1", Dir [ ("0000.ext", File) ]) ].

Definition file_read_01_1 (file : Path) : list FileSource.record :=
  if decide (file = ["topic_a"; "01"; "0000.ext"]) then [message "a" 1000]
  else if decide (file = ["topic_a"; "1"; "0000.ext"]) then [message "b" 31000]
  else [].

(** A formatter whose files are in the order of their timestamps. *)
Definition ordered_file_read (file : Path) : list FileSource.record :=
  if decide (file = ["topic_a"; "0"; "0000.ext"]) then
    [message "a" 1000; message "b" 1500]
  else if decide (file = ["topic_a"; "0"; "0011.ext"]) then
    [message "c" 1500; message "d" 4000]
  else if decide (file = ["topic_a"; "10"; "0020.ext"]) then
    [message "e" 9000]
  else if decide (file = ["topic_a"; "2"; "0003.ext"]) then
    [message "f" 200; message "g" 450]
  else [].

(** A manager for the group [alerts] with its state under [state], a
    recovery manager and a producer, and the disk it finds. *)
Definition changelog_topic_name (topic : option string) (store_name : string)
  : string :=
  "changelog__alerts--" ++ default "" topic ++ "--" ++ store_name.

Definition manager : StateStoreManager.t :=
  StateStoreManager.__init__ ["app"] (Some "alerts") (Some (RelativePath ["state"]))
    None (Some "producer") (Some "recovery")
    (SupportedStore RocksDBStore).

Definition disk : FileSystem :=
  list_to_map
    [ (["app"], IsDir);
      (["app"; "state"], IsDir);
      (["app"; "state"; "alerts"], IsDir);
      (["app"; "state"; "alerts"; "default"], IsDir);
      (["app"; "state"; "alerts"; "default"; "0"], IsDir);
      (["app"; "state"; "other"], IsDir) ].

Definition world : StateStoreManager.World :=
  {| StateStoreManager.self := manager; StateStoreManager.fs := disk |}.

(** An operating system that refuses nothing, and one under which the
    state directory of the group is a symbolic link to a directory, which
    [rmtree] cannot open. *)
Definition permissive : OS :=
  {| can_open := fun _ => true; can_remove := fun _ => true |}.

Definition linked : OS :=
  {| can_open := fun p => bool_decide (p <> ["app"; "state"; "alerts"]);
     can_remove := fun _ => true |}.

(** What the stores of the examples leave on the disk when a partition is
    assigned: the directory of the partition, below the directory of the
    store. *)
Definition opens (store : Store.t) (partition : Z) (disk : FileSystem)
  : FileSystem :=
  <[ ["app"; "state"; "alerts"; Store.name store; pretty partition] := IsDir ]>
    (<[ ["app"; "state"; "alerts"; Store.name store] := IsDir ]> disk).

(** The same manager where the path of the state directory is taken by a
    regular file. *)
Definition blocked_disk : FileSystem :=
  list_to_map
    [ (["app"], IsDir);
      (["app"; "state"], IsDir);
      (["app"; "state"; "alerts"], IsFile) ].

Definition blocked_world : StateStoreManager.World :=
  {| StateStoreManager.self := manager; StateStoreManager.fs := blocked_disk |}.

(** The manager after two stores were registered for the topic [orders]
    and one for [payments]. *)
Definition registered : StateStoreManager.World :=
  st (StateStoreManager.register_store changelog_topic_name
        (Some "payments") "default" (Some (SupportedStore MemoryStore)) None
     (st (StateStoreManager.register_windowed_store changelog_topic_name
            (Some "orders") "hopping_5000_1000"
     (st (StateStoreManager.register_store changelog_topic_name
            (Some "orders") "default" None None world))))).

(** The sample manager with three stores for [orders], each holding
    partition 0, while a transaction is open on the partition of the second
    one. *)
Definition holding (store_name : string) (in_transaction : bool) : Store.t :=
  Store.set_partitions
    [(0, {| partition_number := 0; open_transaction := in_transaction |})]
    (Store.new_MemoryStore store_name (Some "orders") None).

Definition in_transaction : StateStoreManager.World :=
  StateStoreManager.on_self
    (fun m =>
       StateStoreManager.put_store (Some "orders") "totals" (holding "totals" false)
         (StateStoreManager.put_store (Some "orders") "window" (holding "window" true)
            (StateStoreManager.put_store (Some "orders") "default"
               (holding "default" false) m)))
    world.
End Sample.

(** * Properties *)

(** ** The temperature generator stays within its probability tables *)

Section TemperatureBounds.
Import TemperatureGenerator.

Lemma draw_lt_true x a : random.draw_lt x a = true <-> (x < inject_Z a)%Q.
Proof.
  unfold random.draw_lt. rewrite negb_true_iff.
  destruct (Qle_bool (inject_Z a) x) eqn:E.
  - apply Qle_bool_iff in E. split; [discriminate | intros H; lra].
  - split; [intros _ | reflexivity].
    apply Qnot_le_lt. intros H. apply Qle_bool_iff in H. congruence.
Qed.

Lemma draw_lt_false x a : random.draw_lt x a = false <-> (inject_Z a <= x)%Q.
Proof.
  pose proof (draw_lt_true x a) as H.
  destruct (random.draw_lt x a).
  - split; [discriminate | intros Hle].
    assert (x < inject_Z a)%Q by (apply H; reflexivity). lra.
  - split; [intros _ | reflexivity].
    apply Qnot_lt_le. intros Hlt. apply H in Hlt. discriminate.
Qed.

Lemma inject_Z_lt a b : (inject_Z a < inject_Z b)%Q -> a < b.
Proof. intros H. rewrite Zlt_Qlt. exact H. Qed.

(** The rounds [bisect_right] allows its loop are enough: more change
    nothing. *)
Lemma bisect_loop_enough a x : forall fuel fuel' lo hi,
  (hi - lo <= fuel)%nat -> (hi - lo <= fuel')%nat ->
  random.bisect_loop fuel a x lo hi = random.bisect_loop fuel' a x lo hi.
Proof.
  induction fuel as [| fuel IH]; intros fuel' lo hi Hfuel Hfuel'.
  - destruct fuel' as [| fuel']; [reflexivity |]. cbn [random.bisect_loop].
    destruct (Nat.ltb_spec lo hi); [lia | reflexivity].
  - destruct fuel' as [| fuel'].
    + cbn [random.bisect_loop]. destruct (Nat.ltb_spec lo hi); [lia | reflexivity].
    + cbn [random.bisect_loop].
      destruct (Nat.ltb_spec lo hi) as [Hlt | _]; [| reflexivity].
      pose proof (Nat.div_mod_eq (lo + hi) 2) as Hdiv.
      pose proof (Nat.mod_upper_bound (lo + hi) 2 ltac:(lia)) as Hmod.
      destruct (a !! ((lo + hi) / 2)%nat); [| reflexivity].
      destruct (random.draw_lt x z); apply IH; lia.
Qed.

Lemma scaled_draw_range u total :
  random.unit_draw u -> 0 < total ->
  (0 <= u * inject_Z total)%Q /\ (u * inject_Z total < inject_Z total)%Q.
Proof.
  intros [H0 H1] Ht.
  assert (Hq : (0 < inject_Z total)%Q).
  { change 0%Q with (inject_Z 0). rewrite <- Zlt_Qlt. exact Ht. }
  split.
  - apply Qmult_le_0_compat; lra.
  - pose proof (Qmult_lt_compat_r u 1 (inject_Z total) Hq H1) as H.
    rewrite Qmult_1_l in H. exact H.
Qed.

(** A draw over three non-negative weights selects a change of positive
    weight. *)
Lemma choices_three a b c u :
  0 <= a -> 0 <= b -> 0 <= c -> 0 < a + b + c -> random.unit_draw u ->
  (random.choices [-1; 0; 1] [a; b; c] u = Ok (-1) /\ 0 < a) \/
  (random.choices [-1; 0; 1] [a; b; c] u = Ok 0 /\ 0 < b) \/
  (random.choices [-1; 0; 1] [a; b; c] u = Ok 1 /\ 0 < c).
Proof.
  intros Ha Hb Hc Ht Hu.
  destruct (scaled_draw_range u (a + b + c) Hu Ht) as [Hx0 Hx1].
  unfold random.choices, random.accumulate. cbn -[Z.add Qmult inject_Z].
  replace (0 + a + b + c) with (a + b + c) by lia.
  replace (0 + a + b) with (a + b) by lia. replace (0 + a) with a by lia.
  destruct (Z.leb_spec (a + b + c) 0) as [?|_]; [lia|].
  unfold random.bisect_right. cbn -[Z.add Qmult inject_Z].
  set (x := (u * inject_Z (a + b + c))%Q) in *.
  destruct (random.draw_lt x (a + b)) eqn:E1.
  - destruct (random.draw_lt x a) eqn:E2.
    + left. split; [reflexivity|].
      apply draw_lt_true in E2. apply inject_Z_lt.
      change (inject_Z 0) with 0%Q. lra.
    + right; left. split; [reflexivity|].
      apply draw_lt_true in E1. apply draw_lt_false in E2.
      assert (inject_Z a < inject_Z (a + b))%Q as H by lra.
      apply inject_Z_lt in H. lia.
  - right; right. split; [reflexivity|].
    apply draw_lt_false in E1.
    assert (inject_Z (a + b) < inject_Z (a + b + c))%Q as H by lra.
    apply inject_Z_lt in H. lia.
Qed.

Lemma machine_table machine_id :
  0 <= machine_id < 3 ->
  exists table, machine_types __init__ !! machine_id = Some table /\
    (table = probabilities_normal \/ table = probabilities_issue).
Proof.
  intros H.
  assert (machine_id = 0 \/ machine_id = 1 \/ machine_id = 2) as [-> | [-> | ->]] by lia.
  - exists probabilities_normal. split; [reflexivity | left; reflexivity].
  - exists probabilities_normal. split; [reflexivity | left; reflexivity].
  - exists probabilities_issue. split; [reflexivity | right; reflexivity].
Qed.

(** The row for a temperature from 40 to 99 exists in both tables; in the
    forties its weight for the change -1 is zero. *)
Lemma table_row table temp :
  table = probabilities_normal \/ table = probabilities_issue ->
  40 <= temp <= 99 ->
  exists a b c, table !! (temp / 10 * 10) = Some [a; b; c] /\
    0 <= a /\ 0 <= b /\ 0 <= c /\ 0 < a + b + c /\ (temp < 50 -> a = 0).
Proof.
  intros Htable Htemp.
  assert (temp / 10 = 4 \/ temp / 10 = 5 \/ temp / 10 = 6 \/
          temp / 10 = 7 \/ temp / 10 = 8 \/ temp / 10 = 9) as Hdiv
    by (Z.div_mod_to_equations; lia).
  assert (temp < 50 -> temp / 10 = 4) as Hforty
    by (Z.div_mod_to_equations; lia).
  destruct Htable as [-> | ->];
    destruct Hdiv as [E|[E|[E|[E|[E|E]]]]]; rewrite E;
    (eexists _, _, _; split; [reflexivity |]);
    repeat split; try lia; intros Hlt; apply Hforty in Hlt; lia.
Qed.

Lemma invariant_init : invariant __init__.
Proof.
  split.
  - reflexivity.
  - intros machine_id H.
    assert (machine_id = 0 \/ machine_id = 1 \/ machine_id = 2)
      as [-> | [-> | ->]] by lia; eexists; reflexivity.
  - intros machine_id temp H. cbn in H.
    repeat (apply lookup_insert_Some in H as [[_ <-] | [_ H]]; [lia |]).
    rewrite lookup_empty in H. discriminate.
  - intros _ machine_id temp H. cbn in H.
    repeat (apply lookup_insert_Some in H as [[_ <-] | [_ H]]; [lia |]).
    rewrite lookup_empty in H. discriminate.
  - discriminate.
Qed.

(** The object after a round that left [temp] on the machine
    [machine_id]: the count moves on and [stop()] is called at 100. *)
Lemma invariant_after_round machine_id temp self :
  invariant self -> running self = true ->
  0 <= machine_id < 3 -> 40 <= temp <= 100 ->
  invariant
    (let self2 := incr_event_count (set_machine_temp machine_id temp self) in
     if temp =? 100 then stop self2 else self2).
Proof.
  intros Hinv Hrun Hid Htemp.
  assert (Hnew : forall id t,
            <[machine_id := temp]> (machine_temps self) !! id = Some t ->
            (id = machine_id /\ t = temp) \/ machine_temps self !! id = Some t).
  { intros id t Ht. apply lookup_insert_Some in Ht as [[<- <-] | [_ Ht]]; auto. }
  destruct (Z.eqb_spec temp 100) as [E100 | N100]; cbn zeta; split; cbn.
  - apply (inv_types _ Hinv).
  - intros id Hin. destruct (decide (machine_id = id)) as [-> | Hne].
    + rewrite lookup_insert_eq. eauto.
    + rewrite lookup_insert_ne by exact Hne. apply (inv_ids _ Hinv _ Hin).
  - intros id t Ht. destruct (Hnew id t Ht) as [[_ ->] | Hold]; [lia |].
    apply (inv_range _ Hinv _ _ Hold).
  - discriminate.
  - intros _. exists machine_id. rewrite lookup_insert_eq, E100. reflexivity.
  - apply (inv_types _ Hinv).
  - intros id Hin. destruct (decide (machine_id = id)) as [-> | Hne].
    + rewrite lookup_insert_eq. eauto.
    + rewrite lookup_insert_ne by exact Hne. apply (inv_ids _ Hinv _ Hin).
  - intros id t Ht. destruct (Hnew id t Ht) as [[_ ->] | Hold]; [lia |].
    apply (inv_range _ Hinv _ _ Hold).
  - intros _ id t Ht. destruct (Hnew id t Ht) as [[_ ->] | Hold]; [lia |].
    apply (inv_running _ Hinv Hrun _ _ Hold).
  - intros Hstopped. congruence.
Qed.

(** One round of the loop on a running generator: [generate_event] returns,
    the invariant is kept, and [stop()] has been called exactly when the
    temperature it reports is 100. *)
Lemma generate_event_step u now self :
  invariant self -> running self = true -> random.unit_draw u ->
  exists ev self',
    generate_event u now self = Ok (ev, self') /\
    invariant self' /\
    40 <= Temperature_C ev <= 100 /\
    running self' = negb (Temperature_C ev =? 100) /\
    event_count self' = event_count self + 1.
Proof.
  intros Hinv Hrun Hu.
  pose proof (Z.mod_pos_bound (event_count self) 3 ltac:(lia)) as Hid.
  destruct (inv_ids _ Hinv _ Hid) as [temp Htemp].
  pose proof (inv_running _ Hinv Hrun _ _ Htemp) as Hrange.
  destruct (machine_table _ Hid) as (table & Htable & Hwhich).
  destruct (table_row table temp Hwhich Hrange)
    as (a & b & c & Hrow & Ha & Hb & Hc & Hsum & Hforty).
  assert (exists change,
    random.choices [-1; 0; 1] [a; b; c] u = Ok change /\
    40 <= temp + change <= 100) as (change & Hchoice & Hnew).
  { destruct (choices_three a b c u Ha Hb Hc Hsum Hu)
      as [[E Hpos] | [[E Hpos] | [E Hpos]]];
      eexists; (split; [exact E |]); lia. }
  unfold generate_event, update_machine_temp.
  rewrite Htemp, (inv_types _ Hinv), Htable, Hrow, Hchoice.
  cbn [machine_temps set_machine_temp]. rewrite lookup_insert_eq.
  eexists _, _. split; [reflexivity |].
  split; [apply invariant_after_round; assumption |].
  cbn [Temperature_C]. split; [exact Hnew |].
  destruct (temp + change =? 100); cbn; auto.
Qed.

Lemma run_from_invariant inputs self :
  invariant self ->
  Forall (fun i => random.unit_draw (fst i)) inputs ->
  exists evs self',
    run inputs self = Ok (evs, self') /\
    invariant self' /\
    Forall (fun ev => 40 <= Temperature_C ev <= 100) evs.
Proof.
  revert self. induction inputs as [| [u now] rest IH]; intros self Hinv Hdraws.
  - exists [], self. split; [reflexivity |]. split; [assumption | constructor].
  - cbn [run]. destruct (running self) eqn:Hrun.
    + apply Forall_cons in Hdraws as [Hu Hrest]. cbn in Hu.
      destruct (generate_event_step u now self Hinv Hrun Hu)
        as (ev & self1 & -> & Hinv1 & Hev & _ & _).
      destruct (IH self1 Hinv1 Hrest) as (evs & self2 & -> & Hinv2 & Hevs).
      exists (ev :: evs), self2. split; [reflexivity |].
      split; [assumption |]. constructor; assumption.
    + exists [], self. split; [reflexivity |]. split; [assumption | constructor].
Qed.

(** C10.  Starting from the initial temperatures 66, 58 and 62, however
    the random draws fall and however many rounds the loop of [run] has
    made, no round raises (the probability-table lookup always finds its
    key), every temperature of the object and every temperature reported
    lies between 40 and 100, the temperatures are at most 99 while the
    generator is still running, and the generator has stopped exactly when
    some temperature is 100. *)
Theorem temperature_stays_within_tables (inputs : list (Q * Z)) :
  Forall (fun i => random.unit_draw (fst i)) inputs ->
  exists evs self',
    run inputs __init__ = Ok (evs, self') /\
    temps_within 40 100 self' /\
    Forall (fun ev => 40 <= Temperature_C ev <= 100) evs /\
    (running self' = true -> temps_within 40 99 self') /\
    (running self' = false <->
       exists machine_id, machine_temps self' !! machine_id = Some 100).
Proof.
  intros Hdraws.
  destruct (run_from_invariant inputs __init__ invariant_init Hdraws)
    as (evs & self' & Hrun & Hinv & Hevs).
  exists evs, self'.
  split; [assumption |]. split; [apply (inv_range _ Hinv) |].
  split; [assumption |]. split; [apply (inv_running _ Hinv) |].
  split.
  - apply (inv_stopped _ Hinv).
  - intros (machine_id & H100).
    destruct (running self') eqn:Hr; [| reflexivity].
    apply (inv_running _ Hinv Hr) in H100. lia.
Qed.

Lemma temperature_stays_within_tables_witness :
  exists evs self',
    run [(1 # 2, 10); (0 # 1, 20); (99 # 100, 30)] __init__ = Ok (evs, self') /\
    temps_within 40 100 self' /\
    Forall (fun ev => 40 <= Temperature_C ev <= 100) evs /\
    (running self' = true -> temps_within 40 99 self') /\
    (running self' = false <->
       exists machine_id, machine_temps self' !! machine_id = Some 100).
Proof.
  apply (temperature_stays_within_tables
           [(1 # 2, 10); (0 # 1, 20); (99 # 100, 30)]).
  repeat constructor; cbn; unfold Qle, Qlt; cbn; lia.
Defined.

(** Three rounds: machine 0 keeps 66, machine 1 cools to 57, machine 2
    heats to 63. *)
Example tg_run_3 :
  option_map (fun r => map TemperatureGenerator.Temperature_C (fst r))
    (match TemperatureGenerator.run [(1#2, 10); (0#1, 20); (99#100, 30)]
             TemperatureGenerator.__init__ with Ok r => Some r | Raise _ => None end)
  = Some [66; 57; 63].
Proof. vm_compute. reflexivity. Qed.

End TemperatureBounds.

(** ** The order of names and the stable sort *)

Section NameOrder.

Lemma ltb_lt a b : String.ltb a b = true <-> String_as_OT.lt a b.
Proof.
  unfold String.ltb. rewrite <- String_as_OT.cmp_lt. unfold String_as_OT.cmp.
  destruct (String.compare a b); split; congruence.
Qed.

Lemma ltb_irrefl a : String.ltb a a = false.
Proof.
  destruct (String.ltb a a) eqn:E; [| reflexivity].
  apply ltb_lt in E. exfalso. eapply String_as_OT.lt_not_eq; [exact E | reflexivity].
Qed.

Lemma ltb_trans a b c :
  String.ltb a b = true -> String.ltb b c = true -> String.ltb a c = true.
Proof. rewrite !ltb_lt. apply String_as_OT.lt_trans. Qed.

Lemma ltb_asym a b : String.ltb a b = true -> String.ltb b a = false.
Proof.
  intros H. destruct (String.ltb b a) eqn:E; [| reflexivity].
  pose proof (ltb_trans _ _ _ H E) as Haa. rewrite ltb_irrefl in Haa. discriminate.
Qed.

Lemma ltb_total a b :
  String.ltb a b = false -> String.ltb b a = false -> a = b.
Proof.
  unfold String.ltb. rewrite (String.compare_antisym a b).
  destruct (String.compare b a) eqn:E; cbn; try discriminate.
  intros _ _. symmetry. apply String.compare_eq_iff. exact E.
Qed.

(** [a <= b], as the sort sees it: not [b < a]. *)
Lemma not_ltb_trans a b c :
  String.ltb b a = false -> String.ltb c b = false -> String.ltb c a = false.
Proof.
  intros Hab Hbc. destruct (String.ltb c a) eqn:Hca; [| reflexivity].
  destruct (String.ltb a b) eqn:Hlt.
  - pose proof (ltb_trans _ _ _ Hca Hlt) as H. congruence.
  - pose proof (ltb_total _ _ Hlt Hab) as ->. congruence.
Qed.

End NameOrder.

Lemma NoDup_map_Permutation {A B} (f : A -> B) l l' :
  l ≡ₚ l' -> NoDup (map f l) -> NoDup (map f l').
Proof.
  intros Hp. rewrite !NoDup_ListNoDup.
  apply Permutation_NoDup, Permutation_map, Hp.
Qed.

Section SortedFacts.
Context {A : Type} (key : A -> string).

Lemma insert_sorted_Permutation x l : insert_sorted key x l ≡ₚ x :: l.
Proof.
  induction l as [| y l IH]; cbn; [reflexivity |].
  destruct (String.ltb (key y) (key x)); [| reflexivity].
  rewrite IH. apply Permutation_swap.
Qed.

Lemma sorted_Permutation l : sorted key l ≡ₚ l.
Proof.
  induction l as [| x l IH]; cbn; [reflexivity |].
  rewrite insert_sorted_Permutation, IH. reflexivity.
Qed.

Lemma insert_sorted_StronglySorted x l :
  StronglySorted (key_le key) l -> StronglySorted (key_le key) (insert_sorted key x l).
Proof.
  induction 1 as [| y l Hl IH Hy]; cbn.
  - repeat constructor.
  - destruct (String.ltb (key y) (key x)) eqn:E.
    + constructor; [exact IH |].
      rewrite insert_sorted_Permutation. constructor; [| exact Hy].
      unfold key_le. apply ltb_asym. exact E.
    + constructor; [constructor; assumption |].
      constructor; [exact E |].
      eapply Forall_impl; [exact Hy |]. intros z Hz. unfold key_le in *.
      eapply not_ltb_trans; eassumption.
Qed.

Lemma sorted_StronglySorted l : StronglySorted (key_le key) (sorted key l).
Proof.
  induction l as [| x l IH]; cbn; [constructor |].
  apply insert_sorted_StronglySorted, IH.
Qed.

Lemma StronglySorted_strict l :
  NoDup (map key l) -> StronglySorted (key_le key) l -> StronglySorted (key_lt key) l.
Proof.
  intros Hnd Hs. induction Hs as [| x l Hl IH Hx]; [constructor |].
  cbn in Hnd. apply NoDup_cons in Hnd as [Hnotin Hnd].
  constructor; [apply IH, Hnd |].
  rewrite Forall_forall in Hx |- *. intros y Hy.
  specialize (Hx y Hy). unfold key_le, key_lt in *.
  destruct (String.ltb (key x) (key y)) eqn:E; [reflexivity |].
  exfalso. apply Hnotin. rewrite (ltb_total _ _ E Hx).
  apply list_elem_of_In, in_map, list_elem_of_In, Hy.
Qed.

Lemma sorted_strict l :
  NoDup (map key l) -> StronglySorted (key_lt key) (sorted key l).
Proof.
  intros Hnd. apply StronglySorted_strict; [| apply sorted_StronglySorted].
  eapply NoDup_map_Permutation; [| exact Hnd].
  symmetry. apply sorted_Permutation.
Qed.

(** With distinct keys the result does not depend on the order of the
    input. *)
Lemma sorted_order_irrelevant l l' :
  NoDup (map key l) -> l' ≡ₚ l -> sorted key l' = sorted key l.
Proof.
  intros Hnd Hp.
  apply (StronglySorted_unique_strong (key_lt key)).
  - intros x y _ _ Hxy Hyx. unfold key_lt in *.
    rewrite (ltb_asym _ _ Hxy) in Hyx. discriminate.
  - apply sorted_strict. eapply NoDup_map_Permutation; [| exact Hnd].
    symmetry. exact Hp.
  - apply sorted_strict, Hnd.
  - rewrite !sorted_Permutation. exact Hp.
Qed.

End SortedFacts.

Lemma sorted_map {A B} (keyA : A -> string) (keyB : B -> string) (g : A -> B) l :
  (forall a, keyB (g a) = keyA a) ->
  sorted keyB (map g l) = map g (sorted keyA l).
Proof.
  intros Hkey. induction l as [| x l IH]; cbn; [reflexivity |].
  rewrite IH. generalize (sorted keyA l) as s. intros s.
  induction s as [| y s IHs]; cbn; [reflexivity |].
  rewrite !Hkey. destruct (String.ltb (keyA y) (keyA x)); cbn; [rewrite IHs |]; reflexivity.
Qed.

(** ** [_file_finder] walks the tree in the order of the names *)

Section FileFinder.

(** The equation of the source: the entries of a directory are sorted by
    name and searched one after the other. *)
Lemma _file_finder_Dir filepath entries :
  _file_finder filepath (Dir entries)
  = flat_map (finder_entry filepath) (sorted fst entries).
Proof.
  cbn [_file_finder].
  rewrite (sorted_map fst fst
             (fun i => (fst i, _file_finder (PurePath.joinpath filepath (fst i)) (snd i))))
    by reflexivity.
  rewrite map_map, flat_map_concat_map. reflexivity.
Qed.

Lemma unique_names_Dir entries :
  unique_names (Dir entries) <->
  NoDup (map fst entries) /\ Forall (fun i => unique_names (snd i)) entries.
Proof.
  cbn [unique_names]. apply and_iff_compat_l.
  induction entries as [| i l IH]; cbn.
  - split; [constructor | trivial].
  - rewrite Forall_cons, IH. reflexivity.
Qed.

Lemma flat_map_Permutation_pointwise {A B} (f g : A -> list B) l :
  Forall (fun x => f x ≡ₚ g x) l -> flat_map f l ≡ₚ flat_map g l.
Proof.
  induction 1 as [| x l Hx _ IH]; cbn; [reflexivity |].
  rewrite Hx, IH. reflexivity.
Qed.

Lemma flat_map_ext_Forall {A B} (f g : A -> list B) l :
  Forall (fun x => f x = g x) l -> flat_map f l = flat_map g l.
Proof.
  induction 1 as [| x l Hx _ IH]; cbn; [reflexivity |].
  rewrite Hx, IH. reflexivity.
Qed.

Lemma file_finder_Permutation tree :
  forall filepath, _file_finder filepath tree ≡ₚ files_of filepath tree.
Proof.
  induction tree as [| entries IH] using Node_induction; intros filepath.
  - reflexivity.
  - rewrite _file_finder_Dir. cbn [files_of].
    rewrite (Permutation_flat_map _ (sorted_Permutation fst entries)).
    apply flat_map_Permutation_pointwise.
    eapply Forall_impl; [exact IH |]. intros i Hi. apply Hi.
Qed.

Lemma file_finder_below tree :
  forall filepath f, f ∈ _file_finder filepath tree -> exists s, f = filepath ++ s.
Proof.
  induction tree as [| entries IH] using Node_induction; intros filepath f Hf.
  - cbn in Hf. apply list_elem_of_singleton in Hf as ->.
    exists []. rewrite app_nil_r. reflexivity.
  - rewrite _file_finder_Dir in Hf.
    apply list_elem_of_In, in_flat_map in Hf as (i & Hi & Hf).
    apply list_elem_of_In in Hi, Hf. rewrite sorted_Permutation in Hi.
    rewrite Forall_forall in IH.
    destruct (IH i Hi _ _ Hf) as [s ->].
    exists (fst i :: s). unfold PurePath.joinpath. rewrite <- app_assoc. reflexivity.
Qed.

Lemma path_lt_app p x y : path_lt x y -> path_lt (p ++ x) (p ++ y).
Proof. intros H. induction p as [| a p IH]; cbn; [exact H | constructor; exact IH]. Qed.

Lemma flat_map_StronglySorted {A B} (R : relation A) (Q : relation B)
    (f : A -> list B) l :
  StronglySorted R l ->
  Forall (fun x => StronglySorted Q (f x)) l ->
  (forall x y, R x y -> forall a b, a ∈ f x -> b ∈ f y -> Q a b) ->
  StronglySorted Q (flat_map f l).
Proof.
  intros Hs Hf Hcross. induction Hs as [| x l Hl IH Hx]; cbn; [constructor |].
  apply Forall_cons in Hf as [Hfx Hfl].
  apply StronglySorted_app. split; [| split; [exact Hfx | apply IH, Hfl]].
  intros a b Ha Hb.
  apply list_elem_of_In, in_flat_map in Hb as (y & Hy & Hb).
  apply list_elem_of_In in Hy, Hb. rewrite Forall_forall in Hx.
  eapply Hcross; [apply Hx, Hy | exact Ha | exact Hb].
Qed.

Lemma file_finder_sorted tree :
  unique_names tree ->
  forall filepath, StronglySorted path_lt (_file_finder filepath tree).
Proof.
  induction tree as [| entries IH] using Node_induction; intros Huniq filepath.
  - cbn. repeat constructor.
  - apply unique_names_Dir in Huniq as [Hnd Hsub].
    rewrite _file_finder_Dir.
    apply (flat_map_StronglySorted (key_lt fst)).
    + apply sorted_strict, Hnd.
    + rewrite Forall_forall in IH, Hsub |- *. intros i Hi.
      rewrite sorted_Permutation in Hi. apply IH; auto.
    + intros i j Hij a b Ha Hb.
      apply file_finder_below in Ha as [s ->], Hb as [s' ->].
      unfold PurePath.joinpath. rewrite <- !app_assoc.
      apply path_lt_app. cbn. apply path_lt_head, Hij.
Qed.

Lemma file_finder_relisted reorder tree :
  (forall l, reorder l ≡ₚ l) ->
  unique_names tree ->
  forall filepath,
    _file_finder filepath (relisted reorder tree) = _file_finder filepath tree.
Proof.
  intros Hreorder.
  induction tree as [| entries IH] using Node_induction; intros Huniq filepath.
  - reflexivity.
  - apply unique_names_Dir in Huniq as [Hnd Hsub].
    cbn [relisted]. rewrite !_file_finder_Dir.
    set (g := fun i : string * Node => (fst i, relisted reorder (snd i))).
    assert (Hkeys : map fst (map g entries) = map fst entries)
      by (rewrite map_map; reflexivity).
    rewrite (sorted_order_irrelevant fst (map g entries))
      by (rewrite ?Hkeys; auto).
    rewrite (sorted_map fst fst g) by reflexivity.
    rewrite flat_map_concat_map, map_map, <- flat_map_concat_map.
    rewrite Forall_forall in IH, Hsub.
    apply flat_map_ext_Forall, Forall_forall.
    intros i Hi. rewrite sorted_Permutation in Hi.
    unfold finder_entry, g. cbn. apply IH; auto.
Qed.

(** C9.  In a tree whose directories hold each name once, [_file_finder]
    yields exactly the non-directory files of the tree, in the
    lexicographic order of their paths taken name by name (the depth-first
    walk that sorts the entries of every directory by name), and what it
    yields does not depend on the order in which the file system lists the
    entries. *)
Theorem file_finder_sorted_walk (filepath : Path) (tree : Node) :
  unique_names tree ->
  _file_finder filepath tree ≡ₚ files_of filepath tree /\
  StronglySorted path_lt (_file_finder filepath tree) /\
  (forall entries, tree = Dir entries ->
     _file_finder filepath tree
     = flat_map (finder_entry filepath) (sorted fst entries) /\
     StronglySorted (key_lt fst) (sorted fst entries)) /\
  (forall reorder, (forall l, reorder l ≡ₚ l) ->
     _file_finder filepath (relisted reorder tree) = _file_finder filepath tree).
Proof.
  intros Huniq. split; [apply file_finder_Permutation |].
  split; [apply file_finder_sorted, Huniq |].
  split.
  - intros entries ->. split; [apply _file_finder_Dir |].
    apply unique_names_Dir in Huniq as [Hnd _]. apply sorted_strict, Hnd.
  - intros reorder Hreorder. apply file_finder_relisted; assumption.
Qed.

Lemma file_finder_sorted_walk_witness :
  _file_finder ["topic_a"] Sample.topic_a ≡ₚ files_of ["topic_a"] Sample.topic_a /\
  StronglySorted path_lt (_file_finder ["topic_a"] Sample.topic_a) /\
  (forall entries, Sample.topic_a = Dir entries ->
     _file_finder ["topic_a"] Sample.topic_a
     = flat_map (finder_entry ["topic_a"]) (sorted fst entries) /\
     StronglySorted (key_lt fst) (sorted fst entries)) /\
  (forall reorder, (forall l, reorder l ≡ₚ l) ->
     _file_finder ["topic_a"] (relisted reorder Sample.topic_a)
     = _file_finder ["topic_a"] Sample.topic_a).
Proof.
  apply (file_finder_sorted_walk ["topic_a"] Sample.topic_a).
  cbn. repeat split; apply (bool_decide_unpack _); vm_compute; exact I.
Defined.

(** Partition folders are visited in the order of their names as strings:
    folder 10 comes before folder 2. *)
Example file_finder_10_before_2 :
  _file_finder ["topic_a"] Sample.topic_a
  = [ ["topic_a"; "0"; "0000.ext"]; ["topic_a"; "0"; "0011.ext"];
      ["topic_a"; "10"; "0020.ext"];
      ["topic_a"; "2"; "0003.ext"]; ["topic_a"; "2"; "0016.ext"] ].
Proof. reflexivity. Qed.

End FileFinder.

(** ** The file source: one pass, paced partition by partition *)

Section FileSourceRun.
Import FileSource.
Variable int : string -> Result Z.
Variable file_read : Path -> list record.

Lemma set_previous_timestamp_same self :
  set_previous_timestamp (_previous_timestamp self) self = self.
Proof. destruct self; reflexivity. Qed.

Lemma set_previous_timestamp_twice a b self :
  set_previous_timestamp a (set_previous_timestamp b self)
  = set_previous_timestamp a self.
Proof. reflexivity. Qed.

(** The difference of two timely timestamps divides without overflow. *)
Lemma div_1000_timely a b :
  timely a -> timely b ->
  float.div_1000 (a - b) = Ok (float.nearest ((a - b) # 1000)).
Proof.
  unfold timely, float.div_1000. intros Ha Hb.
  destruct (Z.ltb_spec (Z.abs (a - b)) (1000 * float.beyond)) as [_ | Hbig];
    [reflexivity |].
  exfalso.
  assert (Hfar : 18446744073709551616 < 1000 * float.beyond)
    by (vm_compute; reflexivity).
  lia.
Qed.

(** The code tests the float, the pause the difference. *)
Lemma positive_quotient diff :
  (if float.gt_zero (float.nearest (diff # 1000))
   then [Sleep (float.nearest (diff # 1000))] else []) = pause diff.
Proof.
  unfold pause, float.gt_zero. cbn [float.quotient].
  destruct (Qlt_le_dec 0 (diff # 1000)) as [H | H];
    unfold Qlt, Qle in H; cbn in H;
    destruct (Z.ltb_spec 0 diff); try reflexivity; lia.
Qed.

(** [_replay_delay] sleeps for the pause since the tracked timestamp, if
    there is one, and tracks the current timestamp. *)
Lemma _replay_delay_outcome current self :
  timely current -> timely_tracker self ->
  _replay_delay current self
  = mkOutcome (Ok tt) (set_previous_timestamp (Some current) self)
      (match _previous_timestamp self with
       | Some previous => pause (current - previous)
       | None => []
       end).
Proof.
  intros Hcurrent Htracker. unfold timely_tracker in Htracker.
  unfold _replay_delay, bind, gets, modify, lift. cbn [out st ev].
  destruct (_previous_timestamp self) as [previous |]; cbn [out st ev app];
    [| reflexivity].
  rewrite (div_1000_timely _ _ Hcurrent Htracker). cbn [out st ev app].
  rewrite <- positive_quotient.
  destruct (float.gt_zero (float.nearest (current - previous # 1000))); reflexivity.
Qed.

Lemma timely_tracked partition self :
  timely_tracker self -> timely_tracker (tracked partition self).
Proof.
  unfold tracked. destruct (decide _); [trivial | intros _; exact I].
Qed.

Lemma timely_last previous rs self :
  match previous with Some p => timely p | None => True end ->
  timely_records rs ->
  timely_tracker (set_previous_timestamp (last_timestamp previous rs) self).
Proof.
  unfold timely_tracker. cbn [_previous_timestamp set_previous_timestamp].
  intros Hprevious Hrs. destruct rs as [| r rs]; [exact Hprevious |].
  cbn [last_timestamp].
  assert (Hin : List.last rs r ∈ r :: rs).
  { clear. revert r. induction rs as [| r' rs IH]; intros r; [left |].
    destruct rs as [| r'' rs]; [right; left |].
    change (List.last (r' :: r'' :: rs) r) with (List.last (r'' :: rs) r).
    specialize (IH r). apply elem_of_cons in IH as [-> | IH];
      [left | right; right; exact IH]. }
  exact (proj1 (Forall_forall _ _) Hrs _ Hin).
Qed.

(** [_check_file_partition_number] clears the tracker exactly when the
    partition number of the file differs from the one tracked. *)
Lemma _check_file_partition_number_outcome file partition self :
  int (PurePath.name (PurePath.parent file)) = Ok partition ->
  _check_file_partition_number int file self
  = mkOutcome (Ok tt) (tracked partition self) [].
Proof.
  intros Hint. unfold tracked, _check_file_partition_number, bind, lift, gets, modify. cbn.
  rewrite Hint. cbn.
  destruct (decide (_previous_partition self = Some partition)); reflexivity.
Qed.

Lemma paced_from_cons previous r rs :
  paced_from previous (r :: rs)
  = match previous with
    | Some p => pause (_timestamp r - p)
    | None => []
    end ++ Produce r :: paced_from (Some (_timestamp r)) rs.
Proof. destruct previous; reflexivity. Qed.

Lemma last_shift {A} (l : list A) : forall a d, List.last (a :: l) d = List.last l a.
Proof.
  induction l as [| b l IH]; intros a d; [reflexivity |].
  change (List.last (a :: b :: l) d) with (List.last (b :: l) d).
  rewrite !IH. reflexivity.
Qed.

Lemma last_timestamp_cons previous r rs :
  last_timestamp previous (r :: rs) = last_timestamp (Some (_timestamp r)) rs.
Proof.
  destruct rs as [| r' rs]; [reflexivity |].
  cbn [last_timestamp]. rewrite last_shift. reflexivity.
Qed.

Lemma produce_record_replayed r self :
  _as_replay self = true ->
  timely (_timestamp r) -> timely_tracker self ->
  produce_record r self
  = mkOutcome (Ok tt) (set_previous_timestamp (Some (_timestamp r)) self)
      (match _previous_timestamp self with
       | Some previous => pause (_timestamp r - previous)
       | None => []
       end ++ [Produce r]).
Proof.
  intros Hreplay Hr Htracker. unfold produce_record, bind, gets, _produce, emit. cbn.
  rewrite Hreplay, _replay_delay_outcome by assumption. cbn. reflexivity.
Qed.

Lemma produce_record_plain r self :
  _as_replay self = false ->
  produce_record r self = mkOutcome (Ok tt) self [Produce r].
Proof.
  intros Hreplay. unfold produce_record, bind, gets, _produce, emit. cbn.
  rewrite Hreplay. reflexivity.
Qed.

(** The records of one file, replayed. *)
Lemma replay_records rs : forall self,
  _as_replay self = true ->
  timely_tracker self -> timely_records rs ->
  for_each rs produce_record self
  = mkOutcome (Ok tt)
      (set_previous_timestamp (last_timestamp (_previous_timestamp self) rs) self)
      (paced_from (_previous_timestamp self) rs).
Proof.
  induction rs as [| r rs IH]; intros self Hreplay Htracker Hrs.
  - cbn. rewrite set_previous_timestamp_same.
    destruct (_previous_timestamp self); reflexivity.
  - apply Forall_cons in Hrs as [Hr Hrs].
    cbn [for_each]. unfold bind.
    rewrite produce_record_replayed by assumption. cbn [out st ev].
    rewrite IH by (exact Hreplay || exact Hr || exact Hrs). cbn [out st ev].
    rewrite paced_from_cons, (last_timestamp_cons (_previous_timestamp self)).
    rewrite set_previous_timestamp_twice, <- app_assoc. reflexivity.
Qed.

(** The records of one file, produced without pacing. *)
Lemma plain_records rs : forall self,
  _as_replay self = false ->
  for_each rs produce_record self = mkOutcome (Ok tt) self (map Produce rs).
Proof.
  induction rs as [| r rs IH]; intros self Hreplay; [reflexivity |].
  cbn [for_each]. unfold bind.
  rewrite produce_record_plain by exact Hreplay. cbn [out st ev].
  rewrite IH by exact Hreplay. reflexivity.
Qed.

Lemma run_file_replayed file partition self :
  int (PurePath.name (PurePath.parent file)) = Ok partition ->
  _as_replay self = true ->
  timely_tracker self -> timely_records (file_read file) ->
  run_file int file_read file self
  = mkOutcome (Ok tt)
      (set_previous_timestamp
         (last_timestamp (_previous_timestamp (tracked partition self)) (file_read file))
         (tracked partition self))
      (paced_from (_previous_timestamp (tracked partition self)) (file_read file)
       ++ [Flush]).
Proof.
  intros Hint Hreplay Htracker Hrs. unfold run_file, bind.
  rewrite (_check_file_partition_number_outcome _ _ _ Hint). cbn [out st ev].
  rewrite replay_records;
    [reflexivity
    | unfold tracked; destruct (decide _); exact Hreplay
    | apply timely_tracked, Htracker
    | exact Hrs].
Qed.

Lemma run_file_plain file partition self :
  int (PurePath.name (PurePath.parent file)) = Ok partition ->
  _as_replay self = false ->
  run_file int file_read file self
  = mkOutcome (Ok tt) (tracked partition self)
      (map Produce (file_read file) ++ [Flush]).
Proof.
  intros Hint Hreplay. unfold run_file, bind.
  rewrite (_check_file_partition_number_outcome _ _ _ Hint). cbn [out st ev].
  rewrite plain_records
    by (unfold tracked; destruct (decide _); exact Hreplay).
  reflexivity.
Qed.

Lemma parses_partition file :
  parses int file ->
  int (PurePath.name (PurePath.parent file)) = Ok (partition_number int file).
Proof.
  unfold parses, partition_number.
  destruct (int (PurePath.name (PurePath.parent file))); [reflexivity | discriminate].
Qed.

Lemma pacing_pause diff : pacing (pause diff) = pause diff.
Proof. unfold pause. destruct (0 <? diff); reflexivity. Qed.

Lemma pacing_app evs evs' : pacing (evs ++ evs') = pacing evs ++ pacing evs'.
Proof. apply List.filter_app. Qed.

Lemma pacing_paced_after rs : forall previous,
  pacing (paced_after previous rs) = paced_after previous rs.
Proof.
  induction rs as [| r rs IH]; intros previous; [reflexivity |].
  cbn [paced_after]. rewrite pacing_app, pacing_pause.
  change (pacing (Produce r :: paced_after (_timestamp r) rs))
    with (Produce r :: pacing (paced_after (_timestamp r) rs)).
  rewrite IH. reflexivity.
Qed.

Lemma pacing_paced_from previous rs :
  pacing (paced_from previous rs) = paced_from previous rs.
Proof.
  destruct previous as [previous |]; cbn [paced_from].
  - apply pacing_paced_after.
  - destruct rs as [| r rs]; [reflexivity |]. cbn [paced].
    change (pacing (Produce r :: paced_after (_timestamp r) rs))
      with (Produce r :: pacing (paced_after (_timestamp r) rs)).
    rewrite pacing_paced_after. reflexivity.
Qed.

Lemma paced_from_app rs rs' : forall previous,
  paced_from previous (rs ++ rs')
  = paced_from previous rs ++ paced_from (last_timestamp previous rs) rs'.
Proof.
  induction rs as [| r rs IH]; intros previous.
  - cbn. destruct previous; reflexivity.
  - rewrite <- app_comm_cons, !paced_from_cons, IH, last_timestamp_cons.
    rewrite <- app_assoc. reflexivity.
Qed.

Lemma tracked_partition partition self :
  _previous_partition (tracked partition self) = Some partition.
Proof. unfold tracked. destruct (decide _) as [E | _]; [exact E | reflexivity]. Qed.

Lemma tracked_timestamp partition self :
  _previous_timestamp (tracked partition self)
  = if decide (_previous_partition self = Some partition)
    then _previous_timestamp self else None.
Proof. unfold tracked. destruct (decide _); reflexivity. Qed.

Lemma tracked_fields partition self :
  _as_replay (tracked partition self) = _as_replay self /\
  _running (tracked partition self) = _running self /\
  _filepath (tracked partition self) = _filepath self.
Proof. unfold tracked. destruct (decide _); repeat split. Qed.

#[local] Abbreviation tagged := (FileSource.tagged int file_read).

(** The files of a pass, replayed: the pacing is that of the stretches,
    the first of which continues the tracker if it is of its partition. *)
Lemma replay_files files : forall self,
  _as_replay self = true ->
  timely_tracker self ->
  Forall (fun file => timely_records (file_read file)) files ->
  Forall (parses int) files ->
  out (for_each files (run_file int file_read) self) = Ok tt /\
  pacing (ev (for_each files (run_file int file_read) self))
  = resumed (_previous_partition self) (_previous_timestamp self)
      (stretches (tagged files)).
Proof.
  induction files as [| file files IH]; intros self Hreplay Htracker Htimely Hparse.
  - split; reflexivity.
  - apply Forall_cons in Hparse as [Hfile Hfiles].
    apply Forall_cons in Htimely as [Hrs Htimely].
    cbn [for_each]. unfold bind.
    rewrite (run_file_replayed _ _ _ (parses_partition _ Hfile) Hreplay Htracker Hrs).
    cbn [out st ev].
    set (p := partition_number int file) in *.
    set (rs := file_read file) in *.
    set (self' := set_previous_timestamp _ (tracked p self)).
    assert (Hreplay' : _as_replay self' = true).
    { unfold self'. cbn. rewrite (proj1 (tracked_fields p self)). exact Hreplay. }
    assert (Htracker' : timely_tracker self').
    { unfold self'. apply timely_last; [| exact Hrs].
      exact (timely_tracked p self Htracker). }
    destruct (IH self' Hreplay' Htracker' Htimely Hfiles) as [Hout Hev].
    split; [exact Hout |].
    rewrite !pacing_app, pacing_paced_from, Hev.
    change (pacing [Flush]) with (@nil Effect). rewrite app_nil_r.
    assert (Hpp : _previous_partition self' = Some p)
      by (unfold self'; cbn; apply tracked_partition).
    assert (Hpt : _previous_timestamp self'
                  = last_timestamp (_previous_timestamp (tracked p self)) rs)
      by reflexivity.
    rewrite Hpp, Hpt, tracked_timestamp.
    change (tagged (file :: files)) with ((p, rs) :: tagged files).
    cbn [stretches].
    destruct (stretches (tagged files)) as [| [q rs'] more]; cbn [resumed].
    + cbn. rewrite !app_nil_r.
      destruct (decide (_previous_partition self = Some p)); reflexivity.
    + destruct (decide (p = q)) as [<- | Hne]; cbn [resumed flat_map snd].
      * destruct (decide (Some p = Some p)) as [_ | Hc]; [| congruence].
        destruct (decide (_previous_partition self = Some p)).
        -- rewrite paced_from_app, <- app_assoc. reflexivity.
        -- change (paced (rs ++ rs')) with (paced_from None (rs ++ rs')).
           rewrite paced_from_app, <- app_assoc. reflexivity.
      * destruct (decide (Some p = Some q)) as [Hc | _]; [congruence |].
        destruct (decide (_previous_partition self = Some p)); reflexivity.
Qed.

Lemma produced_app evs evs' : produced (evs ++ evs') = produced evs ++ produced evs'.
Proof. apply omap_app. Qed.

Lemma flushes_app evs evs' : flushes (evs ++ evs') = (flushes evs + flushes evs')%nat.
Proof. unfold flushes. rewrite List.filter_app, length_app. reflexivity. Qed.

Lemma produced_paced_after rs : forall previous,
  produced (paced_after previous rs) = rs /\ flushes (paced_after previous rs) = 0%nat.
Proof.
  induction rs as [| r rs IH]; intros previous; [split; reflexivity |].
  cbn [paced_after]. rewrite produced_app, flushes_app.
  destruct (IH (_timestamp r)) as [Hp Hf].
  change (produced (Produce r :: paced_after (_timestamp r) rs))
    with (r :: produced (paced_after (_timestamp r) rs)).
  change (flushes (Produce r :: paced_after (_timestamp r) rs))
    with (flushes (paced_after (_timestamp r) rs)).
  rewrite Hp, Hf. unfold pause. destruct (0 <? _); split; reflexivity.
Qed.

Lemma produced_paced_from previous rs :
  produced (paced_from previous rs) = rs /\ flushes (paced_from previous rs) = 0%nat.
Proof.
  destruct previous as [previous |]; cbn [paced_from].
  - apply produced_paced_after.
  - destruct rs as [| r rs]; [split; reflexivity |]. cbn [paced].
    destruct (produced_paced_after rs (_timestamp r)) as [Hp Hf].
    change (produced (Produce r :: paced_after (_timestamp r) rs))
      with (r :: produced (paced_after (_timestamp r) rs)).
    change (flushes (Produce r :: paced_after (_timestamp r) rs))
      with (flushes (paced_after (_timestamp r) rs)).
    rewrite Hp, Hf. split; reflexivity.
Qed.

Lemma produced_plain rs :
  produced (map Produce rs) = rs /\ flushes (map Produce rs) = 0%nat.
Proof.
  induction rs as [| r rs [Hp Hf]]; [split; reflexivity |].
  cbn [map].
  change (produced (Produce r :: map Produce rs)) with (r :: produced (map Produce rs)).
  change (flushes (Produce r :: map Produce rs)) with (flushes (map Produce rs)).
  rewrite Hp, Hf. split; reflexivity.
Qed.

Lemma unslept_app evs evs' : unslept (evs ++ evs') = unslept evs ++ unslept evs'.
Proof. apply List.filter_app. Qed.

Lemma unslept_pause diff : unslept (pause diff) = [].
Proof. unfold pause. destruct (0 <? diff); reflexivity. Qed.

Lemma unslept_paced_after rs : forall previous,
  unslept (paced_after previous rs) = map Produce rs.
Proof.
  induction rs as [| r rs IH]; intros previous; [reflexivity |].
  cbn [paced_after map]. rewrite unslept_app, unslept_pause.
  change (unslept (Produce r :: paced_after (_timestamp r) rs))
    with (Produce r :: unslept (paced_after (_timestamp r) rs)).
  rewrite IH. reflexivity.
Qed.

Lemma unslept_paced_from previous rs :
  unslept (paced_from previous rs) = map Produce rs.
Proof.
  destruct previous as [previous |]; cbn [paced_from].
  - apply unslept_paced_after.
  - destruct rs as [| r rs]; [reflexivity |]. cbn [paced map].
    change (unslept (Produce r :: paced_after (_timestamp r) rs))
      with (Produce r :: unslept (paced_after (_timestamp r) rs)).
    rewrite unslept_paced_after. reflexivity.
Qed.

Lemma unslept_plain rs : unslept (map Produce rs) = map Produce rs.
Proof. induction rs as [| r rs IH]; [reflexivity |]. cbn. f_equal. exact IH. Qed.

Lemma timed_tail self self' file files :
  timed file_read self (file :: files) ->
  _as_replay self' = _as_replay self ->
  (_as_replay self = true -> timely_tracker self') ->
  timed file_read self' files.
Proof.
  intros Htimed Hsame Htracker Hreplay. rewrite Hsame in Hreplay.
  destruct (Htimed Hreplay) as [_ Hall]. apply Forall_cons in Hall as [_ Hall].
  split; [apply Htracker, Hreplay | exact Hall].
Qed.

(** One file, paced or not: its records are produced once, in order, and
    followed by one flush; the flag [_running] is not touched. *)
Lemma run_file_records file files self :
  parses int file ->
  timed file_read self (file :: files) ->
  let r := run_file int file_read file self in
  out r = Ok tt /\ produced (ev r) = file_read file /\ flushes (ev r) = 1%nat /\
  _running (st r) = _running self /\ _as_replay (st r) = _as_replay self /\
  unslept (ev r) = unpaced file_read file /\
  timed file_read (st r) files.
Proof.
  intros Hfile Htimed. cbn zeta.
  destruct (tracked_fields (partition_number int file) self) as (Hr & Hrun & _).
  destruct (_as_replay self) eqn:Hreplay.
  - destruct (Htimed Hreplay) as [Htracker Hall].
    pose proof (proj1 (Forall_cons _ _ _) Hall) as [Hrs _].
    rewrite (run_file_replayed _ _ _ (parses_partition _ Hfile) Hreplay Htracker Hrs).
    cbn [out st ev]. rewrite produced_app, flushes_app, unslept_app.
    rewrite unslept_paced_from.
    destruct (produced_paced_from
                (_previous_timestamp (tracked (partition_number int file) self))
                (file_read file)) as [-> ->].
    cbn [set_previous_timestamp _running _as_replay].
    split; [reflexivity |]. split; [apply app_nil_r |]. split; [reflexivity |].
    split; [exact Hrun |]. split; [exact Hr |]. split; [reflexivity |].
    apply (timed_tail self _ file files); [exact Htimed | cbn; congruence |].
    intros _. apply timely_last; [| exact Hrs].
    exact (timely_tracked _ self Htracker).
  - rewrite (run_file_plain _ _ _ (parses_partition _ Hfile) Hreplay).
    cbn [out st ev]. rewrite produced_app, flushes_app, unslept_app, unslept_plain.
    destruct (produced_plain (file_read file)) as [-> ->].
    split; [reflexivity |]. split; [apply app_nil_r |]. split; [reflexivity |].
    split; [exact Hrun |]. split; [exact Hr |]. split; [reflexivity |].
    intros Hc. rewrite Hr in Hc. discriminate.
Qed.

Lemma run_files_records files : forall self,
  Forall (parses int) files ->
  timed file_read self files ->
  let r := for_each files (run_file int file_read) self in
  out r = Ok tt /\ produced (ev r) = flat_map file_read files /\
  flushes (ev r) = length files /\
  _running (st r) = _running self /\ _as_replay (st r) = _as_replay self /\
  unslept (ev r) = flat_map (unpaced file_read) files.
Proof.
  induction files as [| file files IH]; intros self Hparse Htimed; cbn zeta.
  - repeat split.
  - apply Forall_cons in Hparse as [Hfile Hfiles].
    cbn [for_each]. unfold bind.
    destruct (run_file_records file files self Hfile Htimed)
      as (Hout & Hp & Hf & Hrun & Hrep & Hu & Htimed').
    rewrite Hout.
    destruct (IH (st (run_file int file_read file self)) Hfiles Htimed')
      as (Hout' & Hp' & Hf' & Hrun' & Hrep' & Hu').
    cbn [out st ev].
    rewrite produced_app, flushes_app, unslept_app, Hp, Hp', Hf, Hf', Hu, Hu'.
    repeat split; congruence.
Qed.

(** The loop of [run] makes one round at most: its body ends in
    [return]. *)
Lemma run_unfold fuel tree self :
  run int file_read (S fuel) tree self
  = if _running self then
      let r := for_each (_file_finder (_filepath self) tree)
                 (run_file int file_read) self in
      mkOutcome (match out r with Ok _ => Ok (Some tt) | Raise e => Raise e end)
        (st r) (ev r)
    else mkOutcome (Ok (Some tt)) self [].
Proof.
  unfold run. cbn [while]. unfold bind, gets, ret. cbn [out st ev].
  destruct (_running self); [| reflexivity]. cbn [out st ev app].
  destruct (out (for_each _ _ self)); cbn [out st ev];
    rewrite ?app_nil_r; reflexivity.
Qed.

(** C2, as the code has it.  [run] makes a single pass and returns: with
    the flag [_running] set it goes through the files the finder yields
    once, in order, producing the records of a file in their order and then
    flushing, before it turns to the next file (sleeps apart, nothing else
    is done), and it returns with the flag still set; with the flag clear
    it returns at once.  The result is the same for any number of rounds
    allowed to the loop. *)
Theorem run_is_a_single_pass (fuel : nat) (tree : Node) (self : t) :
  Forall (parses int) (_file_finder (_filepath self) tree) ->
  timed file_read self (_file_finder (_filepath self) tree) ->
  let r := run int file_read (S fuel) tree self in
  out r = Ok (Some tt) /\
  _running (st r) = _running self /\
  unslept (ev r)
  = (if _running self
     then flat_map (unpaced file_read) (_file_finder (_filepath self) tree)
     else []) /\
  produced (ev r)
  = (if _running self
     then flat_map file_read (_file_finder (_filepath self) tree) else []) /\
  flushes (ev r)
  = (if _running self then length (_file_finder (_filepath self) tree) else 0%nat).
Proof.
  intros Hparse Htimed. cbn zeta. rewrite run_unfold.
  destruct (_running self) eqn:Hrun;
    [| cbn [out st ev]; rewrite ?Hrun; repeat split].
  destruct (run_files_records _ self Hparse Htimed) as (Hout & Hp & Hf & Hr & _ & Hu).
  cbn zeta. cbn [out st ev]. rewrite Hout, Hp, Hf, Hr, Hu, ?Hrun. repeat split.
Qed.

(** C7, as the code has it.  A source built with [as_replay=True] and
    started paces its records by partition number: the files that follow
    one another with the same partition number, the integer their folder
    name stands for, form a stretch, whether or not they lie in the same
    folder; the first record of a stretch is produced without delay, and
    every later record after a sleep of (current - previous) / 1000 seconds
    when that difference is positive, and without delay otherwise. *)
Theorem replay_paces_each_partition (fuel : nat) (tree : Node)
    (filepath : Path) (name : option string) (shutdown_timeout : Q) :
  let self := start (__init__ filepath true name shutdown_timeout) in
  let files := _file_finder filepath tree in
  Forall (parses int) files ->
  Forall (fun file => timely_records (file_read file)) files ->
  let r := run int file_read (S fuel) tree self in
  out r = Ok (Some tt) /\
  pacing (ev r) = flat_map (fun g => paced (snd g)) (stretches (tagged files)).
Proof.
  cbn zeta. intros Hparse Htimely. rewrite run_unfold.
  cbn [_running start _filepath __init__].
  destruct (replay_files _ (start (__init__ filepath true name shutdown_timeout))
              eq_refl I Htimely Hparse) as [Hout Hev].
  cbn zeta. cbn [out st ev]. cbn [_running start _filepath __init__] in Hout, Hev.
  rewrite Hout, Hev. split; [reflexivity |].
  cbn [_previous_partition _previous_timestamp start __init__].
  destruct (stretches _) as [| [p rs] more]; reflexivity.
Qed.

End FileSourceRun.

Section FileSourceTopic.
Import FileSource.
Variable super_default_topic : t -> Topic.

(** C8.  On a source whose path is a directory, [default_topic] returns
    the topic of the base class with its configuration replaced: as many
    partitions as the directory has entries, files and folders alike, and
    a replication factor of 1.  It leaves the source as it is.  (On a path
    that is not a directory the listing raises.) *)
Theorem default_topic_counts_entries (tree : Node) (self : t) :
  default_topic super_default_topic tree self
  = match tree with
    | Dir entries =>
        mkOutcome
          (Ok {| topic_name := topic_name (super_default_topic self);
                 config := Some {| num_partitions := Z.of_nat (length entries);
                                   replication_factor := 1 |} |})
          self []
    | File => mkOutcome (Raise NotADirectoryError) self []
    end.
Proof. destruct tree; reflexivity. Qed.

End FileSourceTopic.

Section FileSourceSample.
Import FileSource.

Lemma sample_parses :
  Forall (parses Decimal.int) (_file_finder ["topic_a"] Sample.topic_a).
Proof. repeat constructor. Qed.

Lemma sample_timely file : timely_records (Sample.file_read file).
Proof.
  unfold Sample.file_read, timely_records, timely.
  repeat case_decide; repeat (constructor; [cbn; lia |]); constructor.
Qed.

Lemma sample_timed :
  timed Sample.file_read Sample.source (_file_finder ["topic_a"] Sample.topic_a).
Proof.
  intros _. split; [exact I |]. apply Forall_forall. intros file _. apply sample_timely.
Qed.

Lemma run_is_a_single_pass_witness :
  let r := run Decimal.int Sample.file_read 1 Sample.topic_a Sample.source in
  out r = Ok (Some tt) /\
  _running (st r) = _running Sample.source /\
  unslept (ev r)
  = (if _running Sample.source
     then flat_map (unpaced Sample.file_read)
            (_file_finder (_filepath Sample.source) Sample.topic_a)
     else []) /\
  produced (ev r)
  = (if _running Sample.source
     then flat_map Sample.file_read (_file_finder (_filepath Sample.source) Sample.topic_a)
     else []) /\
  flushes (ev r)
  = (if _running Sample.source
     then length (_file_finder (_filepath Sample.source) Sample.topic_a) else 0%nat).
Proof.
  apply (run_is_a_single_pass Decimal.int Sample.file_read 0 Sample.topic_a Sample.source).
  - exact sample_parses.
  - exact sample_timed.
Defined.

(** The claim C2 as the specification words it fails: the sample source
    is running, [run] returns, and the source is still running. *)
Lemma run_returns_while_running :
  let r := run Decimal.int Sample.file_read 5 Sample.topic_a Sample.source in
  _running Sample.source = true /\
  out r = Ok (Some tt) /\
  _running (st r) = true /\
  length (produced (ev r)) = 7%nat.
Proof. vm_compute. repeat split. Qed.

Lemma replay_paces_each_partition_witness :
  let r := run Decimal.int Sample.file_read 1 Sample.topic_a Sample.source in
  out r = Ok (Some tt) /\
  pacing (ev r)
  = flat_map (fun g => paced (snd g))
      (stretches (tagged Decimal.int Sample.file_read
                    (_file_finder ["topic_a"] Sample.topic_a))).
Proof.
  apply (replay_paces_each_partition Decimal.int Sample.file_read 0
           Sample.topic_a ["topic_a"] None 10).
  - exact sample_parses.
  - apply Forall_forall. intros file _. apply sample_timely.
Defined.

(** The claim C7 as the specification words it fails: the two files lie
    in different partition folders, [topic_a/0] and [topic_b/0], the record
    [b] is the first of its folder, and it is produced after a sleep of 60
    seconds, the time since the last record of the other folder. *)
Lemma replay_delays_across_folders :
  let a := ["my_topics"; "topic_a"; "0"; "0000.ext"] in
  let b := ["my_topics"; "topic_b"; "0"; "0000.ext"] in
  let r := run Decimal.int Sample.topics_file_read 1 Sample.my_topics
             Sample.topics_source in
  _as_replay Sample.topics_source = true /\
  _file_finder ["my_topics"] Sample.my_topics = [a; b] /\
  PurePath.parent a <> PurePath.parent b /\
  Sample.topics_file_read a = [Sample.message "a" 1000] /\
  Sample.topics_file_read b = [Sample.message "b" 61000] /\
  out r = Ok (Some tt) /\
  ev r = [ Produce (Sample.message "a" 1000); Flush;
           Sleep (float.nearest (60000 # 1000));
           Produce (Sample.message "b" 61000); Flush ].
Proof. vm_compute. repeat split. discriminate. Qed.

(** The same between two folders of one topic whose names stand for the
    same number. *)
Example replay_delays_across_01_and_1 :
  ev (run Decimal.int Sample.file_read_01_1 1 Sample.topic_01_1 Sample.source)
  = [ Produce (Sample.message "a" 1000); Flush;
      Sleep (float.nearest (30000 # 1000));
      Produce (Sample.message "b" 31000); Flush ].
Proof. vm_compute. reflexivity. Qed.

(** The pacing of the sample: the two files of partition 0 form one
    stretch (no sleep before the out-of-order record), partitions 10 and 2
    start afresh. *)
Example sample_pacing :
  pacing (ev (run Decimal.int Sample.file_read 1 Sample.topic_a Sample.source))
  = [ Produce (Sample.message "a" 1000); Sleep (float.nearest (500 # 1000));
      Produce (Sample.message "b" 1500);
      Produce (Sample.message "c" 1400); Sleep (float.nearest (2600 # 1000));
      Produce (Sample.message "d" 4000);
      Produce (Sample.message "e" 9000);
      Produce (Sample.message "f" 200); Sleep (float.nearest (250 # 1000));
      Produce (Sample.message "g" 450) ].
Proof. vm_compute. reflexivity. Qed.

(** Timestamps too far apart for a float stop the replay with the
    [OverflowError] of the division, after the first record. *)
Example replay_overflows :
  let file_read :=
    fun _ : Path => [Sample.message "a" 0; Sample.message "b" (10 ^ 312)] in
  let r := run Decimal.int file_read 1 (Dir [ ("0", Dir [ ("0000.ext", File) ]) ])
             Sample.source in
  out r = Raise OverflowError /\ ev r = [Produce (Sample.message "a" 0)].
Proof. vm_compute. split; reflexivity. Qed.

(** A folder whose name is not a number stops the pass with the
    [ValueError] of [int], before anything is produced. *)
Example run_rejects_unnumbered_folder :
  let r := run Decimal.int Sample.file_read 1
             (Dir [ ("latest", Dir [ ("0000.ext", File) ]) ]) Sample.source in
  out r = Raise ValueError /\ ev r = [].
Proof. split; reflexivity. Qed.

Example decimal_int_samples :
  Decimal.int "10" = Ok 10 /\ Decimal.int "2" = Ok 2 /\
  Decimal.int "-3" = Ok (-3) /\ Decimal.int "latest" = Raise ValueError /\
  Decimal.int "" = Raise ValueError.
Proof. repeat split. Qed.

(** The sample folder has three entries, so the topic gets three
    partitions. *)
Example sample_default_topic :
  out (default_topic Sample.default_topic Sample.topic_a Sample.source)
  = Ok {| topic_name := "topic_a";
          config := Some {| num_partitions := 3; replication_factor := 1 |} |}.
Proof. reflexivity. Qed.

End FileSourceSample.

(** ** Insertion-ordered dictionaries: lookups after updates *)

Section PyDictFacts.
Context {K V : Type} `{EqDecision K}.
Implicit Types d : PyDict.t K V.

Lemma get_set_eq k v d : PyDict.get k (PyDict.set k v d) = Some v.
Proof.
  induction d as [| [k' v'] d IH]; cbn.
  - rewrite decide_True by reflexivity. reflexivity.
  - destruct (decide (k = k')) as [-> | Hne]; cbn.
    + rewrite decide_True by reflexivity. reflexivity.
    + rewrite decide_False by exact Hne. exact IH.
Qed.

Lemma get_set_ne k k' v d :
  k <> k' -> PyDict.get k' (PyDict.set k v d) = PyDict.get k' d.
Proof.
  intros Hne. induction d as [| [k0 v0] d IH]; cbn.
  - rewrite decide_False by congruence. reflexivity.
  - destruct (decide (k = k0)) as [-> | Hne0]; cbn.
    + rewrite !decide_False by congruence. reflexivity.
    + rewrite IH. reflexivity.
Qed.

Lemma get_None_keys k d : PyDict.get k d = None <-> k ∉ PyDict.keys d.
Proof.
  unfold PyDict.keys. induction d as [| [k' v'] d IH]; cbn.
  - split; [intros _; apply not_elem_of_nil | reflexivity].
  - rewrite not_elem_of_cons. destruct (decide (k = k')) as [-> | Hne].
    + split; [discriminate | intros [Hc _]; congruence].
    + rewrite IH. tauto.
Qed.

Lemma get_Some_keys k v d : PyDict.get k d = Some v -> k ∈ PyDict.keys d.
Proof.
  intros Hget. destruct (decide (k ∈ PyDict.keys d)) as [Hin | Hnotin]; [exact Hin |].
  apply get_None_keys in Hnotin. congruence.
Qed.

Lemma keys_set_present k v d :
  is_Some (PyDict.get k d) -> PyDict.keys (PyDict.set k v d) = PyDict.keys d.
Proof.
  unfold PyDict.keys. induction d as [| [k' v'] d IH]; cbn; intros Hsome.
  - destruct Hsome as [? Hc]. discriminate.
  - destruct (decide (k = k')) as [-> | Hne]; cbn; [reflexivity |].
    rewrite IH by exact Hsome. reflexivity.
Qed.

Lemma keys_set_absent k v d :
  PyDict.get k d = None -> PyDict.keys (PyDict.set k v d) = PyDict.keys d ++ [k].
Proof.
  unfold PyDict.keys. induction d as [| [k' v'] d IH]; cbn; intros Hnone; [reflexivity |].
  destruct (decide (k = k')) as [-> | Hne]; [discriminate |].
  cbn. rewrite IH by exact Hnone. reflexivity.
Qed.

Lemma wf_set k v d : PyDict.wf d -> PyDict.wf (PyDict.set k v d).
Proof.
  unfold PyDict.wf. intros Hwf.
  destruct (PyDict.get k d) as [v0 |] eqn:Hget.
  - rewrite keys_set_present by eauto. exact Hwf.
  - rewrite keys_set_absent by exact Hget.
    apply NoDup_app. split; [exact Hwf |]. split; [| apply NoDup_singleton].
    intros k' Hin Hk'. apply list_elem_of_singleton in Hk' as ->.
    apply get_None_keys in Hget. contradiction.
Qed.

(** In a dictionary with each key once, an item of the listing is what
    [get] finds. *)
Lemma wf_get_item k v d : PyDict.wf d -> (k, v) ∈ d -> PyDict.get k d = Some v.
Proof.
  unfold PyDict.wf, PyDict.keys. induction d as [| [k' v'] d IH]; cbn; intros Hwf Hin.
  - apply elem_of_nil in Hin. contradiction.
  - apply NoDup_cons in Hwf as [Hnotin Hwf].
    apply elem_of_cons in Hin as [Heq | Hin].
    + inversion Heq; subst. rewrite decide_True by reflexivity. reflexivity.
    + destruct (decide (k = k')) as [-> | Hne]; [| apply IH; assumption].
      exfalso. apply Hnotin. apply list_elem_of_In.
      apply list_elem_of_In in Hin. apply (in_map fst) in Hin. exact Hin.
Qed.

Lemma set_absent k v d : PyDict.get k d = None -> PyDict.set k v d = d ++ [(k, v)].
Proof.
  induction d as [| [k' v'] d IH]; cbn; intros Hnone; [reflexivity |].
  destruct (decide (k = k')) as [-> | Hne]; [discriminate |].
  rewrite IH by exact Hnone. reflexivity.
Qed.

Lemma get_app_absent k d d' :
  PyDict.get k d = None -> PyDict.get k (d ++ d') = PyDict.get k d'.
Proof.
  induction d as [| [k' v'] d IH]; cbn; intros Hnone; [reflexivity |].
  destruct (decide (k = k')); [discriminate | apply IH, Hnone].
Qed.

End PyDictFacts.

(** ** The registry of the state store manager *)

Section Registry.
Import StateStoreManager.
Variable changelog_topic_name : option string -> string -> string.

Lemma topic_stores_put_eq topic store_name store m :
  topic_stores topic (put_store topic store_name store m)
  = PyDict.set store_name store (topic_stores topic m).
Proof. unfold topic_stores at 1, put_store. cbn. rewrite get_set_eq. reflexivity. Qed.

Lemma topic_stores_put_ne topic topic' store_name store m :
  topic <> topic' ->
  topic_stores topic' (put_store topic store_name store m) = topic_stores topic' m.
Proof.
  intros Hne. unfold topic_stores, put_store. cbn.
  rewrite get_set_ne by exact Hne. reflexivity.
Qed.

Lemma lookup_put_eq topic store_name store m :
  lookup topic store_name (put_store topic store_name store m) = Some store.
Proof. unfold lookup. rewrite topic_stores_put_eq. apply get_set_eq. Qed.

Lemma lookup_put_ne topic store_name store topic' store_name' m :
  (topic, store_name) <> (topic', store_name') ->
  lookup topic' store_name' (put_store topic store_name store m)
  = lookup topic' store_name' m.
Proof.
  intros Hne. unfold lookup.
  destruct (decide (topic = topic')) as [<- | Htopic].
  - rewrite topic_stores_put_eq. apply get_set_ne. congruence.
  - rewrite topic_stores_put_ne by exact Htopic. reflexivity.
Qed.

(** [_setup_changelogs] leaves the manager and the disk as they are; it
    calls the recovery manager when one is configured with a producer. *)
Lemma _setup_changelogs_outcome topic_name store_name topic_config w :
  _setup_changelogs changelog_topic_name topic_name store_name topic_config w
  = mkOutcome
      (Ok (changelog_factory changelog_topic_name topic_name store_name (self w)))
      w (changelog_calls topic_name store_name topic_config (self w)).
Proof.
  unfold _setup_changelogs, changelog_factory, changelog_calls, bind, gets, emit, ret.
  cbn. destruct (_recovery_manager (self w)), (_producer (self w)); reflexivity.
Qed.

(** A pair that is registered is left alone, whatever the parameters. *)
Lemma register_store_registered topic_name store_name store_type topic_config w :
  is_Some (lookup topic_name store_name (self w)) ->
  register_store changelog_topic_name topic_name store_name store_type topic_config w
  = mkOutcome (Ok tt) w [].
Proof.
  intros [store Hstore]. unfold register_store, bind, gets. cbn.
  rewrite Hstore. reflexivity.
Qed.

(** A pair that is not registered: the changelog is set up, then the
    store type is looked at. *)
Lemma register_store_fresh topic_name store_name store_type topic_config w :
  lookup topic_name store_name (self w) = None ->
  register_store changelog_topic_name topic_name store_name store_type topic_config w
  = let factory :=
      changelog_factory changelog_topic_name topic_name store_name (self w) in
    let calls := changelog_calls topic_name store_name topic_config (self w) in
    match default (_default_store_type (self w)) store_type with
    | SupportedStore RocksDBStore =>
        mkOutcome (Ok tt)
          (on_self (put_store topic_name store_name
             (Store.new_RocksDBStore store_name topic_name (state_dir_str (self w))
                factory (_rocksdb_options (self w)))) w)
          calls
    | SupportedStore MemoryStore =>
        mkOutcome (Ok tt)
          (on_self (put_store topic_name store_name
             (Store.new_MemoryStore store_name topic_name factory)) w)
          calls
    | _ => mkOutcome (Raise ValueError) w calls
    end.
Proof.
  intros Hlookup. unfold register_store, bind, gets. cbn [out st ev].
  rewrite Hlookup, _setup_changelogs_outcome. cbn [out st ev].
  destruct (default (_default_store_type (self w)) store_type) as [[| |] | ?];
    unfold modify, raise; cbn [out st ev]; rewrite app_nil_r; reflexivity.
Qed.

(** After a call that returns, the pair is registered. *)
Lemma register_store_registers topic_name store_name store_type topic_config w :
  out (register_store changelog_topic_name topic_name store_name store_type
         topic_config w) = Ok tt ->
  is_Some (lookup topic_name store_name
             (self (st (register_store changelog_topic_name topic_name store_name
                          store_type topic_config w)))).
Proof.
  destruct (lookup topic_name store_name (self w)) as [store |] eqn:Hlookup.
  - rewrite register_store_registered by eauto. cbn. rewrite Hlookup. eauto.
  - rewrite register_store_fresh by exact Hlookup. cbn zeta.
    destruct (default (_default_store_type (self w)) store_type) as [[| |] | ?];
      cbn [out st ev on_self self]; try discriminate;
      intros _; rewrite lookup_put_eq; eauto.
Qed.

(** C1, as the code has it.  After a call of [register_store] for a pair
    (topic, store name) has returned, every further call for that pair
    returns without changing the manager or the disk and without calling
    any collaborator, whether its store type and topic configuration are
    those of the first call or others. *)
Theorem register_store_again_changes_nothing
    (topic_name : option string) (store_name : string)
    (store_type store_type' : option StoreType)
    (topic_config topic_config' : option TopicConfig) (w : World) :
  let first := register_store changelog_topic_name topic_name store_name
                 store_type topic_config w in
  out first = Ok tt ->
  register_store changelog_topic_name topic_name store_name store_type'
    topic_config' (st first)
  = mkOutcome (Ok tt) (st first) [].
Proof.
  cbn zeta. intros Hfirst.
  apply register_store_registered, register_store_registers, Hfirst.
Qed.

(** C5.  [register_windowed_store] raises
    [WindowedStoreAlreadyRegisteredError], changing nothing, whenever a
    store of any class is registered under the topic and name; otherwise
    it returns and a windowed store with no partitions is registered under
    that pair, every other registration being as before. *)
Theorem register_windowed_store_rejects_taken_name
    (topic_name : option string) (store_name : string) (w : World) :
  let r := register_windowed_store changelog_topic_name topic_name store_name w in
  match lookup topic_name store_name (self w) with
  | Some _ => r = mkOutcome (Raise WindowedStoreAlreadyRegisteredError) w []
  | None =>
      out r = Ok tt /\
      (exists store,
         lookup topic_name store_name (self (st r)) = Some store /\
         Store.class store = WindowedRocksDBStore /\
         Store.name store = store_name /\
         Store.topic store = topic_name /\
         Store.partitions store = []) /\
      (forall topic' store_name',
         (topic_name, store_name) <> (topic', store_name') ->
         lookup topic' store_name' (self (st r))
         = lookup topic' store_name' (self w)) /\
      fs (st r) = fs w
  end.
Proof.
  cbn zeta.
  destruct (lookup topic_name store_name (self w)) as [store |] eqn:Hlookup.
  - unfold register_windowed_store, bind, gets. cbn [out st ev].
    rewrite Hlookup. reflexivity.
  - unfold register_windowed_store, bind, gets. cbn [out st ev].
    rewrite Hlookup. cbn [ret out st ev].
    rewrite _setup_changelogs_outcome. cbn [out st ev].
    unfold modify, on_self. cbn [out st ev self fs].
    split; [reflexivity |].
    split; [eexists; split; [apply lookup_put_eq | repeat split] |].
    split; [| reflexivity]. intros topic' store_name' Hne.
    apply lookup_put_ne, Hne.
Qed.

End Registry.

(** ** Clearing the stores *)

Section ClearStores.
Import StateStoreManager.
Variable system : OS.

Lemma any_partitions_in_use m : any_partitions m = true <-> store_in_use m.
Proof.
  unfold any_partitions, store_in_use, PyDict.values.
  rewrite existsb_exists. split.
  - intros (stores & Hstores & Hany).
    apply existsb_exists in Hany as (store & Hstore & Hparts).
    apply in_map_iff in Hstores as ([topic stores'] & <- & Hin).
    apply in_map_iff in Hstore as ([store_name store'] & <- & Hin').
    exists topic, stores', store_name, store'. cbn in *.
    repeat split; try (apply list_elem_of_In; assumption).
    destruct (Store.partitions store'); [discriminate | congruence].
  - intros (topic & stores & store_name & store & Hin & Hin' & Hparts).
    exists stores. split.
    + apply in_map_iff. exists (topic, stores). split; [reflexivity |].
      apply list_elem_of_In, Hin.
    + apply existsb_exists. exists store. split.
      * apply in_map_iff. exists (store_name, store). split; [reflexivity |].
        apply list_elem_of_In, Hin'.
      * destruct (Store.partitions store); [congruence | reflexivity].
Qed.

Lemma rmtree_outside (dir : Path) (disk : FileSystem) (p : Path) :
  ~ dir `prefix_of` p -> rmtree_ignore_errors system dir disk !! p = disk !! p.
Proof.
  intros Hout. unfold rmtree_ignore_errors.
  destruct (stat dir disk) as [[|] |]; try reflexivity.
  destruct (disk !! p) as [kind |] eqn:Hp.
  - apply map_lookup_filter_Some. split; [exact Hp |].
    cbn. intros (Hprefix & _). contradiction.
  - apply map_lookup_filter_None. left. exact Hp.
Qed.

Lemma rmtree_subset (dir : Path) (disk : FileSystem) (p : Path) kind :
  rmtree_ignore_errors system dir disk !! p = Some kind -> disk !! p = Some kind.
Proof.
  unfold rmtree_ignore_errors. destruct (stat dir disk) as [[|] |]; try trivial.
  intros Hp. apply map_lookup_filter_Some in Hp as [Hp _]. exact Hp.
Qed.

Lemma rmtree_not_a_directory (dir : Path) (disk : FileSystem) :
  stat dir disk <> Some IsDir -> rmtree_ignore_errors system dir disk = disk.
Proof.
  unfold rmtree_ignore_errors. destruct (stat dir disk) as [[|] |]; congruence.
Qed.

Lemma prefix_take (dir p : Path) (k : nat) :
  dir `prefix_of` p -> (length dir <= k)%nat -> dir `prefix_of` take k p.
Proof.
  intros [rest ->] Hk. rewrite take_app_ge by exact Hk.
  apply prefix_app_r. reflexivity.
Qed.

(** When the operating system refuses nothing at or below a directory, the
    directory goes with all that is below it. *)
Lemma rmtree_permitted (dir : Path) (disk : FileSystem) :
  stat dir disk = Some IsDir ->
  (forall q, dir `prefix_of` q -> can_open system q = true /\ can_remove system q = true) ->
  forall p, dir `prefix_of` p -> rmtree_ignore_errors system dir disk !! p = None.
Proof.
  intros Hstat Hall p Hp. unfold rmtree_ignore_errors. rewrite Hstat.
  apply map_lookup_filter_None. right. intros kind _ Hkeep. apply Hkeep. cbn.
  split; [exact Hp |]. split.
  - unfold opens_down. apply forallb_forall. intros k Hk. apply in_seq in Hk.
    apply Hall, prefix_take; [exact Hp | lia].
  - intros q kind' _ Hq. unfold can_go.
    destruct (Hall q) as [Hopen Hremove]; [etransitivity; eassumption |].
    rewrite Hremove, Hopen. destruct kind'; reflexivity.
Qed.

(** The state directory is the given directory made absolute, followed by
    the group id when there is one. *)
Lemma state_dir_of_init (cwd : Path) group_id dir options producer recovery_manager
    store_type :
  _state_dir (__init__ cwd group_id (Some dir) options producer recovery_manager
                store_type)
  = Some (absolute cwd dir ++ match group_id with Some group => [group] | None => [] end).
Proof. destruct group_id; cbn; [reflexivity | rewrite app_nil_r; reflexivity]. Qed.

(** C3, as the code has it.  If some registered store has a partition
    assigned, [clear_stores] raises [PartitionStoreIsUsed] and leaves the
    manager and the disk as they are.  Otherwise it returns with the manager
    unchanged, whatever the removal met: on the disk it only removes, and
    only at or below the state directory; nothing else is touched and
    nothing is made or altered.  Failures of the removal are ignored, so
    the state directory is sure to be gone, with all that is below it, only
    when it is a directory and the operating system refuses no step of the
    removal; a path that is missing, or taken by something other than a
    directory, leaves the disk as it is, and so does a manager without state
    directory. *)
Theorem clear_stores_guarded_removal (w : World) :
  let r := clear_stores system w in
  if any_partitions (self w) then
    r = mkOutcome (Raise PartitionStoreIsUsed) w []
  else
    out r = Ok tt /\ ev r = [] /\ self (st r) = self w /\
    match _state_dir (self w) with
    | None => fs (st r) = fs w
    | Some dir =>
        (forall p, ~ dir `prefix_of` p -> fs (st r) !! p = fs w !! p) /\
        (forall p kind, fs (st r) !! p = Some kind -> fs w !! p = Some kind) /\
        match stat dir (fs w) with
        | Some IsDir =>
            (forall q, dir `prefix_of` q ->
                       can_open system q = true /\ can_remove system q = true) ->
            forall p, dir `prefix_of` p -> fs (st r) !! p = None
        | Some IsFile | None => fs (st r) = fs w
        end
    end.
Proof.
  cbn zeta. unfold clear_stores, bind, gets. cbn [out st ev].
  destruct (any_partitions (self w)); [reflexivity |].
  destruct (_state_dir (self w)) as [dir |]; unfold modify, ret, on_disk;
    cbn [out st ev self fs]; [| repeat split].
  split; [reflexivity |]. split; [reflexivity |]. split; [reflexivity |].
  split; [intros p; apply rmtree_outside |].
  split; [intros p kind; apply rmtree_subset |].
  destruct (stat dir (fs w)) as [[|] |] eqn:Hstat.
  - apply rmtree_not_a_directory. congruence.
  - apply rmtree_permitted, Hstat.
  - apply rmtree_not_a_directory. congruence.
Qed.

End ClearStores.

Section ClearStoresSample.
Import StateStoreManager.

(** The claim C3 as the specification words it fails: no store has a
    partition, [clear_stores] returns, the operating system refuses
    nothing, and the path of the state directory still exists. *)
Lemma clear_stores_leaves_blocked_path :
  let r := clear_stores Sample.permissive Sample.blocked_world in
  any_partitions (self Sample.blocked_world) = false /\
  _state_dir (self Sample.blocked_world) = Some ["app"; "state"; "alerts"] /\
  out r = Ok tt /\
  fs (st r) !! ["app"; "state"; "alerts"] = Some IsFile.
Proof. repeat split. Qed.

(** On the sample disk, when nothing is refused, the directory of the
    group goes and the one of the other group stays. *)
Example clear_stores_sample :
  let r := clear_stores Sample.permissive Sample.world in
  out r = Ok tt /\
  fs (st r) !! ["app"; "state"; "alerts"] = None /\
  fs (st r) !! ["app"; "state"; "alerts"; "default"; "0"] = None /\
  fs (st r) !! ["app"; "state"; "other"] = Some IsDir /\
  fs (st r) !! ["app"; "state"] = Some IsDir.
Proof. vm_compute. repeat split. Qed.

(** A state directory that is a symbolic link to a directory is a
    directory for [init], and [rmtree] refuses it: [clear_stores] returns
    and everything is still there. *)
Example clear_stores_leaves_linked_directory :
  let r := clear_stores Sample.linked Sample.world in
  out r = Ok tt /\
  fs (st r) !! ["app"; "state"; "alerts"] = Some IsDir /\
  fs (st r) !! ["app"; "state"; "alerts"; "default"; "0"] = Some IsDir.
Proof. vm_compute. repeat split. Qed.

End ClearStoresSample.

(** ** Fanning assignment and revocation out to the stores *)

Section Rebalance.
Import StateStoreManager.
Variable opens : Store.t -> Z -> FileSystem -> FileSystem.
Variable topic : option string.
Variable partition : Z.

#[local] Abbreviation assign_call := (StoreAssignPartition topic).
#[local] Abbreviation revoke_call := (StoreRevokePartition topic).

(** The loop of [on_partition_assign]: one call per item, in order; the
    dictionary is filled item by item. *)
Lemma assign_each_outcome items : forall acc w,
  let r := assign_each opens topic partition items acc w in
  out r = Ok (fold_left
                (fun d item =>
                   PyDict.set (fst item)
                     (fst (Store.assign_partition partition (snd item))) d)
                items acc) /\
  ev r = map (fun item => assign_call (fst item) partition) items /\
  _recovery_manager (self (st r)) = _recovery_manager (self w).
Proof.
  induction items as [| [name store] items IH]; intros acc w; cbn zeta.
  - repeat split.
  - cbn [assign_each]. unfold bind, emit, modify. cbn [out st ev].
    destruct (IH (PyDict.set name (fst (Store.assign_partition partition store)) acc)
                (on_self (put_store topic name
                            (snd (Store.assign_partition partition store)))
                   (on_disk (opens store partition) w)))
      as (Hout & Hev & Hrm).
    cbn zeta in *. rewrite Hout, Hev, Hrm. repeat split.
Qed.

Lemma fill_distinct items : forall acc,
  NoDup (PyDict.keys acc ++ PyDict.keys items) ->
  fold_left
    (fun d item =>
       PyDict.set (fst item) (fst (Store.assign_partition partition (snd item))) d)
    items acc
  = acc ++ assigned partition items.
Proof.
  induction items as [| [name store] items IH]; intros acc Hnd; cbn.
  - rewrite app_nil_r. reflexivity.
  - assert (Hfresh : PyDict.get name acc = None).
    { apply get_None_keys. apply NoDup_app in Hnd as (_ & Hdisj & _).
      intros Hin. apply (Hdisj name Hin). cbn. left. }
    rewrite set_absent by exact Hfresh.
    rewrite IH.
    + rewrite <- app_assoc. reflexivity.
    + unfold PyDict.keys in *. rewrite map_app. cbn in *.
      rewrite <- app_assoc. exact Hnd.
Qed.

Lemma assigned_get stores name store :
  PyDict.get name stores = Some store ->
  PyDict.get name (assigned partition stores)
  = Some (fst (Store.assign_partition partition store)).
Proof.
  induction stores as [| [name' store'] stores IH]; cbn; [discriminate |].
  destruct (decide (name = name')) as [-> | Hne]; [| exact IH].
  intros [= ->]. reflexivity.
Qed.

Lemma assigned_keys stores :
  PyDict.keys (assigned partition stores) = PyDict.keys stores.
Proof. unfold PyDict.keys, assigned. rewrite map_map. reflexivity. Qed.

(** After the loop every store of the listing holds what its
    [assign_partition] left. *)
Lemma assign_each_stores items : forall acc w,
  PyDict.wf items ->
  forall name store, (name, store) ∈ items ->
    lookup topic name (self (st (assign_each opens topic partition items acc w)))
    = Some (snd (Store.assign_partition partition store)).
Proof.
  induction items as [| [name' store'] items IH]; intros acc w Hwf name store Hin.
  - apply elem_of_nil in Hin. contradiction.
  - unfold PyDict.wf, PyDict.keys in Hwf. cbn in Hwf.
    apply NoDup_cons in Hwf as [Hfresh Hwf].
    cbn [assign_each]. unfold bind, emit, modify. cbn [out st ev].
    apply elem_of_cons in Hin as [Heq | Hin].
    + inversion Heq; subst name' store'. clear Heq.
      assert (Hkeep : forall items acc w,
                name ∉ map fst items ->
                lookup topic name (self (st (assign_each opens topic partition items acc w)))
                = lookup topic name (self w)).
      { clear. induction items as [| [n s] items IHi]; intros acc w Hnotin.
        - reflexivity.
        - cbn [assign_each]. unfold bind, emit, modify. cbn [out st ev].
          cbn in Hnotin. apply not_elem_of_cons in Hnotin as [Hne Hnotin].
          rewrite IHi by exact Hnotin. cbn [on_self self].
          apply lookup_put_ne. congruence. }
      rewrite Hkeep by exact Hfresh. cbn [on_self self]. apply lookup_put_eq.
    + apply IH; assumption.
Qed.

(** C4.  [on_partition_assign] calls [assign_partition] once on every
    store registered under the topic, in the order of registration, and
    then the recovery manager if one is configured and the topic has
    stores; it returns the dictionary that has exactly the registered
    store names as keys, each with the partition its store returned, and
    every store keeps the state its [assign_partition] left. *)
Theorem on_partition_assign_fans_out
    (committed_offsets : PyDict.t string Z) (w : World) :
  let stores := topic_stores topic (self w) in
  let r := on_partition_assign opens topic partition committed_offsets w in
  PyDict.wf stores ->
  out r = Ok (assigned partition stores) /\
  PyDict.keys (assigned partition stores) = PyDict.keys stores /\
  (forall store_name store,
     PyDict.get store_name stores = Some store ->
     PyDict.get store_name (assigned partition stores)
     = Some (fst (Store.assign_partition partition store)) /\
     lookup topic store_name (self (st r))
     = Some (snd (Store.assign_partition partition store))) /\
  List.filter is_store_assign (ev r)
  = map (fun store_name => assign_call store_name partition) (PyDict.keys stores) /\
  ev r
  = map (fun store_name => assign_call store_name partition) (PyDict.keys stores)
    ++ match _recovery_manager (self w), assigned partition stores with
       | Some _, _ :: _ =>
           [RecoveryAssignPartition topic partition committed_offsets
              (assigned partition stores)]
       | _, _ => []
       end.
Proof.
  cbn zeta. intros Hwf.
  set (stores := topic_stores topic (self w)) in *.
  pose proof (assign_each_outcome stores [] w) as Hloop. cbn zeta in Hloop.
  destruct Hloop as (Hout & Hev & Hrm).
  rewrite fill_distinct in Hout by exact Hwf. cbn [app] in Hout.
  assert (Hrun : ev (on_partition_assign opens topic partition committed_offsets w)
                 = map (fun store_name => assign_call store_name partition)
                     (PyDict.keys stores)
                   ++ match _recovery_manager (self w), assigned partition stores with
                      | Some _, _ :: _ =>
                          [RecoveryAssignPartition topic partition committed_offsets
                             (assigned partition stores)]
                      | _, _ => []
                      end
                 /\ out (on_partition_assign opens topic partition committed_offsets w)
                    = Ok (assigned partition stores)
                 /\ st (on_partition_assign opens topic partition committed_offsets w)
                    = st (assign_each opens topic partition stores [] w)).
  { unfold on_partition_assign, bind, gets. cbn [out st ev]. fold stores.
    rewrite Hout, Hev. cbn [out st ev app].
    unfold PyDict.keys. rewrite map_map.
    destruct (_recovery_manager (self w)), (assigned partition stores);
      unfold emit, ret; cbn [out st ev]; rewrite ?app_nil_r; repeat split. }
  destruct Hrun as (Hevr & Houtr & Hstr).
  split; [exact Houtr |]. split; [apply assigned_keys |].
  split; [| split; [| exact Hevr]].
  - intros store_name store Hget. split; [apply assigned_get, Hget |].
    rewrite Hstr. apply assign_each_stores; [exact Hwf |].
    clear -Hget. induction stores as [| [n s] stores IH]; [discriminate |].
    cbn in Hget. destruct (decide (store_name = n)) as [-> | Hne].
    + injection Hget as ->. left.
    + right. apply IH, Hget.
  - rewrite Hevr, List.filter_app.
    assert (Hcalls : forall names,
              List.filter is_store_assign
                (map (fun store_name => assign_call store_name partition) names)
              = map (fun store_name => assign_call store_name partition) names).
    { induction names as [| n names IHn]; [reflexivity |]. cbn. rewrite IHn. reflexivity. }
    rewrite Hcalls.
    destruct (_recovery_manager (self w)), (assigned partition stores);
      cbn; rewrite app_nil_r; reflexivity.
Qed.

Lemma revoke_one_outcome name store w :
  revoke_one topic partition (name, store) w
  = match Store.revoke_partition partition store with
    | Ok store' =>
        mkOutcome (Ok tt) (on_self (put_store topic name store') w)
          [revoke_call name partition]
    | Raise e => mkOutcome (Raise e) w [revoke_call name partition]
    end.
Proof.
  unfold revoke_one, bind, emit, lift, modify. cbn [out st ev fst snd].
  destruct (Store.revoke_partition partition store); reflexivity.
Qed.

(** The loop of [on_partition_revoke]: the stores are revoked in order,
    up to and including the first whose [revoke_partition] raises. *)
Lemma revoke_each_outcome items : forall w,
  let r := for_each items (revoke_one topic partition) w in
  exists called,
    called `prefix_of` PyDict.keys items /\
    ev r = map (fun store_name => revoke_call store_name partition) called /\
    (out r = Ok tt -> called = PyDict.keys items).
Proof.
  induction items as [| [name store] items IH]; intros w; cbn zeta.
  - exists []. split; [apply prefix_nil | split; reflexivity].
  - cbn [for_each]. unfold bind. rewrite revoke_one_outcome.
    destruct (Store.revoke_partition partition store) as [store' | e];
      cbn [out st ev app].
    + destruct (IH (on_self (put_store topic name store') w))
        as (called & Hprefix & Hev & Hall).
      cbn zeta in *. exists (name :: called). split; [| split].
      * cbn. apply prefix_cons, Hprefix.
      * rewrite Hev. reflexivity.
      * intros Hok. cbn. rewrite Hall by exact Hok. reflexivity.
    + exists [name]. split; [| split].
      * cbn. apply prefix_cons, prefix_nil.
      * reflexivity.
      * discriminate.
Qed.

Lemma on_partition_revoke_unfold w :
  on_partition_revoke topic partition w
  = match topic_stores topic (self w) with
    | [] => mkOutcome (Ok tt) w []
    | item :: stores' =>
        let r := for_each (item :: stores') (revoke_one topic partition) w in
        mkOutcome (out r) (st r)
          (match _recovery_manager (self w) with
           | Some _ => [RecoveryRevokePartition partition]
           | None => []
           end ++ ev r)
    end.
Proof.
  unfold on_partition_revoke, bind, gets. cbn [out st ev].
  destruct (topic_stores topic (self w)) as [| item stores']; [reflexivity |].
  destruct (_recovery_manager (self w)); unfold emit, ret; cbn [out st ev];
    destruct (for_each (item :: stores') (revoke_one topic partition) w)
      as [[[] | e] w' evs]; reflexivity.
Qed.

(** C6.  With a recovery manager configured, [on_partition_revoke] on a
    topic that has stores first tells the recovery manager to revoke the
    partition and then revokes it on the stores, one after the other; on a
    topic without stores it calls nobody.  So a call of a store's
    [revoke_partition] always comes after the call of the recovery
    manager. *)
Theorem on_partition_revoke_recovery_first (w : World) (recovery : string) :
  let stores := topic_stores topic (self w) in
  let r := on_partition_revoke topic partition w in
  _recovery_manager (self w) = Some recovery ->
  (exists called,
     called `prefix_of` PyDict.keys stores /\
     (out r = Ok tt -> called = PyDict.keys stores) /\
     ev r = match stores with
            | [] => []
            | _ :: _ =>
                RecoveryRevokePartition partition
                :: map (fun store_name => revoke_call store_name partition) called
            end) /\
  (forall before e after,
     ev r = before ++ e :: after -> is_store_revoke e = true ->
     exists before', before = RecoveryRevokePartition partition :: before').
Proof.
  cbn zeta. intros Hrm.
  assert (Hshape : exists called,
     called `prefix_of` PyDict.keys (topic_stores topic (self w)) /\
     (out (on_partition_revoke topic partition w) = Ok tt ->
      called = PyDict.keys (topic_stores topic (self w))) /\
     ev (on_partition_revoke topic partition w)
     = match topic_stores topic (self w) with
       | [] => []
       | _ :: _ =>
           RecoveryRevokePartition partition
           :: map (fun store_name => revoke_call store_name partition) called
       end).
  { rewrite on_partition_revoke_unfold.
    destruct (topic_stores topic (self w)) as [| item stores'].
    - exists []. split; [apply prefix_nil | split; reflexivity].
    - rewrite Hrm. cbn zeta. cbn [out st ev app].
      destruct (revoke_each_outcome (item :: stores') w)
        as (called & Hprefix & Hev & Hall).
      cbn zeta in *. exists called. rewrite Hev. repeat split; assumption. }
  split; [exact Hshape |].
  destruct Hshape as (called & _ & _ & Hev).
  intros before e after Hsplit Hrevoke. rewrite Hev in Hsplit.
  destruct (topic_stores topic (self w)) as [| item stores'];
    [destruct before; discriminate |].
  destruct before as [| e0 before'].
  - cbn in Hsplit. injection Hsplit as <- _. discriminate.
  - cbn in Hsplit. injection Hsplit as <- _. eauto.
Qed.

End Rebalance.

(** ** The registry keeps each key once *)

Section RegistryShape.
Import StateStoreManager.

Lemma wf_init cwd group_id state_dir options producer recovery_manager store_type :
  wf (__init__ cwd group_id state_dir options producer recovery_manager store_type).
Proof. split; [apply NoDup_nil_2 | constructor]. Qed.

Lemma wf_topic_stores topic m : wf m -> PyDict.wf (topic_stores topic m).
Proof.
  intros [_ Hall]. unfold topic_stores.
  destruct (PyDict.get topic (_stores m)) as [stores |] eqn:Hget; cbn.
  - rewrite Forall_forall in Hall. apply (Hall (topic, stores)).
    clear -Hget. induction (_stores m) as [| [k v] d IH]; [discriminate |].
    cbn in Hget. destruct (decide (topic = k)) as [-> | Hne].
    + injection Hget as ->. left.
    + right. apply IH, Hget.
  - apply NoDup_nil_2.
Qed.

Lemma Forall_set {K V} `{EqDecision K} (P : K * V -> Prop) k v (d : PyDict.t K V) :
  P (k, v) -> Forall P d -> Forall P (PyDict.set k v d).
Proof.
  intros Hkv. induction 1 as [| [k' v'] d Hhead Htail IH]; cbn.
  - repeat constructor. exact Hkv.
  - destruct (decide (k = k')); constructor; assumption.
Qed.

Lemma wf_put_store topic store_name store m :
  wf m -> wf (put_store topic store_name store m).
Proof.
  intros Hwf. pose proof (wf_topic_stores topic m Hwf) as Htopic.
  destruct Hwf as [Hkeys Hall]. split; cbn.
  - apply wf_set, Hkeys.
  - apply Forall_set; [cbn; apply wf_set, Htopic | exact Hall].
Qed.

End RegistryShape.

(** ** The sample manager *)

Section ManagerSample.
Import StateStoreManager.

Example sample_registered :
  map (fun entry => (fst entry, map (fun item => (fst item, Store.class (snd item)))
                                  (snd entry)))
    (_stores (self Sample.registered))
  = [ (Some "orders", [ ("default", RocksDBStore);
                        ("hopping_5000_1000", WindowedRocksDBStore) ]);
      (Some "payments", [ ("default", MemoryStore) ]) ].
Proof. reflexivity. Qed.

Lemma register_store_again_changes_nothing_witness :
  register_store Sample.changelog_topic_name (Some "orders") "default"
    (Some (SupportedStore MemoryStore)) None
    (st (register_store Sample.changelog_topic_name (Some "orders") "default"
           None None Sample.world))
  = mkOutcome (Ok tt)
      (st (register_store Sample.changelog_topic_name (Some "orders") "default"
             None None Sample.world))
      [].
Proof.
  apply (register_store_again_changes_nothing Sample.changelog_topic_name
           (Some "orders") "default" None (Some (SupportedStore MemoryStore))
           None None Sample.world).
  reflexivity.
Defined.

(** The claim C1 as the specification words it fails: a second
    registration of the same pair that asks for another store type, or for
    a type that is not supported, is not rejected; it returns, and the
    store of the first registration stays. *)
Lemma register_store_accepts_conflict :
  let first := register_store Sample.changelog_topic_name (Some "orders") "default"
                 (Some (SupportedStore MemoryStore)) None Sample.world in
  let second := register_store Sample.changelog_topic_name (Some "orders") "default"
                  (Some (SupportedStore RocksDBStore)) None (st first) in
  let third := register_store Sample.changelog_topic_name (Some "orders") "default"
                 (Some (OtherStoreType "dict")) None (st first) in
  out first = Ok tt /\
  out second = Ok tt /\
  out third = Ok tt /\
  option_map Store.class (lookup (Some "orders") "default" (self (st second)))
  = Some MemoryStore.
Proof. repeat split. Qed.

(** A store type that is not supported is refused on a pair that is not
    registered yet, after the changelog has been set up. *)
Example sample_unsupported_type :
  let r := register_store Sample.changelog_topic_name (Some "orders") "totals"
             (Some (OtherStoreType "dict")) None Sample.world in
  out r = Raise ValueError /\ st r = Sample.world /\
  ev r = [RegisterChangelog (Some "orders") "totals" None].
Proof. repeat split. Qed.

Lemma on_partition_assign_fans_out_witness :
  let stores := topic_stores (Some "orders") (self Sample.registered) in
  let r := on_partition_assign Sample.opens (Some "orders") 0 [("orders", 41)]
             Sample.registered in
  out r = Ok (assigned 0 stores) /\
  PyDict.keys (assigned 0 stores) = PyDict.keys stores /\
  (forall store_name store,
     PyDict.get store_name stores = Some store ->
     PyDict.get store_name (assigned 0 stores)
     = Some (fst (Store.assign_partition 0 store)) /\
     lookup (Some "orders") store_name (self (st r))
     = Some (snd (Store.assign_partition 0 store))) /\
  List.filter is_store_assign (ev r)
  = map (fun store_name => StoreAssignPartition (Some "orders") store_name 0)
      (PyDict.keys stores) /\
  ev r
  = map (fun store_name => StoreAssignPartition (Some "orders") store_name 0)
      (PyDict.keys stores)
    ++ match _recovery_manager (self Sample.registered), assigned 0 stores with
       | Some _, _ :: _ =>
           [RecoveryAssignPartition (Some "orders") 0 [("orders", 41)]
              (assigned 0 stores)]
       | _, _ => []
       end.
Proof.
  apply (on_partition_assign_fans_out Sample.opens (Some "orders") 0
           [("orders", 41)] Sample.registered).
  apply (bool_decide_unpack _). vm_compute. exact I.
Defined.

Example sample_assignment :
  ev (on_partition_assign Sample.opens (Some "orders") 0 [("orders", 41)]
        Sample.registered)
  = [ StoreAssignPartition (Some "orders") "default" 0;
      StoreAssignPartition (Some "orders") "hopping_5000_1000" 0;
      RecoveryAssignPartition (Some "orders") 0 [("orders", 41)]
        [ ("default", {| partition_number := 0; open_transaction := false |});
          ("hopping_5000_1000",
           {| partition_number := 0; open_transaction := false |}) ] ].
Proof. reflexivity. Qed.

Lemma on_partition_revoke_recovery_first_witness :
  let stores := topic_stores (Some "orders") (self Sample.registered) in
  let r := on_partition_revoke (Some "orders") 0 Sample.registered in
  (exists called,
     called `prefix_of` PyDict.keys stores /\
     (out r = Ok tt -> called = PyDict.keys stores) /\
     ev r = match stores with
            | [] => []
            | _ :: _ =>
                RecoveryRevokePartition 0
                :: map (fun store_name =>
                          StoreRevokePartition (Some "orders") store_name 0) called
            end) /\
  (forall before e after,
     ev r = before ++ e :: after -> is_store_revoke e = true ->
     exists before', before = RecoveryRevokePartition 0 :: before').
Proof.
  apply (on_partition_revoke_recovery_first (Some "orders") 0 Sample.registered
           "recovery").
  reflexivity.
Defined.

Example sample_revocation :
  ev (on_partition_revoke (Some "orders") 0 Sample.registered)
  = [ RecoveryRevokePartition 0;
      StoreRevokePartition (Some "orders") "default" 0;
      StoreRevokePartition (Some "orders") "hopping_5000_1000" 0 ].
Proof. reflexivity. Qed.

End ManagerSample.

(** ** The temperature generator: who overheats, in what order, and when
    it stops *)

Section TemperatureRounds.
Import TemperatureGenerator.

Lemma invariant_after : forall machine_id temp self,
  invariant self -> running self = true ->
  0 <= machine_id < 3 -> 40 <= temp <= 100 ->
  invariant (after_round machine_id temp self).
Proof. intros. unfold after_round. apply invariant_after_round; assumption. Qed.

(** A draw over three non-negative weights, with the weight of what it
    selects. *)
Lemma choices_weight a b c u :
  0 <= a -> 0 <= b -> 0 <= c -> 0 < a + b + c -> random.unit_draw u ->
  exists change,
    random.choices [-1; 0; 1] [a; b; c] u = Ok change /\
    -1 <= change <= 1 /\ 0 < weight_of change [a; b; c].
Proof.
  intros Ha Hb Hc Hsum Hu.
  destruct (choices_three a b c u Ha Hb Hc Hsum Hu)
    as [[E Hpos] | [[E Hpos] | [E Hpos]]];
    eexists; (split; [exact E |]); (split; [lia | exact Hpos]).
Qed.

(** One round on a running generator, in full: the machine whose turn it
    is moves by a change to which the row of its temperature gives a
    positive weight, and the event reports the new temperature. *)
Lemma generate_event_outcome u now self :
  invariant self -> running self = true -> random.unit_draw u ->
  let machine_id := event_count self mod 3 in
  exists temp table weights change,
    machine_temps self !! machine_id = Some temp /\
    40 <= temp <= 99 /\
    machine_types __init__ !! machine_id = Some table /\
    table !! (temp / 10 * 10) = Some weights /\
    random.choices [-1; 0; 1] weights u = Ok change /\
    -1 <= change <= 1 /\ 0 < weight_of change weights /\
    40 <= temp + change <= 100 /\
    generate_event u now self
    = Ok ({| key := pretty machine_id; Temperature_C := temp + change;
             Timestamp := now |},
          after_round machine_id (temp + change) self).
Proof.
  intros Hinv Hrun Hu. cbn zeta.
  pose proof (Z.mod_pos_bound (event_count self) 3 ltac:(lia)) as Hid.
  destruct (inv_ids _ Hinv _ Hid) as [temp Htemp].
  pose proof (inv_running _ Hinv Hrun _ _ Htemp) as Hrange.
  destruct (machine_table _ Hid) as (table & Htable & Hwhich).
  destruct (table_row table temp Hwhich Hrange)
    as (a & b & c & Hrow & Ha & Hb & Hc & Hsum & Hforty).
  destruct (choices_weight a b c u Ha Hb Hc Hsum Hu)
    as (change & Hchoice & Hchange & Hweight).
  assert (Hnew : 40 <= temp + change <= 100).
  { assert (change = -1 -> 0 < a) as Hdown.
    { intros ->. exact Hweight. }
    lia. }
  exists temp, table, [a; b; c], change.
  repeat (split; [first [assumption | lia] |]).
  unfold generate_event, update_machine_temp.
  rewrite Htemp, (inv_types _ Hinv), Htable, Hrow, Hchoice.
  cbn [machine_temps set_machine_temp]. rewrite lookup_insert_eq.
  reflexivity.
Qed.

Lemma decade_bounds temp : 10 * (temp / 10) <= temp < 10 * (temp / 10) + 10.
Proof. Z.div_mod_to_equations. lia. Qed.

(** Reads the row of a closed table off a lookup. *)
Ltac read_row H :=
  match type of H with
  | ?m !! ?k = Some _ =>
      let r := eval vm_compute in (m !! k) in
      change (m !! k) with r in H
  end.

Lemma machine_tables :
  machine_types __init__ !! 0 = Some probabilities_normal /\
  machine_types __init__ !! 1 = Some probabilities_normal /\
  machine_types __init__ !! 2 = Some probabilities_issue.
Proof. repeat split. Qed.

(** In its table, a machine moves only within its range. *)
Lemma range_kept machine_id table temp weights change :
  0 <= machine_id < 3 ->
  machine_types __init__ !! machine_id = Some table ->
  fst (machine_range machine_id) <= temp <= snd (machine_range machine_id) ->
  temp <= 99 ->
  table !! (temp / 10 * 10) = Some weights ->
  -1 <= change <= 1 -> 0 < weight_of change weights ->
  fst (machine_range machine_id) <= temp + change
  <= snd (machine_range machine_id).
Proof.
  intros Hid Htable Hrange Hrun Hrow Hchange Hweight.
  pose proof (decade_bounds temp) as Hdecade.
  destruct machine_tables as (T0 & T1 & T2).
  assert (change = -1 \/ change = 0 \/ change = 1) as Hcases by lia.
  assert (machine_id = 0 \/ machine_id = 1 \/ machine_id = 2)
    as [-> | [-> | ->]] by lia;
    cbn in Hrange |- *;
    rewrite ?T0, ?T1, ?T2 in Htable; injection Htable as <-;
    (assert (temp / 10 = 4 \/ temp / 10 = 5 \/ temp / 10 = 6 \/
             temp / 10 = 7 \/ temp / 10 = 8 \/ temp / 10 = 9)
       as [E | [E | [E | [E | [E | E]]]]] by lia);
    rewrite E in Hrow, Hdecade; read_row Hrow; injection Hrow as <-;
    destruct Hcases as [-> | [-> | ->]];
    try (vm_compute in Hweight; discriminate); lia.
Qed.

Lemma ranges_init : temps_in_machine_ranges __init__.
Proof.
  intros machine_id temp H. cbn in H.
  repeat (apply lookup_insert_Some in H as [[<- <-] | [_ H]]; [cbn; lia |]).
  rewrite lookup_empty in H. discriminate.
Qed.

Lemma ranges_after_round machine_id temp self :
  temps_in_machine_ranges self ->
  fst (machine_range machine_id) <= temp <= snd (machine_range machine_id) ->
  temps_in_machine_ranges (after_round machine_id temp self).
Proof.
  intros Hranges Htemp id t Ht.
  assert (Hnew : <[machine_id := temp]> (machine_temps self) !! id = Some t).
  { unfold after_round in Ht. destruct (temp =? 100); exact Ht. }
  apply lookup_insert_Some in Hnew as [[<- <-] | [_ Hold]]; [exact Htemp |].
  apply Hranges, Hold.
Qed.

Lemma pretty_machine_2 : pretty 2 = "2".
Proof. reflexivity. Qed.

(** The rounds of [run], one by one: what an induction over the inputs
    needs of the first round. *)
Lemma run_first_round u now rest self :
  invariant self -> running self = true -> random.unit_draw u ->
  exists ev self1,
    generate_event u now self = Ok (ev, self1) /\
    invariant self1 /\
    run ((u, now) :: rest) self
    = match run rest self1 with
      | Ok (evs, self2) => Ok (ev :: evs, self2)
      | Raise e => Raise e
      end.
Proof.
  intros Hinv Hrun Hu.
  destruct (generate_event_step u now self Hinv Hrun Hu)
    as (ev & self1 & Hev & Hinv1 & _).
  exists ev, self1. split; [exact Hev |]. split; [exact Hinv1 |].
  cbn [run]. rewrite Hrun, Hev. destruct (run rest self1) as [[evs self2] |]; reflexivity.
Qed.

Lemma ranges_run inputs : forall self,
  invariant self -> temps_in_machine_ranges self ->
  Forall (fun i => random.unit_draw (fst i)) inputs ->
  exists evs self',
    run inputs self = Ok (evs, self') /\
    temps_in_machine_ranges self' /\
    Forall (fun ev => Temperature_C ev = 100 -> key ev = "2") evs /\
    Forall (fun ev => key ev <> "2" -> 49 <= Temperature_C ev <= 90) evs /\
    Forall (fun ev => key ev = "2" -> 59 <= Temperature_C ev <= 100) evs.
Proof.
  induction inputs as [| [u now] rest IH]; intros self Hinv Hranges Hdraws.
  - exists [], self. split; [reflexivity |]. split; [assumption |].
    repeat split; constructor.
  - destruct (running self) eqn:Hrun.
    + apply Forall_cons in Hdraws as [Hu Hrest]. cbn in Hu.
      destruct (generate_event_outcome u now self Hinv Hrun Hu)
        as (temp & table & weights & change & Htemp & Hlive & Htable & Hrow
            & Hchoice & Hchange & Hweight & Hnew & Hev).
      pose proof (Z.mod_pos_bound (event_count self) 3 ltac:(lia)) as Hid.
      pose proof (range_kept _ _ _ _ _ Hid Htable (Hranges _ _ Htemp)
                    ltac:(lia) Hrow Hchange Hweight) as Hkept.
      destruct (IH (after_round (event_count self mod 3) (temp + change) self))
        as (evs & self' & Hrest_run & Hranges' & H100 & Hnormal & Hissue).
      * apply invariant_after; assumption.
      * apply ranges_after_round; assumption.
      * exact Hrest.
      * eexists _, self'. cbn [run]. rewrite Hrun, Hev, Hrest_run.
        split; [reflexivity |]. split; [exact Hranges' |].
        repeat split; constructor; try assumption; cbn [Temperature_C key].
        -- intros E100. unfold machine_range in Hkept.
           destruct (Z.eqb_spec (event_count self mod 3) 2) as [-> | Hne];
             [reflexivity | cbn in Hkept; lia].
        -- intros Hkey. unfold machine_range in Hkept.
           destruct (Z.eqb_spec (event_count self mod 3) 2) as [E | Hne];
             [rewrite E in Hkey; contradiction | cbn in Hkept; lia].
        -- intros Hkey. unfold machine_range in Hkept.
           destruct (Z.eqb_spec (event_count self mod 3) 2) as [E | Hne];
             [cbn in Hkept; lia |].
           exfalso.
           assert (Hcases : event_count self mod 3 = 0 \/ event_count self mod 3 = 1)
             by lia.
           destruct Hcases as [E | E]; rewrite E in Hkey; discriminate.
    + exists [], self. cbn [run]. rewrite Hrun.
      split; [reflexivity |]. split; [assumption |]. repeat split; constructor.
Qed.

(** X1.  Whatever the draws, the two machines of the normal table stay
    between 49 and 90 degrees and the machine of the issue table between 59
    and 100, in every reading and in the temperatures the generator ends
    with: a reading of 100, the one that stops the generator, is always a
    reading of machine 2. *)
Theorem only_the_faulty_machine_overheats (inputs : list (Q * Z)) :
  Forall (fun i => random.unit_draw (fst i)) inputs ->
  exists evs self',
    run inputs __init__ = Ok (evs, self') /\
    temps_in_machine_ranges self' /\
    Forall (fun ev => Temperature_C ev = 100 -> key ev = "2") evs /\
    Forall (fun ev => key ev <> "2" -> 49 <= Temperature_C ev <= 90) evs /\
    Forall (fun ev => key ev = "2" -> 59 <= Temperature_C ev <= 100) evs.
Proof. apply ranges_run; [apply invariant_init | apply ranges_init]. Qed.

Lemma only_the_faulty_machine_overheats_witness :
  exists evs self',
    run [(1 # 2, 10); (0 # 1, 20); (99 # 100, 30)] __init__ = Ok (evs, self') /\
    temps_in_machine_ranges self' /\
    Forall (fun ev => Temperature_C ev = 100 -> key ev = "2") evs /\
    Forall (fun ev => key ev <> "2" -> 49 <= Temperature_C ev <= 90) evs /\
    Forall (fun ev => key ev = "2" -> 59 <= Temperature_C ev <= 100) evs.
Proof.
  apply (only_the_faulty_machine_overheats
           [(1 # 2, 10); (0 # 1, 20); (99 # 100, 30)]).
  repeat constructor; cbn; unfold Qle, Qlt; cbn; lia.
Defined.

Lemma after_round_fields machine_id temp self :
  event_count (after_round machine_id temp self) = event_count self + 1 /\
  running (after_round machine_id temp self)
  = (if temp =? 100 then false else running self) /\
  machine_temps (after_round machine_id temp self)
  = <[machine_id := temp]> (machine_temps self).
Proof. unfold after_round. destruct (temp =? 100); repeat split. Qed.

(** A generator that has stopped produces nothing. *)
Lemma run_stopped inputs self :
  running self = false -> run inputs self = Ok ([], self).
Proof. intros Hstop. destruct inputs as [| [u now] rest]; cbn; [| rewrite Hstop]; reflexivity. Qed.

Lemma cycle_run inputs : forall self,
  invariant self ->
  Forall (fun i => random.unit_draw (fst i)) inputs ->
  exists evs self',
    run inputs self = Ok (evs, self') /\
    event_count self' = event_count self + Z.of_nat (length evs) /\
    (length evs <= length inputs)%nat /\
    forall k ev, evs !! k = Some ev ->
      key ev = pretty ((event_count self + Z.of_nat k) mod 3) /\
      exists u, inputs !! k = Some (u, Timestamp ev).
Proof.
  induction inputs as [| [u now] rest IH]; intros self Hinv Hdraws.
  - exists [], self. split; [reflexivity |]. split; [cbn; lia |].
    split; [reflexivity |]. intros k ev Hk. destruct k; discriminate.
  - destruct (running self) eqn:Hrun.
    + apply Forall_cons in Hdraws as [Hu Hrest]. cbn in Hu.
      destruct (generate_event_outcome u now self Hinv Hrun Hu)
        as (temp & table & weights & change & Htemp & Hlive & Htable & Hrow
            & Hchoice & Hchange & Hweight & Hnew & Hev).
      pose proof (Z.mod_pos_bound (event_count self) 3 ltac:(lia)) as Hid.
      set (self1 := after_round (event_count self mod 3) (temp + change) self) in *.
      destruct (after_round_fields (event_count self mod 3) (temp + change) self)
        as (Hcount & _ & _). fold self1 in Hcount.
      destruct (IH self1) as (evs & self' & Hrest_run & Hcount' & Hlen & Hkeys).
      * apply invariant_after; assumption.
      * exact Hrest.
      * eexists _, self'. cbn [run]. rewrite Hrun, Hev, Hrest_run.
        split; [reflexivity |]. split; [cbn [length]; lia |].
        split; [cbn [length]; lia |].
        intros [| k] ev Hk.
        -- injection Hk as <-. cbn [key Timestamp].
           rewrite Z.add_0_r. split; [reflexivity | eexists; reflexivity].
        -- destruct (Hkeys k ev Hk) as [Hkey Hinput].
           split; [| exact Hinput]. rewrite Hkey. f_equal. f_equal. lia.
    + exists [], self. rewrite run_stopped by exact Hrun.
      split; [reflexivity |]. split; [cbn; lia |]. split; [cbn; lia |].
      intros k ev Hk. destruct k; discriminate.
Qed.

(** X2.  The readings go round the machines 0, 1, 2, 0, 1, 2, ...: the
    event at position k has the key of machine k mod 3 and the clock reading
    of the k-th input, and the event count of the object is the number of
    events produced. *)
Theorem readings_go_round_the_machines (inputs : list (Q * Z)) :
  Forall (fun i => random.unit_draw (fst i)) inputs ->
  exists evs self',
    run inputs __init__ = Ok (evs, self') /\
    event_count self' = Z.of_nat (length evs) /\
    (length evs <= length inputs)%nat /\
    forall k ev, evs !! k = Some ev ->
      key ev = pretty (Z.of_nat k mod 3) /\
      exists u, inputs !! k = Some (u, Timestamp ev).
Proof.
  intros Hdraws.
  destruct (cycle_run inputs __init__ invariant_init Hdraws)
    as (evs & self' & Hrun & Hcount & Hlen & Hkeys).
  exists evs, self'. repeat (split; [assumption |]). exact Hkeys.
Qed.

Lemma readings_go_round_the_machines_witness :
  exists evs self',
    run [(1 # 2, 10); (0 # 1, 20); (99 # 100, 30)] __init__ = Ok (evs, self') /\
    event_count self' = Z.of_nat (length evs) /\
    (length evs <= length [(1 # 2, 10); (0 # 1, 20); (99 # 100, 30)])%nat /\
    forall k ev, evs !! k = Some ev ->
      key ev = pretty (Z.of_nat k mod 3) /\
      exists u, [(1 # 2, 10); (0 # 1, 20); (99 # 100, 30)] !! k
                = Some (u, Timestamp ev).
Proof.
  apply (readings_go_round_the_machines
           [(1 # 2, 10); (0 # 1, 20); (99 # 100, 30)]).
  repeat constructor; cbn; unfold Qle, Qlt; cbn; lia.
Defined.

Lemma stop_run inputs : forall self,
  invariant self ->
  Forall (fun i => random.unit_draw (fst i)) inputs ->
  exists evs self',
    run inputs self = Ok (evs, self') /\
    (running self' = true ->
     length evs = length inputs /\ Forall (fun ev => Temperature_C ev < 100) evs) /\
    (forall k ev, evs !! k = Some ev -> Temperature_C ev = 100 ->
                  S k = length evs) /\
    (running self = true -> running self' = false ->
     exists ev, last evs = Some ev /\ Temperature_C ev = 100).
Proof.
  induction inputs as [| [u now] rest IH]; intros self Hinv Hdraws.
  - exists [], self. split; [reflexivity |].
    split; [intros _; split; [reflexivity | constructor] |].
    split; [intros k ev Hk; destruct k; discriminate | congruence].
  - destruct (running self) eqn:Hrun.
    + apply Forall_cons in Hdraws as [Hu Hrest]. cbn in Hu.
      destruct (generate_event_outcome u now self Hinv Hrun Hu)
        as (temp & table & weights & change & Htemp & Hlive & Htable & Hrow
            & Hchoice & Hchange & Hweight & Hnew & Hev).
      pose proof (Z.mod_pos_bound (event_count self) 3 ltac:(lia)) as Hid.
      set (self1 := after_round (event_count self mod 3) (temp + change) self) in *.
      destruct (after_round_fields (event_count self mod 3) (temp + change) self)
        as (_ & Hrunning & _). fold self1 in Hrunning. rewrite Hrun in Hrunning.
      assert (Hinv1 : invariant self1) by (apply invariant_after; assumption).
      destruct (Z.eqb_spec (temp + change) 100) as [E100 | N100].
      * eexists _, self1. cbn [run].
        rewrite Hrun, Hev, (run_stopped rest self1 Hrunning).
        split; [reflexivity |].
        split; [intros Hc; congruence |].
        split; [intros [| k] ev Hk _; [reflexivity | destruct k; discriminate] |].
        intros _ _. eexists. split; [reflexivity | exact E100].
      * destruct (IH self1 Hinv1 Hrest)
          as (evs & self' & Hrest_run & Hlive' & Hfirst & Hlast).
        eexists _, self'. cbn [run]. rewrite Hrun, Hev, Hrest_run.
        split; [reflexivity |]. split; [| split].
        -- intros Hr. destruct (Hlive' Hr) as [Hlen Hall].
           split; [cbn [length]; lia |].
           constructor; [cbn [Temperature_C]; lia | exact Hall].
        -- intros [| k] ev Hk H100.
           ++ injection Hk as <-. cbn [Temperature_C] in H100. lia.
           ++ cbn [length]. f_equal. apply (Hfirst k ev Hk H100).
        -- intros _ Hstop. destruct (Hlast Hrunning Hstop) as (ev & Hev_last & H100).
           exists ev. split; [| exact H100].
           destruct evs as [| ev1 evs1]; [discriminate |].
           rewrite last_cons_cons. exact Hev_last.
    + exists [], self. rewrite run_stopped by exact Hrun.
      split; [reflexivity |].
      split; [intros Hc; congruence |].
      split; [intros k ev Hk; destruct k; discriminate | congruence].
Qed.

(** X3.  The generator stops at the first reading of 100 and not before:
    a reading of 100 is the last event; while the generator is running every
    input has given an event and all readings are below 100; once it has
    stopped, the last event is a reading of 100. *)
Theorem stops_at_the_first_reading_of_100 (inputs : list (Q * Z)) :
  Forall (fun i => random.unit_draw (fst i)) inputs ->
  exists evs self',
    run inputs __init__ = Ok (evs, self') /\
    (running self' = true ->
     length evs = length inputs /\ Forall (fun ev => Temperature_C ev < 100) evs) /\
    (forall k ev, evs !! k = Some ev -> Temperature_C ev = 100 ->
                  S k = length evs) /\
    (running self' = false ->
     exists ev, last evs = Some ev /\ Temperature_C ev = 100).
Proof.
  intros Hdraws.
  destruct (stop_run inputs __init__ invariant_init Hdraws)
    as (evs & self' & Hrun & Hlive & Hfirst & Hlast).
  exists evs, self'. repeat (split; [assumption |]). apply Hlast. reflexivity.
Qed.

Lemma stops_at_the_first_reading_of_100_witness :
  exists evs self',
    run [(1 # 2, 10); (0 # 1, 20); (99 # 100, 30)] __init__ = Ok (evs, self') /\
    (running self' = true ->
     length evs = length [(1 # 2, 10); (0 # 1, 20); (99 # 100, 30)] /\
     Forall (fun ev => Temperature_C ev < 100) evs) /\
    (forall k ev, evs !! k = Some ev -> Temperature_C ev = 100 ->
                  S k = length evs) /\
    (running self' = false ->
     exists ev, last evs = Some ev /\ Temperature_C ev = 100).
Proof.
  apply (stops_at_the_first_reading_of_100
           [(1 # 2, 10); (0 # 1, 20); (99 # 100, 30)]).
  repeat constructor; cbn; unfold Qle, Qlt; cbn; lia.
Defined.

(** A draw on the upper seven tenths takes the change +1 from a row that
    gives the two other changes at most 30 of its 100. *)
Lemma choices_high a b c u :
  0 <= a -> 0 <= b -> 0 <= c -> a + b + c = 100 -> a + b <= 30 ->
  high_draw u ->
  random.choices [-1; 0; 1] [a; b; c] u = Ok 1.
Proof.
  intros Ha Hb Hc Hsum Hlow [Hu0 Hu1].
  unfold random.choices, random.accumulate. cbn -[Z.add Qmult inject_Z].
  replace (0 + a + b + c) with 100 by lia.
  replace (0 + a + b) with (a + b) by lia. replace (0 + a) with a by lia.
  cbn -[Z.add Qmult inject_Z].
  unfold random.bisect_right. cbn -[Z.add Qmult inject_Z].
  assert (Hx : (inject_Z (a + b) <= u * inject_Z 100)%Q).
  { assert (inject_Z (a + b) <= inject_Z 30)%Q as H30 by (rewrite <- Zle_Qle; exact Hlow).
    change (inject_Z 30) with (30 # 1)%Q in H30.
    change (inject_Z 100) with (100 # 1)%Q. lra. }
  apply draw_lt_false in Hx. rewrite Hx. reflexivity.
Qed.

Lemma issue_row temp :
  40 <= temp <= 99 ->
  exists a b c,
    probabilities_issue !! (temp / 10 * 10) = Some [a; b; c] /\
    0 <= a /\ 0 <= b /\ 0 <= c /\ a + b + c = 100 /\ a + b <= 30.
Proof.
  intros Htemp.
  assert (temp / 10 = 4 \/ temp / 10 = 5 \/ temp / 10 = 6 \/
          temp / 10 = 7 \/ temp / 10 = 8 \/ temp / 10 = 9)
    as [E | [E | [E | [E | [E | E]]]]] by (Z.div_mod_to_equations; lia);
    rewrite E; (eexists _, _, _; split; [reflexivity | lia]).
Qed.

Lemma heating_round u now self :
  heating self -> high_draw u ->
  exists ev self1,
    generate_event u now self = Ok (ev, self1) /\
    event_count self1 = event_count self + 1 /\
    (event_count self = 113 ->
     running self1 = false /\ machine_temps self1 !! 2 = Some 100) /\
    (event_count self < 113 -> heating self1) /\
    (key ev = "2" -> Temperature_C ev = 63 + event_count self / 3).
Proof.
  intros (Hinv & Hranges & Hrun & Hcount & Htwo) Hhigh.
  assert (Hu : random.unit_draw u).
  { destruct Hhigh as [H0 H1]. split; [lra | exact H1]. }
  destruct (generate_event_outcome u now self Hinv Hrun Hu)
    as (temp & table & weights & change & Htemp & Hlive & Htable & Hrow
        & Hchoice & Hchange & Hweight & Hnew & Hev).
  pose proof (Z.mod_pos_bound (event_count self) 3 ltac:(lia)) as Hid.
  pose proof (range_kept _ _ _ _ _ Hid Htable (Hranges _ _ Htemp)
                ltac:(lia) Hrow Hchange Hweight) as Hkept.
  destruct (after_round_fields (event_count self mod 3) (temp + change) self)
    as (Hcount1 & Hrunning1 & Htemps1).
  eexists _, _. split; [exact Hev |]. split; [exact Hcount1 |].
  destruct (decide (event_count self mod 3 = 2)) as [E2 | N2].
  - rewrite E2 in *. rewrite Htwo in Htemp. injection Htemp as <-.
    destruct machine_tables as (_ & _ & T2). rewrite T2 in Htable.
    injection Htable as <-.
    destruct (issue_row (62 + event_count self / 3) Hlive)
      as (a & b & c & Hrow' & Ha & Hb & Hc & Hsum & Hlow).
    rewrite Hrow' in Hrow. injection Hrow as <-.
    rewrite (choices_high a b c u Ha Hb Hc Hsum Hlow Hhigh) in Hchoice.
    injection Hchoice as <-.
    assert (Hdiv : (event_count self + 1) / 3 = event_count self / 3 + 1)
      by (Z.div_mod_to_equations; lia).
    split; [| split].
    + intros E113. rewrite Hrunning1, Htemps1, lookup_insert_eq.
      assert (event_count self / 3 = 37) as -> by (Z.div_mod_to_equations; lia).
      split; reflexivity.
    + intros Hless.
      assert (Hbelow : 62 + event_count self / 3 + 1 <> 100)
        by (Z.div_mod_to_equations; lia).
      split; [apply invariant_after; assumption |].
      split; [apply ranges_after_round; [assumption | exact Hkept] |].
      split; [rewrite Hrunning1; destruct (Z.eqb_spec (62 + event_count self / 3 + 1) 100);
              [contradiction | exact Hrun] |].
      split; [lia |].
      rewrite Htemps1, lookup_insert_eq, Hcount1, Hdiv. f_equal. lia.
    + intros _. cbn [Temperature_C]. lia.
  - assert (Hnormal : temp + change <= 90).
    { unfold machine_range in Hkept.
      destruct (Z.eqb_spec (event_count self mod 3) 2); [contradiction | cbn in Hkept; lia]. }
    assert (Hdiv : (event_count self + 1) / 3 = event_count self / 3)
      by (Z.div_mod_to_equations; lia).
    split; [| split].
    + intros E113. rewrite E113 in N2. contradiction N2. reflexivity.
    + intros Hless.
      split; [apply invariant_after; assumption |].
      split; [apply ranges_after_round; [assumption | exact Hkept] |].
      split; [rewrite Hrunning1; destruct (Z.eqb_spec (temp + change) 100);
              [lia | exact Hrun] |].
      split; [lia |].
      rewrite Htemps1, lookup_insert_ne by exact N2.
      rewrite Htwo, Hcount1, Hdiv. reflexivity.
    + cbn [key]. intros Hkey. exfalso.
      assert (Hcases : event_count self mod 3 = 0 \/ event_count self mod 3 = 1)
        by lia.
      destruct Hcases as [E | E]; rewrite E in Hkey; discriminate.
Qed.

Lemma heating_run inputs : forall self,
  heating self ->
  Forall (fun i => high_draw (fst i)) inputs ->
  114 - event_count self <= Z.of_nat (length inputs) ->
  exists evs self',
    run inputs self = Ok (evs, self') /\
    Z.of_nat (length evs) = 114 - event_count self /\
    running self' = false /\
    machine_temps self' !! 2 = Some 100 /\
    (forall k ev, evs !! k = Some ev -> key ev = "2" ->
       Temperature_C ev = 63 + (event_count self + Z.of_nat k) / 3).
Proof.
  induction inputs as [| [u now] rest IH]; intros self Hheat Hdraws Hlen.
  - destruct Hheat as (_ & _ & _ & Hcount & _). cbn in Hlen. lia.
  - apply Forall_cons in Hdraws as [Hu Hrest]. cbn in Hu.
    pose proof Hheat as (_ & _ & Hrun & Hcount & _).
    destruct (heating_round u now self Hheat Hu)
      as (ev & self1 & Hev & Hcount1 & Hlast & Hmore & Hreading).
    cbn [run]. rewrite Hrun, Hev.
    destruct (decide (event_count self = 113)) as [E113 | N113].
    + destruct (Hlast E113) as [Hstop H100].
      rewrite (run_stopped rest self1 Hstop).
      eexists _, self1. split; [reflexivity |].
      split; [cbn [length]; lia |]. split; [exact Hstop |]. split; [exact H100 |].
      intros [| k] ev' Hk Hkey; [| destruct k; discriminate].
      injection Hk as <-. rewrite Z.add_0_r. apply Hreading, Hkey.
    + destruct (IH self1) as (evs & self' & Hrest_run & Hlen' & Hstop & H100 & Hrise).
      * apply Hmore. lia.
      * exact Hrest.
      * cbn [length] in Hlen. lia.
      * rewrite Hrest_run. eexists _, self'. split; [reflexivity |].
        split; [cbn [length]; lia |]. split; [exact Hstop |]. split; [exact H100 |].
        intros [| k] ev' Hk Hkey.
        -- injection Hk as <-. rewrite Z.add_0_r. apply Hreading, Hkey.
        -- rewrite (Hrise k ev' Hk Hkey), Hcount1. f_equal. f_equal. lia.
Qed.

Lemma heating_init : heating __init__.
Proof.
  split; [apply invariant_init |]. split; [apply ranges_init |].
  repeat split; cbn; lia.
Qed.

(** X4.  Under steady heating the generator ends: if every draw falls on
    the upper seven tenths, machine 2 gains a degree at each of its turns
    (its reading at position k is 63 + k / 3), reaches 100 at its 38th
    reading, and the generator stops after exactly 114 events however many
    more inputs there are. *)
Theorem steady_heating_stops_after_114_events (inputs : list (Q * Z)) :
  Forall (fun i => high_draw (fst i)) inputs ->
  (114 <= length inputs)%nat ->
  exists evs self',
    run inputs __init__ = Ok (evs, self') /\
    length evs = 114%nat /\
    running self' = false /\
    machine_temps self' !! 2 = Some 100 /\
    (forall k ev, evs !! k = Some ev -> key ev = "2" ->
       Temperature_C ev = 63 + Z.of_nat k / 3).
Proof.
  intros Hdraws Hlen.
  destruct (heating_run inputs __init__ heating_init Hdraws)
    as (evs & self' & Hrun & Hevs & Hstop & H100 & Hrise).
  - cbn. lia.
  - exists evs, self'. split; [exact Hrun |]. cbn in Hevs.
    split; [lia |]. split; [exact Hstop |]. split; [exact H100 |].
    intros k ev Hk Hkey. rewrite (Hrise k ev Hk Hkey). reflexivity.
Qed.

Lemma steady_heating_stops_after_114_events_witness :
  exists evs self',
    run (replicate 120 (1 # 2, 0)) __init__ = Ok (evs, self') /\
    length evs = 114%nat /\
    running self' = false /\
    machine_temps self' !! 2 = Some 100 /\
    (forall k ev, evs !! k = Some ev -> key ev = "2" ->
       Temperature_C ev = 63 + Z.of_nat k / 3).
Proof.
  apply (steady_heating_stops_after_114_events (replicate 120 (1 # 2, 0))).
  - apply Forall_replicate. split; cbn; unfold Qle, Qlt; cbn; lia.
  - rewrite length_replicate. lia.
Defined.

End TemperatureRounds.

(** ** The file source: without pacing, with a stray folder, and how much
    sleep it asks for *)

Section FileSourcePasses.
Import FileSource.
Variable int : string -> Result Z.
Variable file_read : Path -> list record.

Lemma for_each_app {S E X} (l1 l2 : list X) (body : X -> M S E unit) (s : S) :
  for_each (l1 ++ l2) body s
  = bind (for_each l1 body) (fun _ => for_each l2 body) s.
Proof.
  revert s. induction l1 as [| x l1 IH]; intros s.
  - cbn [app for_each]. unfold bind, ret. cbn [out st ev app].
    destruct (for_each l2 body s); reflexivity.
  - cbn [app for_each]. unfold bind.
    destruct (body x s) as [[a | e] s1 evs1]; cbn [out st ev]; [| reflexivity].
    rewrite IH. unfold bind.
    destruct (for_each l1 body s1) as [[b | e] s2 evs2]; cbn [out st ev];
      [| reflexivity].
    destruct (for_each l2 body s2) as [o s3 evs3]; cbn [out st ev].
    rewrite app_assoc. reflexivity.
Qed.

(** The files of a pass, not replayed: records and flushes only. *)
Lemma plain_files files : forall self,
  _as_replay self = false ->
  Forall (parses int) files ->
  out (for_each files (run_file int file_read) self) = Ok tt /\
  ev (for_each files (run_file int file_read) self)
  = flat_map (unpaced file_read) files.
Proof.
  induction files as [| file files IH]; intros self Hplain Hparse.
  - split; reflexivity.
  - apply Forall_cons in Hparse as [Hfile Hfiles].
    cbn [for_each flat_map]. unfold bind.
    rewrite (run_file_plain int file_read _ _ _ (parses_partition int _ Hfile) Hplain).
    cbn [out st ev].
    destruct (IH (tracked (partition_number int file) self)) as [Hout Hev].
    + rewrite (proj1 (tracked_fields _ self)). exact Hplain.
    + exact Hfiles.
    + rewrite Hout, Hev. split; reflexivity.
Qed.

(** X5.  A source built with [as_replay=False] never sleeps: a pass
    produces the records of each file the finder yields, in order, with a
    flush after each file, and nothing else. *)
Theorem plain_run_never_sleeps (fuel : nat) (tree : Node) (self : t) :
  _running self = true ->
  _as_replay self = false ->
  Forall (parses int) (_file_finder (_filepath self) tree) ->
  let r := run int file_read (S fuel) tree self in
  out r = Ok (Some tt) /\
  ev r = flat_map (unpaced file_read) (_file_finder (_filepath self) tree).
Proof.
  intros Hrun Hplain Hparse. cbn zeta. rewrite run_unfold, Hrun.
  destruct (plain_files _ self Hplain Hparse) as [Hout Hev].
  cbn zeta. cbn [out ev]. rewrite Hout, Hev. split; reflexivity.
Qed.

Lemma pause_allowed self diff :
  _as_replay self = true -> Forall (sleep_allowed self) (pause diff).
Proof.
  intros Hreplay. unfold pause. destruct (Z.ltb_spec 0 diff); constructor; [| constructor].
  split; [| exact Hreplay]. unfold Qlt. cbn. lia.
Qed.

Lemma paced_after_allowed self rs : forall previous,
  _as_replay self = true -> Forall (sleep_allowed self) (paced_after previous rs).
Proof.
  induction rs as [| r rs IH]; intros previous Hreplay; [constructor |].
  cbn [paced_after]. apply Forall_app. split; [apply pause_allowed, Hreplay |].
  constructor; [exact I | apply IH, Hreplay].
Qed.

Lemma paced_from_allowed self previous rs :
  _as_replay self = true -> Forall (sleep_allowed self) (paced_from previous rs).
Proof.
  intros Hreplay. destruct previous as [previous |]; cbn [paced_from].
  - apply paced_after_allowed, Hreplay.
  - destruct rs as [| r rs]; [constructor |]. cbn [paced].
    constructor; [exact I | apply paced_after_allowed, Hreplay].
Qed.

Lemma run_file_raises file e self :
  int (PurePath.name (PurePath.parent file)) = Raise e ->
  run_file int file_read file self = mkOutcome (Raise e) self [].
Proof.
  intros Hint. unfold run_file, _check_file_partition_number, bind, lift.
  cbn [out st ev]. rewrite Hint. reflexivity.
Qed.

(** A step keeps the pace of a source [self0]: its sleeps are allowed and
    the mode of the source stays. *)
#[local] Abbreviation keeps_pace self0 r :=
  (Forall (sleep_allowed self0) (ev r) /\ _as_replay (st r) = _as_replay self0).

Lemma bind_keeps_pace self0 {A B} (m : M t Effect A) (f : A -> M t Effect B) s :
  keeps_pace self0 (m s) ->
  (forall a s', _as_replay s' = _as_replay self0 -> keeps_pace self0 (f a s')) ->
  keeps_pace self0 (bind m f s).
Proof.
  intros [Hev Hmode] Hf. unfold bind.
  destruct (out (m s)) as [a | e]; cbn [out st ev]; [| split; assumption].
  destruct (Hf a (st (m s)) Hmode) as [Hev' Hmode'].
  split; [apply Forall_app; split; assumption | exact Hmode'].
Qed.

Lemma for_each_keeps_pace self0 {X} (l : list X) (body : X -> M t Effect unit) :
  (forall x s, _as_replay s = _as_replay self0 -> keeps_pace self0 (body x s)) ->
  forall s, _as_replay s = _as_replay self0 ->
    keeps_pace self0 (for_each l body s).
Proof.
  intros Hbody. induction l as [| x l IH]; intros s Hmode.
  - split; [constructor | exact Hmode].
  - cbn [for_each]. apply bind_keeps_pace; [apply Hbody, Hmode |].
    intros _ s' Hmode'. apply IH, Hmode'.
Qed.

Lemma _replay_delay_keeps_pace self0 current s :
  _as_replay s = _as_replay self0 -> _as_replay self0 = true ->
  keeps_pace self0 (_replay_delay current s).
Proof.
  intros Hmode Hreplay. unfold _replay_delay, bind, gets, lift, modify.
  cbn [out st ev].
  destruct (_previous_timestamp s) as [previous |]; cbn [out st ev app];
    [| split; [constructor | exact Hmode]].
  destruct (float.div_1000 (current - previous)) as [time_diff | e];
    cbn [out st ev app]; [| split; [constructor | exact Hmode]].
  unfold float.gt_zero.
  destruct (Qlt_le_dec 0 (float.quotient time_diff)) as [Hpositive | _];
    unfold emit, ret; cbn [out st ev app]; (split; [| exact Hmode]).
  - repeat constructor; assumption.
  - constructor.
Qed.

Lemma produce_record_keeps_pace self0 r s :
  _as_replay s = _as_replay self0 -> keeps_pace self0 (produce_record r s).
Proof.
  intros Hmode. unfold produce_record.
  apply bind_keeps_pace.
  - unfold bind, gets. cbn [out st ev app].
    destruct (_as_replay s) eqn:Hreplay.
    + destruct (_replay_delay_keeps_pace self0 (_timestamp r) s)
        as [Hev Hmode']; [congruence | congruence |].
      destruct (_replay_delay (_timestamp r) s) as [[[] | e] s1 evs1];
        cbn [out st ev] in *; split; assumption.
    + unfold ret. cbn [out st ev]. split; [apply List.Forall_nil | congruence].
  - intros _ s' Hmode'. unfold _produce, emit. cbn [out st ev].
    split; [repeat constructor | exact Hmode'].
Qed.

(** One file: its sleeps are allowed, and the mode of the source stays. *)
Lemma run_file_allowed self0 file s :
  _as_replay s = _as_replay self0 ->
  keeps_pace self0 (run_file int file_read file s).
Proof.
  intros Hmode. unfold run_file.
  apply bind_keeps_pace.
  - destruct (int (PurePath.name (PurePath.parent file))) as [partition | e] eqn:Hint.
    + rewrite (_check_file_partition_number_outcome int _ _ _ Hint). cbn [out st ev].
      split; [constructor |].
      rewrite (proj1 (tracked_fields partition s)). exact Hmode.
    + unfold _check_file_partition_number, bind, lift. cbn [out st ev].
      rewrite Hint. split; [constructor | exact Hmode].
  - intros _ s' Hmode'. apply bind_keeps_pace.
    + apply for_each_keeps_pace; [| exact Hmode'].
      intros r s'' Hmode''. apply produce_record_keeps_pace, Hmode''.
    + intros _ s'' Hmode''. split; [repeat constructor | exact Hmode''].
Qed.

Lemma run_files_allowed files : forall self,
  Forall (sleep_allowed self) (ev (for_each files (run_file int file_read) self)).
Proof.
  intros self. apply (for_each_keeps_pace self); [| reflexivity].
  intros file s Hmode. apply run_file_allowed, Hmode.
Qed.

(** X6.  Whatever the tree and the files hold, a source sleeps only in
    replay mode and only for a positive time: no trace of [run] has a sleep
    of zero or negative length, and none at all when [as_replay] is off. *)
Theorem run_sleeps_only_forward (fuel : nat) (tree : Node) (self : t) :
  Forall (sleep_allowed self) (ev (run int file_read fuel tree self)).
Proof.
  destruct fuel as [| fuel]; [constructor |].
  rewrite run_unfold. destruct (_running self); [| constructor].
  cbn zeta. cbn [ev]. apply run_files_allowed.
Qed.

(** X7.  A folder whose name is not a number ends the pass: [run] raises
    what [int] raises at the first file of such a folder.  By then each of
    the files before it has had its records produced, in order, and then
    its flush, file after file; nothing of that file or of the files after
    it is produced or flushed. *)
Theorem run_stops_at_a_stray_folder (fuel : nat) (tree : Node) (self : t)
    (before after : list Path) (stray : Path) (e : Exception) :
  _running self = true ->
  _file_finder (_filepath self) tree = before ++ stray :: after ->
  Forall (parses int) before ->
  timed file_read self before ->
  int (PurePath.name (PurePath.parent stray)) = Raise e ->
  let r := run int file_read (S fuel) tree self in
  out r = Raise e /\
  unslept (ev r) = flat_map (unpaced file_read) before /\
  produced (ev r) = flat_map file_read before /\
  flushes (ev r) = length before.
Proof.
  intros Hrun Hfiles Hbefore Htimed Hstray. cbn zeta.
  rewrite run_unfold, Hrun, Hfiles, for_each_app. cbn zeta.
  destruct (run_files_records int file_read before self Hbefore Htimed)
    as (Hout & Hproduced & Hflushes & _ & _ & Hunslept).
  unfold bind. rewrite Hout. cbn [for_each]. unfold bind.
  rewrite (run_file_raises _ _ _ Hstray). cbn [out st ev].
  rewrite app_nil_r. repeat split; assumption.
Qed.

(** *** How much sleep a replay asks for *)

Lemma millis_plus a b : ((a # 1000) + (b # 1000) == (a + b) # 1000)%Q.
Proof. unfold Qeq, Qplus. cbn. lia. Qed.

Lemma seconds_asked_app evs evs' :
  (seconds_asked (evs ++ evs') == seconds_asked evs + seconds_asked evs')%Q.
Proof.
  induction evs as [| e evs IH].
  - cbn [app]. change (seconds_asked []) with 0%Q. rewrite Qplus_0_l. reflexivity.
  - change (seconds_asked ((e :: evs) ++ evs'))
      with (match e with
            | Sleep seconds => float.quotient seconds + seconds_asked (evs ++ evs')
            | _ => seconds_asked (evs ++ evs')
            end)%Q.
    change (seconds_asked (e :: evs))
      with (match e with
            | Sleep seconds => float.quotient seconds + seconds_asked evs
            | _ => seconds_asked evs
            end)%Q.
    destruct e; rewrite IH; [apply Qplus_assoc | reflexivity | reflexivity].
Qed.

Lemma seconds_asked_pacing evs : (seconds_asked (pacing evs) == seconds_asked evs)%Q.
Proof.
  induction evs as [| e evs IH]; [reflexivity |].
  destruct e; cbn [pacing List.filter is_flush negb seconds_asked fold_right];
    fold (pacing evs); fold (seconds_asked (pacing evs)); fold (seconds_asked evs);
    rewrite ?IH; reflexivity.
Qed.

Lemma seconds_asked_pause diff : (seconds_asked (pause diff) == Z.max 0 diff # 1000)%Q.
Proof.
  unfold pause. destruct (Z.ltb_spec 0 diff); cbn.
  - rewrite Z.max_r by lia. ring.
  - rewrite Z.max_l by lia. reflexivity.
Qed.

Lemma seconds_asked_paced_after rs : forall previous,
  (seconds_asked (paced_after previous rs) == paused_after previous rs # 1000)%Q.
Proof.
  induction rs as [| r rs IH]; intros previous; [reflexivity |].
  cbn [paced_after paused_after].
  rewrite seconds_asked_app, seconds_asked_pause.
  change (seconds_asked (Produce r :: paced_after (_timestamp r) rs))
    with (seconds_asked (paced_after (_timestamp r) rs)).
  rewrite IH. apply millis_plus.
Qed.

Lemma seconds_asked_paced rs : (seconds_asked (paced rs) == paused rs # 1000)%Q.
Proof.
  destruct rs as [| r rs]; [reflexivity |]. cbn [paced paused].
  change (seconds_asked (Produce r :: paced_after (_timestamp r) rs))
    with (seconds_asked (paced_after (_timestamp r) rs)).
  apply seconds_asked_paced_after.
Qed.

(** The pauses make up at least the span, and exactly the span when the
    timestamps never go back. *)
Lemma paused_after_span rs : forall previous,
  span_after previous rs <= paused_after previous rs /\
  (ascending rs ->
   (forall r, head rs = Some r -> previous <= _timestamp r) ->
   paused_after previous rs = span_after previous rs).
Proof.
  induction rs as [| r rs IH]; intros previous; [split; [cbn; lia | reflexivity] |].
  destruct (IH (_timestamp r)) as [Hle Heq].
  assert (Hspan : span_after previous (r :: rs)
                  = (_timestamp r - previous) + span_after (_timestamp r) rs).
  { destruct rs as [| r' rs']; cbn [span_after]; [cbn; lia |].
    rewrite (last_shift rs' r' r). lia. }
  rewrite Hspan. cbn [paused_after]. split; [lia |].
  intros Hsorted Hhead. specialize (Hhead r eq_refl).
  apply Sorted_inv in Hsorted as [Hsorted Hfirst].
  rewrite Heq; [lia | exact Hsorted |].
  intros r' Hr'. destruct rs as [| r0 rs0]; [discriminate |].
  injection Hr' as <-. apply HdRel_inv in Hfirst. exact Hfirst.
Qed.

Lemma paused_span rs :
  span rs <= paused rs /\ (ascending rs -> paused rs = span rs).
Proof.
  destruct rs as [| r rs]; [split; [cbn; lia | reflexivity] |].
  cbn [span paused]. destruct (paused_after_span rs (_timestamp r)) as [Hle Heq].
  split; [exact Hle |]. intros Hsorted.
  apply Sorted_inv in Hsorted as [Hsorted Hfirst]. apply Heq; [exact Hsorted |].
  intros r' Hr'. destruct rs as [| r0 rs0]; [discriminate |].
  injection Hr' as <-. apply HdRel_inv in Hfirst. exact Hfirst.
Qed.

Lemma seconds_asked_stretches groups :
  (seconds_asked (flat_map (fun g => paced (snd g)) groups)
   == stretch_pauses groups # 1000)%Q.
Proof.
  induction groups as [| g groups IH]; [reflexivity |].
  cbn [flat_map stretch_pauses fold_right]. fold (stretch_pauses groups).
  rewrite seconds_asked_app, seconds_asked_paced, IH. apply millis_plus.
Qed.

Lemma stretch_pauses_spans groups :
  stretch_spans groups <= stretch_pauses groups /\
  (Forall (fun g => ascending (snd g)) groups ->
   stretch_pauses groups = stretch_spans groups).
Proof.
  induction groups as [| g groups [Hle Heq]]; [split; [cbn; lia | reflexivity] |].
  cbn [stretch_spans stretch_pauses fold_right].
  fold (stretch_spans groups). fold (stretch_pauses groups).
  destruct (paused_span (snd g)) as [Hle1 Heq1].
  split; [lia |]. intros Hall. apply Forall_cons in Hall as [Hg Hall].
  rewrite Heq1, Heq by assumption. reflexivity.
Qed.

(** X8.  A replay asks for no less sleep than the records span.  Each
    sleep of a pass is for the float nearest to a quotient
    (current - previous) / 1000; these quotients add up to at least the sum,
    over the stretches of one partition number, of the time from the first
    to the last record of the stretch, and to exactly that sum when within
    every stretch the timestamps never go back.  (The sum is that of the
    quotients, before each is rounded to its float.) *)
Theorem replay_sleeps_for_the_recorded_span (fuel : nat) (tree : Node)
    (filepath : Path) (name : option string) (shutdown_timeout : Q) :
  let self := start (__init__ filepath true name shutdown_timeout) in
  let groups := stretches (tagged int file_read (_file_finder filepath tree)) in
  Forall (parses int) (_file_finder filepath tree) ->
  Forall (fun file => timely_records (file_read file)) (_file_finder filepath tree) ->
  let asked := seconds_asked (ev (run int file_read (S fuel) tree self)) in
  (stretch_spans groups # 1000 <= asked)%Q /\
  (Forall (fun g => ascending (snd g)) groups ->
   (asked == stretch_spans groups # 1000)%Q).
Proof.
  cbn zeta. intros Hparse Htimely.
  set (self := start (__init__ filepath true name shutdown_timeout)).
  set (groups := stretches (tagged int file_read (_file_finder filepath tree))).
  assert (Hslept : (seconds_asked (ev (run int file_read (S fuel) tree self))
                    == stretch_pauses groups # 1000)%Q).
  { rewrite run_unfold. cbn [_running self start]. cbn zeta. cbn [ev].
    destruct (replay_files int file_read _ self eq_refl I Htimely Hparse) as [_ Hev].
    rewrite <- seconds_asked_pacing. cbn [_filepath self start __init__] in *.
    rewrite Hev. cbn [_previous_partition _previous_timestamp self start __init__].
    fold groups. rewrite <- seconds_asked_stretches.
    destruct groups as [| [p rs] more]; reflexivity. }
  destruct (stretch_pauses_spans groups) as [Hle Heq].
  split.
  - rewrite Hslept. unfold Qle. cbn. lia.
  - intros Hsorted. rewrite Hslept, (Heq Hsorted). reflexivity.
Qed.

End FileSourcePasses.

(** *** The passes over the sample folder *)

Section FileSourcePassesSample.
Import FileSource.

Lemma ordered_timely file : timely_records (Sample.ordered_file_read file).
Proof.
  unfold Sample.ordered_file_read, timely_records, timely.
  repeat case_decide; repeat (constructor; [cbn; lia |]); constructor.
Qed.

Lemma replay_sleeps_for_the_recorded_span_witness :
  let groups :=
    stretches (tagged Decimal.int Sample.ordered_file_read
                 (_file_finder ["topic_a"] Sample.topic_a)) in
  let asked :=
    seconds_asked (ev (run Decimal.int Sample.ordered_file_read 1 Sample.topic_a
                         Sample.source)) in
  (stretch_spans groups # 1000 <= asked)%Q /\
  (Forall (fun g => ascending (snd g)) groups ->
   (asked == stretch_spans groups # 1000)%Q).
Proof.
  apply (replay_sleeps_for_the_recorded_span Decimal.int Sample.ordered_file_read
           0 Sample.topic_a ["topic_a"] None 10).
  - exact sample_parses.
  - apply Forall_forall. intros file _. apply ordered_timely.
Defined.

Lemma plain_run_never_sleeps_witness :
  let r := run Decimal.int Sample.file_read 1 Sample.topic_a Sample.plain_source in
  out r = Ok (Some tt) /\
  ev r = flat_map (unpaced Sample.file_read)
           (_file_finder (_filepath Sample.plain_source) Sample.topic_a).
Proof.
  apply (plain_run_never_sleeps Decimal.int Sample.file_read 0 Sample.topic_a
           Sample.plain_source); [reflexivity | reflexivity | exact sample_parses].
Defined.

Lemma run_stops_at_a_stray_folder_witness :
  let r := run Decimal.int Sample.file_read 1 Sample.topic_with_stray_folder
             Sample.source in
  out r = Raise ValueError /\
  unslept (ev r)
  = flat_map (unpaced Sample.file_read)
      [ ["topic_a"; "0"; "0000.ext"]; ["topic_a"; "0"; "0011.ext"] ] /\
  produced (ev r)
  = flat_map Sample.file_read
      [ ["topic_a"; "0"; "0000.ext"]; ["topic_a"; "0"; "0011.ext"] ] /\
  flushes (ev r) = 2%nat.
Proof.
  apply (run_stops_at_a_stray_folder Decimal.int Sample.file_read 0
           Sample.topic_with_stray_folder Sample.source
           [ ["topic_a"; "0"; "0000.ext"]; ["topic_a"; "0"; "0011.ext"] ] []
           ["topic_a"; "latest"; "0020.ext"] ValueError).
  - reflexivity.
  - reflexivity.
  - repeat constructor.
  - intros _. split; [exact I |]. apply Forall_forall. intros file _.
    apply sample_timely.
  - reflexivity.
Defined.

End FileSourcePassesSample.

(** ** What [_file_finder] reaches *)

Section FileFinderReach.

Lemma get_item {K V} `{EqDecision K} (k : K) (v : V) (d : PyDict.t K V) :
  PyDict.get k d = Some v -> (k, v) ∈ d.
Proof.
  induction d as [| [k' v'] d IH]; cbn; [discriminate |].
  destruct (decide (k = k')) as [-> | Hne]; intros Hget.
  - injection Hget as ->. apply list_elem_of_here.
  - apply list_elem_of_further, IH, Hget.
Qed.

Lemma path_lt_irrefl p : ~ path_lt p p.
Proof.
  induction p as [| a p IH]; intros H; inversion H; subst.
  - rewrite ltb_irrefl in *. discriminate.
  - apply IH. assumption.
Qed.

Lemma StronglySorted_NoDup {A} (R : relation A) (l : list A) :
  (forall x, ~ R x x) -> StronglySorted R l -> NoDup l.
Proof.
  intros Hirrefl Hsorted. induction Hsorted as [| x l Hsorted IH Hall].
  - constructor.
  - constructor; [| exact IH].
    intros Hin. eapply Forall_forall in Hall; [| exact Hin].
    exact (Hirrefl _ Hall).
Qed.

Lemma file_finder_reaches tree :
  unique_names tree ->
  forall filepath f,
    f ∈ _file_finder filepath tree <->
    exists relative, f = filepath ++ relative /\ resolve relative tree = Some File.
Proof.
  induction tree as [| entries IH] using Node_induction; intros Huniq filepath f.
  - cbn [_file_finder]. rewrite list_elem_of_singleton. split.
    + intros ->. exists []. rewrite app_nil_r. split; reflexivity.
    + intros (relative & -> & Hres).
      destruct relative; [apply app_nil_r | discriminate].
  - apply unique_names_Dir in Huniq as [Hnd Hsub].
    rewrite _file_finder_Dir. split.
    + intros Hf. apply list_elem_of_In, in_flat_map in Hf as (i & Hi & Hf).
      apply list_elem_of_In in Hi, Hf. rewrite sorted_Permutation in Hi.
      pose proof (proj1 (Forall_forall _ _) IH i Hi) as IHi.
      pose proof (proj1 (Forall_forall _ _) Hsub i Hi) as Hui.
      apply (IHi Hui) in Hf as (relative & -> & Hres).
      exists (fst i :: relative). split.
      * unfold PurePath.joinpath. rewrite <- app_assoc. reflexivity.
      * cbn [resolve]. destruct i as [name child].
        rewrite (wf_get_item name child entries Hnd Hi). exact Hres.
    + intros (relative & -> & Hres).
      destruct relative as [| name relative]; [discriminate |].
      cbn [resolve] in Hres.
      destruct (PyDict.get name entries) as [child |] eqn:Hget; [| discriminate].
      apply get_item in Hget.
      pose proof (proj1 (Forall_forall _ _) IH _ Hget) as IHi.
      pose proof (proj1 (Forall_forall _ _) Hsub _ Hget) as Hui.
      apply list_elem_of_In, in_flat_map. exists (name, child). split.
      * apply list_elem_of_In. rewrite sorted_Permutation. exact Hget.
      * apply list_elem_of_In. unfold finder_entry. apply (IHi Hui).
        exists relative. split; [| exact Hres].
        unfold PurePath.joinpath. cbn [fst]. rewrite <- app_assoc. reflexivity.
Qed.

(** X9.  [_file_finder] yields exactly the regular files found by walking
    down from [filepath], each of them once: a path is yielded if and only
    if it is [filepath] followed by names that lead, directory by directory,
    to a file.  A directory is never yielded, whatever it holds. *)
Theorem file_finder_yields_the_files_once (filepath : Path) (tree : Node) :
  unique_names tree ->
  NoDup (_file_finder filepath tree) /\
  (forall f,
     f ∈ _file_finder filepath tree <->
     exists relative, f = filepath ++ relative /\ resolve relative tree = Some File) /\
  (forall relative entries,
     resolve relative tree = Some (Dir entries) ->
     filepath ++ relative ∉ _file_finder filepath tree).
Proof.
  intros Huniq. split; [| split].
  - apply (StronglySorted_NoDup path_lt); [exact path_lt_irrefl |].
    apply file_finder_sorted, Huniq.
  - intros f. apply file_finder_reaches, Huniq.
  - intros relative entries Hres Hin.
    apply (file_finder_reaches tree Huniq) in Hin as (relative' & Heq & Hfile).
    apply app_inv_head in Heq. subst relative'. congruence.
Qed.

Lemma file_finder_yields_the_files_once_witness :
  NoDup (_file_finder ["topic_a"] Sample.topic_with_stray_folder) /\
  (forall f,
     f ∈ _file_finder ["topic_a"] Sample.topic_with_stray_folder <->
     exists relative,
       f = ["topic_a"] ++ relative /\
       resolve relative Sample.topic_with_stray_folder = Some File) /\
  (forall relative entries,
     resolve relative Sample.topic_with_stray_folder = Some (Dir entries) ->
     ["topic_a"] ++ relative ∉ _file_finder ["topic_a"] Sample.topic_with_stray_folder).
Proof.
  apply (file_finder_yields_the_files_once ["topic_a"] Sample.topic_with_stray_folder).
  cbn. repeat split; apply (bool_decide_unpack _); vm_compute; exact I.
Defined.

End FileFinderReach.

(** ** Registering a store and getting it back *)

Section RegistryUse.
Import StateStoreManager.
Variable changelog_topic_name : option string -> string -> string.

Lemma get_store_outcome topic store_name w :
  get_store topic store_name w
  = mkOutcome
      (match lookup topic store_name (self w) with
       | Some store => Ok store
       | None => Raise StoreNotRegisteredError
       end) w [].
Proof.
  unfold get_store, bind, gets. cbn [out st ev].
  destruct (lookup topic store_name (self w)); reflexivity.
Qed.

(** X10.  A first registration and [get_store] fit together: before it
    [get_store] raises [StoreNotRegisteredError] for the pair; after it
    [get_store] returns a store of the class asked for (the default class of
    the manager when no class is given) with the name and topic of the pair,
    the changelog factory of the manager and no partitions.  What
    [get_store] gives for every other pair is as before, the name comes
    last among the stores of the topic, and the disk is not touched. *)
Theorem register_store_then_get_store
    (topic_name : option string) (store_name : string)
    (store_type : option StoreType) (topic_config : option TopicConfig)
    (c : StoreClass) (w : World) :
  lookup topic_name store_name (self w) = None ->
  default (_default_store_type (self w)) store_type = SupportedStore c ->
  c <> WindowedRocksDBStore ->
  let r := register_store changelog_topic_name topic_name store_name store_type
             topic_config w in
  out (get_store topic_name store_name w) = Raise StoreNotRegisteredError /\
  out r = Ok tt /\
  (exists store,
     out (get_store topic_name store_name (st r)) = Ok store /\
     Store.class store = c /\
     Store.name store = store_name /\
     Store.topic store = topic_name /\
     Store.changelog_producer_factory store
     = changelog_factory changelog_topic_name topic_name store_name (self w) /\
     Store.partitions store = []) /\
  (forall topic' store_name',
     (topic_name, store_name) <> (topic', store_name') ->
     out (get_store topic' store_name' (st r)) = out (get_store topic' store_name' w)) /\
  PyDict.keys (topic_stores topic_name (self (st r)))
  = PyDict.keys (topic_stores topic_name (self w)) ++ [store_name] /\
  fs (st r) = fs w.
Proof.
  intros Hlookup Htype Hclass. cbn zeta.
  rewrite (register_store_fresh _ _ _ _ _ _ Hlookup). cbn zeta. rewrite Htype.
  rewrite !get_store_outcome, Hlookup. cbn [out].
  split; [reflexivity |].
  destruct c; [| | congruence]; cbn [out st ev on_self self fs].
  all: split; [reflexivity |].
  all: split; [eexists; cbn [out self]; rewrite lookup_put_eq; repeat split |].
  all: split; [intros topic' store_name' Hne; rewrite !get_store_outcome;
               cbn [out self on_self]; rewrite lookup_put_ne by exact Hne;
               reflexivity |].
  all: split; [| reflexivity].
  all: rewrite topic_stores_put_eq; apply keys_set_absent; exact Hlookup.
Qed.

(** X11.  A store type that is neither [RocksDBStore] nor [MemoryStore] is
    refused with [ValueError] and nothing is registered, but only after the
    changelog topic of the store has been registered with the recovery
    manager: the manager and the disk are as before, the recovery manager has
    been called. *)
Theorem register_store_checks_the_type_late
    (topic_name : option string) (store_name : string)
    (store_type : option StoreType) (topic_config : option TopicConfig)
    (w : World) :
  lookup topic_name store_name (self w) = None ->
  default (_default_store_type (self w)) store_type <> SupportedStore RocksDBStore ->
  default (_default_store_type (self w)) store_type <> SupportedStore MemoryStore ->
  let r := register_store changelog_topic_name topic_name store_name store_type
             topic_config w in
  out r = Raise ValueError /\
  st r = w /\
  out (get_store topic_name store_name (st r)) = Raise StoreNotRegisteredError /\
  (is_Some (_recovery_manager (self w)) -> is_Some (_producer (self w)) ->
   ev r = [RegisterChangelog topic_name store_name topic_config]).
Proof.
  intros Hlookup Hrocks Hmemory. cbn zeta.
  rewrite (register_store_fresh _ _ _ _ _ _ Hlookup). cbn zeta.
  destruct (default (_default_store_type (self w)) store_type) as [[| |] | ?];
    try congruence; cbn [out st ev].
  all: rewrite get_store_outcome, Hlookup; cbn [out].
  all: repeat split.
  all: intros [manager Hmanager] [producer Hproducer].
  all: unfold changelog_calls; rewrite Hmanager, Hproducer; reflexivity.
Qed.

End RegistryUse.

Section RegistryUseSample.
Import StateStoreManager.

Lemma register_store_then_get_store_witness :
  let r := register_store Sample.changelog_topic_name (Some "orders") "default"
             None None Sample.world in
  out (get_store (Some "orders") "default" Sample.world)
  = Raise StoreNotRegisteredError /\
  out r = Ok tt /\
  (exists store,
     out (get_store (Some "orders") "default" (st r)) = Ok store /\
     Store.class store = RocksDBStore /\
     Store.name store = "default" /\
     Store.topic store = Some "orders" /\
     Store.changelog_producer_factory store
     = changelog_factory Sample.changelog_topic_name (Some "orders") "default"
         (self Sample.world) /\
     Store.partitions store = []) /\
  (forall topic' store_name',
     (Some "orders", "default") <> (topic', store_name') ->
     out (get_store topic' store_name' (st r))
     = out (get_store topic' store_name' Sample.world)) /\
  PyDict.keys (topic_stores (Some "orders") (self (st r)))
  = PyDict.keys (topic_stores (Some "orders") (self Sample.world)) ++ ["default"] /\
  fs (st r) = fs Sample.world.
Proof.
  apply (register_store_then_get_store Sample.changelog_topic_name (Some "orders")
           "default" None None RocksDBStore Sample.world);
    [reflexivity | reflexivity | discriminate].
Defined.

Lemma register_store_checks_the_type_late_witness :
  let r := register_store Sample.changelog_topic_name (Some "orders") "default"
             (Some (SupportedStore WindowedRocksDBStore)) None Sample.world in
  out r = Raise ValueError /\
  st r = Sample.world /\
  out (get_store (Some "orders") "default" (st r)) = Raise StoreNotRegisteredError /\
  (is_Some (_recovery_manager (self Sample.world)) ->
   is_Some (_producer (self Sample.world)) ->
   ev r = [RegisterChangelog (Some "orders") "default" None]).
Proof.
  apply (register_store_checks_the_type_late Sample.changelog_topic_name
           (Some "orders") "default" (Some (SupportedStore WindowedRocksDBStore))
           None Sample.world);
    [reflexivity | discriminate | discriminate].
Defined.

End RegistryUseSample.

(** ** The registry through a rebalance *)

Section RebalanceState.
Import StateStoreManager.
Variable system : OS.
Variable opens : Store.t -> Z -> FileSystem -> FileSystem.
Variable topic : option string.
Variable partition : Z.

#[local] Abbreviation revoke_call := (StoreRevokePartition topic).






Lemma on_self_same w : on_self (fun m => m) w = w.
Proof. destruct w; reflexivity. Qed.













Lemma on_partition_assign_state committed_offsets w :
  st (on_partition_assign opens topic partition committed_offsets w)
  = st (assign_each opens topic partition (topic_stores topic (self w)) [] w).
Proof.
  unfold on_partition_assign, bind, gets. cbn [out st ev].
  destruct (assign_each_outcome opens topic partition
              (topic_stores topic (self w)) [] w) as (Hout & _).
  cbn zeta in Hout. rewrite Hout. cbn [out st ev].
  destruct (_recovery_manager (self w));
    [destruct (fold_left _ _ _) |]; reflexivity.
Qed.


Lemma assigned_holds store :
  Store.partitions (snd (Store.assign_partition partition store)) <> [].
Proof.
  unfold Store.assign_partition.
  destruct (PyDict.get partition (Store.partitions store)) as [p |] eqn:Hget; cbn.
  - intros Hnil. rewrite Hnil in Hget. discriminate.
  - intros Hnil. apply (f_equal (PyDict.get partition)) in Hnil.
    rewrite get_set_eq in Hnil. discriminate.
Qed.


(** X12.  Once a partition has been assigned on a topic that has stores,
    [clear_stores] refuses: it raises [PartitionStoreIsUsed] and touches
    neither the manager nor the disk. *)
Theorem clear_stores_refused_after_assign
    (committed_offsets : PyDict.t string Z) (w : World) :
  PyDict.wf (topic_stores topic (self w)) ->
  topic_stores topic (self w) <> [] ->
  let w' := st (on_partition_assign opens topic partition committed_offsets w) in
  clear_stores system w' = mkOutcome (Raise PartitionStoreIsUsed) w' [].
Proof.
  intros Hwf Hsome. cbn zeta. rewrite on_partition_assign_state.
  set (w' := st (assign_each opens topic partition (topic_stores topic (self w)) [] w)).
  assert (Hany : any_partitions (self w') = true).
  { apply any_partitions_in_use.
    destruct (topic_stores topic (self w)) as [| [name store] stores] eqn:Hstores;
      [congruence |].
    pose proof (assign_each_stores opens topic partition ((name, store) :: stores)
                  [] w Hwf name store ltac:(left)) as Hlookup.
    fold w' in Hlookup. unfold lookup, topic_stores in Hlookup.
    destruct (PyDict.get topic (_stores (self w'))) as [stores' |] eqn:Htopic;
      [| discriminate].
    cbn [default] in Hlookup.
    exists topic, stores', name, (snd (Store.assign_partition partition store)).
    split; [apply get_item, Htopic |].
    split; [apply get_item, Hlookup | apply assigned_holds]. }
  unfold clear_stores, bind, gets. cbn [out st ev]. rewrite Hany. reflexivity.
Qed.



End RebalanceState.

Section RebalanceStateSample.
Import StateStoreManager.

Lemma clear_stores_refused_after_assign_witness :
  let w' := st (on_partition_assign Sample.opens (Some "orders") 0 []
                  Sample.registered) in
  clear_stores Sample.permissive w' = mkOutcome (Raise PartitionStoreIsUsed) w' [].
Proof.
  apply (clear_stores_refused_after_assign Sample.permissive Sample.opens
           (Some "orders") 0 [] Sample.registered).
  - apply (bool_decide_unpack _). vm_compute. exact I.
  - vm_compute. discriminate.
Defined.



(** On the sample disk the assignment leaves the directory of the
    partition of each store, and the revocation leaves it there. *)
Example sample_assignment_on_disk :
  let assigned := on_partition_assign Sample.opens (Some "orders") 0 []
                    Sample.registered in
  let revoked := on_partition_revoke (Some "orders") 0 (st assigned) in
  fs Sample.registered !! ["app"; "state"; "alerts"; "hopping_5000_1000"; "0"]
  = None /\
  fs (st revoked) !! ["app"; "state"; "alerts"; "hopping_5000_1000"; "0"]
  = Some IsDir.
Proof. vm_compute. split; reflexivity. Qed.

End RebalanceStateSample.

(** ** The state directory *)

Section StateDirectory.
Import StateStoreManager.
Variable system : OS.

Lemma app_one_more (above : Path) (name : string) (q : list string) :
  (above ++ [name]) ++ q = above ++ name :: q.
Proof. rewrite <- app_assoc. reflexivity. Qed.

Lemma app_longer (path : Path) (q : list string) : path ++ q = path -> q = [].
Proof.
  intros Heq. apply (app_inv_head path). rewrite app_nil_r. exact Heq.
Qed.

(** What [mkdir_parents] does, case by case. *)
Lemma mkdir_parents_outcome below : forall above (disk : FileSystem),
  match mkdir_parents above below disk with
  | os.Done disk' =>
      below <> [] /\
      disk !! (above ++ below) = None /\
      disk' !! (above ++ below) = Some IsDir /\
      (forall p kind, disk !! p = Some kind -> disk' !! p = Some kind) /\
      (forall p, disk !! p = None -> is_Some (disk' !! p) ->
         above `prefix_of` p /\ p `prefix_of` above ++ below /\
         disk' !! p = Some IsDir)
  | os.Failed os.FileExistsError =>
      below = [] \/ is_Some (disk !! (above ++ below))
  | os.Failed os.NotADirectoryError =>
      exists q, q `prefix_of` below /\ q <> below /\ disk !! (above ++ q) = Some IsFile
  end.
Proof.
  induction below as [| name below IH]; intros above disk; [left; reflexivity |].
  cbn [mkdir_parents]. cbn zeta.
  destruct below as [| name' below'].
  - destruct (disk !! (above ++ [name])) as [kind |] eqn:Hpath.
    + right. eauto.
    + split; [discriminate |]. split; [reflexivity |].
      split; [apply lookup_insert_eq |]. split.
      * intros p kind Hp. rewrite lookup_insert_ne by congruence. exact Hp.
      * intros p Hp Hsome.
        destruct (decide (above ++ [name] = p)) as [<- | Hne].
        -- split; [apply prefix_app_r; reflexivity |].
           split; [reflexivity | apply lookup_insert_eq].
        -- rewrite lookup_insert_ne in Hsome by exact Hne.
           rewrite Hp in Hsome. destruct Hsome as [? Hc]. discriminate.
  - set (below := name' :: below') in *.
    assert (Hlonger : above ++ [name] <> (above ++ [name]) ++ below).
    { intros Heq. symmetry in Heq. apply app_longer in Heq. discriminate. }
    destruct (disk !! (above ++ [name])) as [[|] |] eqn:Hpath.
    + exists [name]. split; [apply prefix_cons, prefix_nil |].
      split; [discriminate | exact Hpath].
    + specialize (IH (above ++ [name]) disk).
      destruct (mkdir_parents (above ++ [name]) below disk) as [disk' | [|]].
      * destruct IH as (_ & Hnone & Hdir & Hkeep & Hnew).
        rewrite app_one_more in Hnone, Hdir.
        split; [discriminate |]. split; [exact Hnone |]. split; [exact Hdir |].
        split; [exact Hkeep |]. intros p Hp Hsome.
        destruct (Hnew p Hp Hsome) as (Habove & Hbelow & Hkind).
        rewrite app_one_more in Hbelow.
        split; [| split; assumption].
        etransitivity; [| exact Habove]. apply prefix_app_r. reflexivity.
      * right. destruct IH as [Hc | Hsome]; [discriminate |].
        rewrite app_one_more in Hsome. exact Hsome.
      * destruct IH as (q & Hprefix & Hne & Hfile).
        exists (name :: q). split; [apply prefix_cons, Hprefix |].
        split; [congruence |]. rewrite <- app_one_more. exact Hfile.
    + specialize (IH (above ++ [name]) (<[above ++ [name] := IsDir]> disk)).
      destruct (mkdir_parents (above ++ [name]) below
                  (<[above ++ [name] := IsDir]> disk)) as [disk' | [|]].
      * destruct IH as (_ & Hnone & Hdir & Hkeep & Hnew).
        rewrite lookup_insert_ne in Hnone by exact Hlonger.
        rewrite app_one_more in Hnone, Hdir.
        split; [discriminate |]. split; [exact Hnone |]. split; [exact Hdir |].
        split.
        -- intros p kind Hp. apply Hkeep.
           rewrite lookup_insert_ne by congruence. exact Hp.
        -- intros p Hp Hsome.
           destruct (decide (above ++ [name] = p)) as [<- | Hne].
           ++ split; [apply prefix_app_r; reflexivity |].
              split; [exists below; symmetry; apply app_one_more |].
              apply Hkeep, lookup_insert_eq.
           ++ assert (Hp' : <[above ++ [name] := IsDir]> disk !! p = None)
                by (rewrite lookup_insert_ne by exact Hne; exact Hp).
              destruct (Hnew p Hp' Hsome) as (Habove & Hbelow & Hkind).
              rewrite app_one_more in Hbelow.
              split; [| split; assumption].
              etransitivity; [| exact Habove]. apply prefix_app_r. reflexivity.
      * right. destruct IH as [Hc | Hsome]; [discriminate |].
        rewrite lookup_insert_ne in Hsome by exact Hlonger.
        rewrite app_one_more in Hsome. exact Hsome.
      * destruct IH as (q & Hprefix & Hne & Hfile).
        exists (name :: q). split; [apply prefix_cons, Hprefix |].
        split; [congruence |]. rewrite <- app_one_more.
        destruct (decide (above ++ [name] = (above ++ [name]) ++ q)) as [Heq | Hneq].
        -- rewrite <- Heq, lookup_insert_eq in Hfile. discriminate.
        -- rewrite lookup_insert_ne in Hfile by exact Hneq. exact Hfile.
Qed.

(** With every directory above it in place, only the last one is made. *)
Lemma mkdir_parents_last below : forall above (disk : FileSystem),
  below <> [] ->
  (forall q, q <> [] -> q `prefix_of` below -> q <> below ->
             disk !! (above ++ q) = Some IsDir) ->
  disk !! (above ++ below) = None ->
  mkdir_parents above below disk = os.Done (<[above ++ below := IsDir]> disk).
Proof.
  induction below as [| name below IH]; intros above disk Hsome Habove Hnone;
    [congruence |].
  cbn [mkdir_parents]. cbn zeta. destruct below as [| name' below'].
  - rewrite Hnone. reflexivity.
  - rewrite (Habove [name]);
      [| discriminate | apply prefix_cons, prefix_nil | discriminate].
    rewrite IH; [rewrite app_one_more; reflexivity | discriminate | |].
    + intros q Hq Hprefix Hne. rewrite app_one_more.
      apply Habove; [discriminate | apply prefix_cons, Hprefix | congruence].
    + rewrite app_one_more. exact Hnone.
Qed.

Lemma stat_lookup (dir : Path) (disk : FileSystem) :
  dir <> [] -> stat dir disk = disk !! dir.
Proof. destruct dir; [congruence | reflexivity]. Qed.

(** X15.  [init] prepares the state directory and destroys nothing.
    Without a state directory it does nothing.  Otherwise, when it returns,
    the state directory is a directory, everything that was on the disk is
    still there unchanged, all that is new are directories on the way to the
    state directory, and a second [init] changes nothing.  It fails with
    [FileExistsError] exactly when the path is taken by something that is
    not a directory, and with [NotADirectoryError] only when a regular file
    lies on the way to a missing state directory. *)
Theorem init_prepares_the_state_directory (w : World) :
  match _state_dir (self w) with
  | None => init w = os.Done w
  | Some dir =>
      match init w with
      | os.Done w' =>
          self w' = self w /\
          stat dir (fs w') = Some IsDir /\
          not (stat dir (fs w) = Some IsFile) /\
          (forall p kind, fs w !! p = Some kind -> fs w' !! p = Some kind) /\
          (forall p, fs w !! p = None -> is_Some (fs w' !! p) ->
             p `prefix_of` dir /\ fs w' !! p = Some IsDir) /\
          init w' = os.Done w'
      | os.Failed os.FileExistsError => stat dir (fs w) = Some IsFile
      | os.Failed os.NotADirectoryError =>
          stat dir (fs w) = None /\
          exists p, p `prefix_of` dir /\ p <> dir /\ fs w !! p = Some IsFile
      end
  end.
Proof.
  unfold init, _init_state_dir.
  destruct (_state_dir (self w)) as [dir |] eqn:Hdir; [| reflexivity].
  destruct (stat dir (fs w)) as [[|] |] eqn:Hstat.
  - reflexivity.
  - rewrite Hdir, Hstat.
    split; [reflexivity |]. split; [reflexivity |]. split; [congruence |].
    split; [intros p kind Hp; exact Hp |]. split; [| reflexivity].
    intros p Hnone [kind Hsome]. congruence.
  - pose proof (mkdir_parents_outcome dir [] (fs w)) as Hmk. cbn [app] in Hmk.
    assert (Hne : dir <> []) by (intros ->; discriminate).
    rewrite stat_lookup in Hstat by exact Hne.
    destruct (mkdir_parents [] dir (fs w)) as [disk' | [|]].
    + destruct Hmk as (_ & _ & Hmade & Hkeep & Hnew).
      cbn [self fs]. rewrite Hdir. rewrite (stat_lookup dir disk' Hne), Hmade.
      split; [reflexivity |]. split; [reflexivity |]. split; [congruence |].
      split; [exact Hkeep |]. split; [| reflexivity].
      intros p Hp Hsome. destruct (Hnew p Hp Hsome) as (_ & Hprefix & Hkind).
      split; assumption.
    + destruct Hmk as [Hc | [kind Hsome]]; congruence.
    + split; [reflexivity |].
      destruct Hmk as (q & Hprefix & Hneq & Hfile). eauto.
Qed.

(** X16.  Clearing the stores and initialising again leaves the state
    directory in place.  When no partition is assigned and the state
    directory is a directory below directories, [clear_stores] followed by
    [init] succeeds whatever the removal met: the state directory is a
    directory, the manager and the rest of the disk are as before, and
    below the state directory there is nothing that was not there before.
    When the operating system refuses no step of the removal, the state
    directory is empty. *)
Theorem init_after_clear_stores (w : World) (dir : Path) :
  any_partitions (self w) = false ->
  _state_dir (self w) = Some dir ->
  stat dir (fs w) = Some IsDir ->
  (forall q, q <> [] -> q `prefix_of` dir -> fs w !! q = Some IsDir) ->
  let cleared := clear_stores system w in
  out cleared = Ok tt /\
  exists w',
    init (st cleared) = os.Done w' /\
    self w' = self w /\
    stat dir (fs w') = Some IsDir /\
    (forall p, ~ dir `prefix_of` p -> fs w' !! p = fs w !! p) /\
    (forall p kind, dir `prefix_of` p -> p <> dir ->
       fs w' !! p = Some kind -> fs w !! p = Some kind) /\
    ((forall q, dir `prefix_of` q ->
                can_open system q = true /\ can_remove system q = true) ->
     forall p, dir `prefix_of` p -> p <> dir -> fs w' !! p = None).
Proof.
  intros Hfree Hdir Hthere Habove. cbn zeta.
  unfold clear_stores, bind, gets. cbn [out st ev]. rewrite Hfree, Hdir.
  unfold modify, on_disk. cbn [out st ev self fs]. split; [reflexivity |].
  set (disk := rmtree_ignore_errors system dir (fs w)).
  pose proof (rmtree_outside system dir (fs w)) as Hrest.
  pose proof (rmtree_subset system dir (fs w)) as Hsubset.
  pose proof (rmtree_permitted system dir (fs w) Hthere) as Hgone.
  fold disk in Hrest, Hsubset, Hgone.
  unfold init, _init_state_dir. cbn [self fs]. rewrite Hdir.
  destruct (stat dir disk) as [[|] |] eqn:Hstat.
  - exfalso. destruct dir as [| name dir']; [discriminate |].
    cbn [stat] in Hstat, Hthere. apply Hsubset in Hstat. congruence.
  - eexists. split; [reflexivity |]. cbn [self fs].
    split; [reflexivity |]. split; [exact Hstat |].
    split; [exact Hrest |].
    split; [intros p kind _ _; apply Hsubset |].
    intros Hall p Hprefix _. apply Hgone; assumption.
  - assert (Hne : dir <> []) by (intros ->; discriminate).
    rewrite stat_lookup in Hstat by exact Hne.
    rewrite mkdir_parents_last; [| exact Hne | | exact Hstat].
    + cbn [app]. eexists. split; [reflexivity |]. cbn [self fs].
      split; [reflexivity |].
      split; [rewrite stat_lookup by exact Hne; apply lookup_insert_eq |].
      split; [| split].
      * intros p Hprefix. rewrite lookup_insert_ne; [apply Hrest, Hprefix |].
        intros <-. apply Hprefix. reflexivity.
      * intros p kind _ Hp. rewrite lookup_insert_ne by congruence. apply Hsubset.
      * intros Hall p Hprefix Hp. rewrite lookup_insert_ne by congruence.
        apply Hgone; assumption.
    + intros q Hq Hprefix Hneq. cbn [app].
      rewrite Hrest; [apply Habove; assumption |].
      intros Hback. apply Hneq. apply (anti_symm prefix); assumption.
Qed.

End StateDirectory.

Section StateDirectorySample.
Import StateStoreManager.

Lemma init_after_clear_stores_witness :
  let dir := ["app"; "state"; "alerts"] in
  let cleared := clear_stores Sample.linked Sample.world in
  out cleared = Ok tt /\
  exists w',
    init (st cleared) = os.Done w' /\
    self w' = self Sample.world /\
    stat dir (fs w') = Some IsDir /\
    (forall p, ~ dir `prefix_of` p -> fs w' !! p = fs Sample.world !! p) /\
    (forall p kind, dir `prefix_of` p -> p <> dir ->
       fs w' !! p = Some kind -> fs Sample.world !! p = Some kind) /\
    ((forall q, dir `prefix_of` q ->
                can_open Sample.linked q = true /\
                can_remove Sample.linked q = true) ->
     forall p, dir `prefix_of` p -> p <> dir -> fs w' !! p = None).
Proof.
  apply (init_after_clear_stores Sample.linked Sample.world
           ["app"; "state"; "alerts"]).
  - reflexivity.
  - reflexivity.
  - vm_compute. reflexivity.
  - intros q Hq [rest Hrest].
    destruct q as [| a [| b [| c [| d q]]]]; [congruence | | | | discriminate];
      cbn in Hrest; injection Hrest as <-; intros; subst; vm_compute; reflexivity.
Defined.

(** On the sample disks: the state directory that is there is kept, the
    one taken by a regular file is refused. *)
Example init_sample :
  init Sample.world = os.Done Sample.world /\
  init Sample.blocked_world = os.Failed os.FileExistsError.
Proof. split; vm_compute; reflexivity. Qed.

(** On the sample disk, when nothing is refused, clearing and
    initialising leaves the directory of the group empty. *)
Example init_after_clear_stores_sample :
  exists w',
    init (st (clear_stores Sample.permissive Sample.world)) = os.Done w' /\
    fs w' !! ["app"; "state"; "alerts"] = Some IsDir /\
    fs w' !! ["app"; "state"; "alerts"; "default"] = None /\
    fs w' !! ["app"; "state"; "other"] = Some IsDir.
Proof. eexists. vm_compute. repeat split. Qed.

End StateDirectorySample.
